(** * Insurance Payment Analyzer (v6): benchmarking and classification engine

    A shallow embedding of [src/index.tsx].  Conventions of the model:

    - a JavaScript number is a rational ([Q]); [toNum] never lets a NaN or
      an infinity through, so every amount of a line is finite.  An amount
      [q] stands for the binary64 number nearest to it, [Dbl.fl q]: the cell
      "49.99" is read as [Dbl.fl (4999 # 100)], and [+x.toFixed(2)] is
      [Dbl.fl] of the decimal it prints.  Where the code decides on a
      difference, a sum or a quotient of amounts (the 0.01 tests, the
      deviation in percent) and in [d3.mean], every operation is the
      binary64 one, rounded to nearest; totals and the amounts themselves
      are kept as the decimals they stand for, and [toFixed(2)] rounds that
      decimal;
    - a JavaScript string is a [string] (a sequence of bytes); upper-casing
      and the whitespace class act on the ASCII range;
    - a [Map] (and d3's [InternMap]) is an association list in insertion
      order, because the code iterates over it;
    - [Array.prototype.sort] is a stable insertion sort driven by the
      comparator's sign;
    - a raw record is taken after header lookup: text cells are
      [option string] ([None] for a missing column), numeric cells are the
      value [toNum] returns for them.

    Left out, as presentation or as collaborators of the engine: reading
    the text into records ([parseText], [toNum]), the printing of amounts
    ([fmt], [toFixed]) and the hover text, and the order of the array
    [stats], which only fixes the order in which rows are pushed. *)

From Stdlib Require Import QArith Qround Qabs Qminmax Qpower Lqa.
From Stdlib Require Import ZArith Lia Bool List String Ascii.
From Stdlib Require Import Sorting.Sorted Sorting.Permutation.
From Stdlib Require Floats.
Import ListNotations.

Open Scope Q_scope.

(* ================================================================== *)
(** * Part I: the program                                              *)
(* ================================================================== *)

(** ** Numbers *)

(** [a < b] on numbers, as a boolean; [a === b] is [Qeq_bool]. *)
Definition Qltb (a b : Q) : bool := negb (Qle_bool b a).

(** [+(+v).toFixed(2)]: nearest multiple of one cent, a half rounding away
    from zero. *)
Definition round2 (v : Q) : Q :=
  let n := Qfloor (Qabs v * 100 + (1 # 2)) in
  if Qle_bool 0 v then n # 100 else - (n # 100).

(** [d3.max] and [d3.min]: [undefined] ([None]) on an empty array; a later
    element replaces the running extremum only when strictly beyond it. *)
Definition d3_max (l : list Q) : option Q :=
  fold_left (fun m v => match m with
                        | None => Some v
                        | Some x => if Qltb x v then Some v else m
                        end) l None.

Definition d3_min (l : list Q) : option Q :=
  fold_left (fun m v => match m with
                        | None => Some v
                        | Some x => if Qltb v x then Some v else m
                        end) l None.

(** [d3.sum]. *)
Definition d3_sum {A : Type} (f : A -> Q) (l : list A) : Q :=
  fold_left (fun s d => s + f d) l 0.

(** [x ?? 0]. *)
Definition orZero (o : option Q) : Q :=
  match o with Some v => v | None => 0 end.

(** ** Binary64 arithmetic

    Round to nearest, ties to even, with 53 significant bits and the
    subnormal numbers below [2^-1022].  Overflow is left out: no amount
    comes near [2^1024], and in the comparisons of the program an infinity
    decides as any large number does. *)
Module Dbl.

(** [2^e] *)
Definition pow2 (e : Z) : Q := Qpower 2 e.

(** The binade of a number other than 0: the [e] with
    [2^e <= |q| < 2^(e+1)]. *)
Definition ilog2 (q : Q) : Z :=
  let e := (Z.log2 (Z.abs (Qnum q)) - Z.log2 (Zpos (Qden q)))%Z in
  if Qle_bool (pow2 e) (Qabs q) then e else (e - 1)%Z.

(** The nearest integer, the even one of two that are equally near. *)
Definition rint (x : Q) : Z :=
  let f := Qfloor x in
  match Qcompare (x - inject_Z f) (1 # 2) with
  | Lt => f
  | Gt => (f + 1)%Z
  | Eq => if Z.even f then f else (f + 1)%Z
  end.

(** The exponent of the unit in the last place of [q]. *)
Definition exponent (q : Q) : Z := Z.max (ilog2 q - 52) (-1074).

(** The binary64 number nearest to [q]. *)
Definition fl (q : Q) : Q :=
  if Qeq_bool q 0 then 0
  else inject_Z (rint (q / pow2 (exponent q))) * pow2 (exponent q).

(** [x + y], [x - y], [x * y] and [x / y] on two binary64 numbers.  The
    program divides by a number it has tested not to be 0. *)
Definition add (x y : Q) : Q := fl (x + y).
Definition sub (x y : Q) : Q := fl (x - y).
Definition mul (x y : Q) : Q := fl (x * y).
Definition div (x y : Q) : Q := fl (x / y).

(** The literal [0.01]: 5764607523034235 / 2^59. *)
Definition cent : Q := Eval vm_compute in fl (1 # 100).

(** The unit roundoff, [2^-53]. *)
Definition u : Q := pow2 (-53).

End Dbl.

Arguments Dbl.pow2 : simpl never.
Arguments Dbl.fl : simpl never.
Arguments Dbl.cent : simpl never.
Arguments Dbl.u : simpl never.

(** ** Sorting with a comparator *)

Section JsSort.
Context {A : Type} (cmp : A -> A -> Q).

(** [x] stood before every element of [l]: it is placed before the first
    element it does not compare strictly greater than. *)
Fixpoint sort_insert (x : A) (l : list A) : list A :=
  match l with
  | [] => [x]
  | y :: l' => if Qltb 0 (cmp x y) then y :: sort_insert x l' else x :: l
  end.

Definition jsSort (l : list A) : list A := fold_right sort_insert [] l.
End JsSort.

(** ** Frequency tables

    [freq.set(v, (freq.get(v) || 0) + 1)] over a [Map] keyed by number:
    an existing key keeps its position and its first spelling. *)
Fixpoint freq_bump (v : Q) (m : list (Q * nat)) : list (Q * nat) :=
  match m with
  | [] => [(v, 1%nat)]
  | (k, c) :: m' =>
      if Qeq_bool k v then (k, S c) :: m' else (k, c) :: freq_bump v m'
  end.

(** The loop of [buildGroups], which is also [d3.rollup(l, v => v.length, v => v)]. *)
Definition freqTable (l : list Q) : list (Q * nat) :=
  fold_left (fun m v => freq_bump v m) l [].

Definition countDiff (a b : Q * nat) : Q :=
  inject_Z (Z.of_nat (snd b) - Z.of_nat (snd a)).

(** [(a, b) => (b[1] - a[1]) || (b[0] - a[0])] *)
Definition cmpFreqThenValue (a b : Q * nat) : Q :=
  if Qeq_bool (countDiff a b) 0 then fst b - fst a else countDiff a b.

(** [(a, b) => b[1] - a[1]] *)
Definition cmpFreq (a b : Q * nat) : Q := countDiff a b.

(** ** Proxy selection (the body of [buildGroups] between the
       decontamination step and the override) *)

Definition selectProxy (metricForProxy : list Q) : Q * string :=
  let n := List.length metricForProxy in
  let rounded := map round2 metricForProxy in
  if (n <=? 2)%nat then
    (orZero (d3_max rounded), "max_when_few"%string)
  else
    let entries := jsSort cmpFreqThenValue (freqTable rounded) in
    let proxy := match nth_error entries 0 with Some e => fst e | None => 0 end in
    let topCount := match nth_error entries 0 with Some e => snd e | None => 0%nat end in
    let secondCount := match nth_error entries 1 with Some e => snd e | None => 0%nat end in
    (proxy, if (topCount =? secondCount)%nat then "mode (tie→max)"%string else "mode"%string).

(** ** Strings *)

Module Str.
Local Open Scope string_scope.
Local Open Scope char_scope.

(** The whitespace class of [\s] and [trim], on the ASCII range. *)
Definition isSpace (c : ascii) : bool :=
  match c with
  | " " | "009" | "010" | "011" | "012" | "013" => true
  | _ => false
  end.

Definition upperChar (c : ascii) : ascii :=
  let n := nat_of_ascii c in
  if ((97 <=? n) && (n <=? 122))%nat then ascii_of_nat (n - 32) else c.

Fixpoint toUpperCase (s : string) : string :=
  match s with
  | EmptyString => EmptyString
  | String c s' => String (upperChar c) (toUpperCase s')
  end.

Fixpoint trimStart (s : string) : string :=
  match s with
  | EmptyString => EmptyString
  | String c s' => if isSpace c then trimStart s' else s
  end.

(** [trimEnd] keeps a character when it is not whitespace or when
    something is left after it. *)
Fixpoint trimEnd (s : string) : string :=
  match s with
  | EmptyString => EmptyString
  | String c s' =>
      match trimEnd s' with
      | EmptyString => if isSpace c then EmptyString else String c EmptyString
      | t => String c t
      end
  end.

Definition trim (s : string) : string := trimEnd (trimStart s).

(** [s.startsWith(t)] and [s.includes(t)] *)
Fixpoint startsWith (s t : string) {struct t} : bool :=
  match t with
  | EmptyString => true
  | String a t' =>
      match s with
      | EmptyString => false
      | String b s' => Ascii.eqb a b && startsWith s' t'
      end
  end.

Fixpoint includes (s t : string) : bool :=
  startsWith s t
  || match s with
     | EmptyString => false
     | String _ s' => includes s' t
     end.

(** [s.replace(/\s+/g, " ")]: [inRun] tells that the previous character
    was whitespace, whose run has already produced its blank. *)
Fixpoint collapseFrom (inRun : bool) (s : string) : string :=
  match s with
  | EmptyString => EmptyString
  | String c s' =>
      if isSpace c
      then (if inRun then collapseFrom true s' else String " " (collapseFrom true s'))
      else String c (collapseFrom false s')
  end.

Definition collapseSpaces (s : string) : string := collapseFrom false s.

(** [s.replace(/\s+-\s+/g, " - ")], as the matcher advances through [s]:
    - [HText]: no match under way;
    - [HSpaces buf]: inside a whitespace run [buf], kept back;
    - [HDash buf]: that run was followed by a hyphen;
    - [HMatched]: run, hyphen and at least one more blank: a match, which
      greedily takes the rest of the second run. *)
Inductive hyphenState : Type :=
| HText
| HSpaces (buf : string)
| HDash (buf : string)
| HMatched.

Fixpoint hyphenFrom (st : hyphenState) (s : string) : string :=
  match s with
  | EmptyString =>
      match st with
      | HText => EmptyString
      | HSpaces buf => buf
      | HDash buf => buf ++ "-"
      | HMatched => " - "
      end
  | String c s' =>
      match st with
      | HText =>
          if isSpace c then hyphenFrom (HSpaces (String c EmptyString)) s'
          else String c (hyphenFrom HText s')
      | HSpaces buf =>
          if isSpace c then hyphenFrom (HSpaces (buf ++ String c EmptyString)) s'
          else if Ascii.eqb c "-" then hyphenFrom (HDash buf) s'
          else buf ++ String c (hyphenFrom HText s')
      | HDash buf =>
          if isSpace c then hyphenFrom HMatched s'
          else buf ++ "-" ++ String c (hyphenFrom HText s')
      | HMatched =>
          if isSpace c then hyphenFrom HMatched s'
          else " - " ++ String c (hyphenFrom HText s')
      end
  end.

Definition normalizeHyphens (s : string) : string := hyphenFrom HText s.

(** [s.replace(/\s+INC$/i, EmptyString)]: the leftmost match ending the string
    starts where the last whitespace run before the suffix starts. *)
Fixpoint dropSpaces (l : list ascii) : list ascii :=
  match l with
  | [] => []
  | c :: l' => if isSpace c then dropSpaces l' else l
  end.

Definition stripInc (s : string) : string :=
  match rev (list_ascii_of_string s) with
  | c3 :: c2 :: c1 :: b :: rest =>
      if Ascii.eqb (upperChar c1) "I" && Ascii.eqb (upperChar c2) "N"
         && Ascii.eqb (upperChar c3) "C" && isSpace b
      then string_of_list_ascii (rev (dropSpaces rest))
      else s
  | _ => s
  end.

(** [s.split(/[\,\s]+/)] followed by [.filter(Boolean)]: the maximal runs
    of characters that are neither a comma nor whitespace.  [cur] is the
    piece being read. *)
Definition isSep (c : ascii) : bool := Ascii.eqb c "," || isSpace c.

Definition flush (cur : string) : list string :=
  if String.eqb cur EmptyString then [] else [cur].

Fixpoint piecesFrom (cur : string) (s : string) : list string :=
  match s with
  | EmptyString => flush cur
  | String c s' =>
      if isSep c then flush cur ++ piecesFrom EmptyString s'
      else piecesFrom (cur ++ String c EmptyString) s'
  end.

(** [Array.from(new Set(l))]: first occurrences, in order. *)
Fixpoint uniq (seen : list string) (l : list string) : list string :=
  match l with
  | [] => []
  | x :: l' =>
      if existsb (String.eqb x) seen then uniq seen l'
      else x :: uniq (x :: seen) l'
  end.

(** The comparator of [sort()] without an argument. *)
Definition cmpDefault (a b : string) : Q :=
  if String.ltb a b then (-1)%Q else if String.ltb b a then 1%Q else 0%Q.

Fixpoint join (sep : string) (l : list string) : string :=
  match l with
  | [] => EmptyString
  | [x] => x
  | x :: l' => x ++ sep ++ join sep l'
  end.

(** [String(x || d)] for a cell that is a string or [undefined]. *)
Definition orElse (x : option string) (d : string) : string :=
  match x with
  | Some s => if String.eqb s EmptyString then d else s
  | None => d
  end.

(** [a || b] on such cells. *)
Definition orCell (a b : option string) : option string :=
  match a with
  | Some s => if String.eqb s EmptyString then b else a
  | None => b
  end.
End Str.

(** ** Record normalizer *)

Definition noModifiers : string := "—".

Definition normalizeModifiers (mod_ : option string) : string :=
  match mod_ with
  | None => noModifiers
  | Some m =>
      if String.eqb m EmptyString then noModifiers
      else
        let toks := map (fun t => Str.toUpperCase (Str.trim t)) (Str.piecesFrom EmptyString m) in
        let toks := filter (fun t => negb (String.eqb t EmptyString)) toks in
        let uniq := jsSort Str.cmpDefault (Str.uniq [] toks) in
        match uniq with
        | [] => noModifiers
        | _ => Str.join "+" uniq
        end
  end.

Definition UHCTokens : list string :=
  [ "UNITED HEALTH";
    "UNITED HEALTH CARE";
    "UNITED HEALTHCARE";
    "UHC";
    "UHC – UNITEDHEALTHCARE";
    "UHC-UNITEDHEALTHCARE";
    "UHC – UNITED HEALTH CARE";
    "UNITED HEALTH CARE INSURANCE" ]%string.

Definition unitedHealthCare : string := "United Health Care".

Definition normalizeInsurance (nameRaw : option string) : string :=
  let name := Str.trim (Str.orElse nameRaw EmptyString) in
  let upper := Str.toUpperCase name in
  if existsb (fun t => Str.includes upper t) UHCTokens then unitedHealthCare
  else Str.trim (Str.stripInc (Str.normalizeHyphens (Str.collapseSpaces name))).

(** A raw record after header lookup ([getVal]) and, for the numeric
    columns, after [toNum]. *)
Module Raw.
Record Row : Type := mkRow {
  Insurance : option string;
  CPT : option string;
  POS : option string;
  Modifiers : option string;
  Days_or_Units : option string;
  Days_Or_Units : option string;
  Units : option string;
  Patient_Name : option string;
  Date_of_Service : option string;
  Charges : Q;
  Insurance_Payment : Q;
  Patient_Payment : Q;
  Balance : Q;
  Adjustment : Q
}.
End Raw.

Definition computeAllowed (row : Raw.Row) : Q :=
  let ins := Qabs (Raw.Insurance_Payment row) in
  let pat := Qmax 0 (Raw.Patient_Payment row) in
  let bal := Qmax 0 (Raw.Balance row) in
  round2 (ins + pat + bal).

(** [percentDelta]: [!ref || ref === 0] holds of a number only when it is
    zero; [((v - ref) / ref) * 100] is three binary64 operations. *)
Definition percentDelta (v ref : Q) : Q :=
  let v := Dbl.fl v in
  let ref := Dbl.fl ref in
  if Qeq_bool ref 0 then 0 else Dbl.mul (Dbl.div (Dbl.sub v ref) ref) 100.

(** The grouping attributes [g] of a line. *)
Record Attrs : Type := mkAttrs {
  Insurance : string;
  CPT : string;
  POS : string;
  Modifiers : string;
  Units : string
}.

Definition buildKey (g : Attrs) : string :=
  (Insurance g ++ "|" ++ CPT g ++ "|" ++ POS g ++ "|" ++ Modifiers g ++ "|" ++ Units g)%string.

Definition buildKeyNoUnits (g : Attrs) : string :=
  (Insurance g ++ "|" ++ CPT g ++ "|" ++ POS g ++ "|" ++ Modifiers g)%string.

(** A canonical line, as [enrichRows] builds it. *)
Record Line : Type := mkLine {
  _row : Raw.Row;
  idx : nat;
  patient : string;
  dos : string;
  allowed : Q;
  insurancePaid : Q;
  charges : Q;
  adjustment : Q;
  g : Attrs;
  groupKey : string
}.

Definition hasCPT (r : Raw.Row) : bool :=
  negb (String.eqb (Str.trim (Str.orElse (Raw.CPT r) EmptyString)) EmptyString).

Definition enrichRow (idx : nat) (r : Raw.Row) : Line :=
  let allowed := computeAllowed r in
  let insurancePaid := Qabs (Raw.Insurance_Payment r) in
  let charges := Qmax 0 (Raw.Charges r) in
  let adjustment := Raw.Adjustment r in
  let g := {| Insurance := normalizeInsurance (Raw.Insurance r);
              CPT := Str.trim (Str.orElse (Raw.CPT r) EmptyString);
              POS := Str.trim (Str.orElse (Raw.POS r) EmptyString);
              Modifiers := normalizeModifiers (Raw.Modifiers r);
              Units := Str.trim
                         (Str.orElse
                            (Str.orCell (Str.orCell (Raw.Days_or_Units r) (Raw.Days_Or_Units r))
                                        (Raw.Units r))
                            "1") |} in
  let patient := Str.trim (Str.orElse (Raw.Patient_Name r) EmptyString) in
  let dos := Str.trim (Str.orElse (Raw.Date_of_Service r) EmptyString) in
  {| _row := r; idx := idx; patient := patient; dos := dos;
     allowed := allowed; insurancePaid := insurancePaid; charges := charges;
     adjustment := adjustment; g := g; groupKey := buildKey g |}.

(** [.map((r, idx) => ...)] *)
Fixpoint mapi {A B : Type} (f : nat -> A -> B) (i : nat) (l : list A) : list B :=
  match l with
  | [] => []
  | x :: l' => f i x :: mapi f (S i) l'
  end.

Definition enrichRows (raw : list Raw.Row) : list Line :=
  mapi enrichRow 0 (filter hasCPT raw).

(** ** Settings of the component *)

Inductive Benchmark : Type := Paid | Allowed.

(** What is stored under a key of the override object, seen through the
    guard of [buildGroups]: [null], something [Number] turns into NaN, or a
    number. *)
Inductive Stored : Type :=
| StNull
| StNaN
| StNum (v : Q).

Record Config : Type := mkConfig {
  threshold : Q;
  decontaminateChargesProxy : bool;
  benchmark : Benchmark;
  overrides : list (string * Stored);
  includeUnitsInKey : bool
}.

(** [overrides[key]]: [None] is [undefined]. *)
Fixpoint lookupOverride (key : string) (o : list (string * Stored)) : option Stored :=
  match o with
  | [] => None
  | (k, v) :: o' => if String.eqb k key then Some v else lookupOverride key o'
  end.

(** ** Group aggregator *)

(** Insertion-ordered buckets: the loop over [enriched] of [buildGroups],
    and [d3.group]. *)
Fixpoint bucketPush (k : string) (d : Line) (b : list (string * list Line))
  : list (string * list Line) :=
  match b with
  | [] => [(k, [d])]
  | (k', ds) :: b' =>
      if String.eqb k' k then (k', ds ++ [d]) :: b' else (k', ds) :: bucketPush k d b'
  end.

Definition groupBy (key : Line -> string) (l : list Line) : list (string * list Line) :=
  fold_left (fun b d => bucketPush (key d) d b) l [].

Definition keyFor (cfg : Config) (g : Attrs) : string :=
  if includeUnitsInKey cfg then buildKey g else buildKeyNoUnits g.

Definition metricOf (cfg : Config) (d : Line) : Q :=
  match benchmark cfg with
  | Paid => insurancePaid d
  | Allowed => allowed d
  end.

(** [Math.abs(d.allowed - d.charges) < 0.01] *)
Definition equalsCharges (d : Line) : bool :=
  Qltb (Qabs (Dbl.sub (Dbl.fl (allowed d)) (Dbl.fl (charges d)))) Dbl.cent.

(** [items.filter((d, i) => !equalsChargesFlags[i])] *)
Definition dropFlagged (items : list Line) (flags : list bool) : list Line :=
  map fst (filter (fun p => negb (snd p)) (combine items flags)).

Definition metricAll (cfg : Config) (items : list Line) : list Q :=
  map (metricOf cfg) items.

Definition metricForProxy (cfg : Config) (items : list Line) : list Q :=
  match benchmark cfg with
  | Paid => metricAll cfg items
  | Allowed =>
      let equalsChargesFlags := map equalsCharges items in
      let hasEq := existsb (fun f => f) equalsChargesFlags in
      let hasDiff := existsb negb equalsChargesFlags in
      let narrowed :=
        if decontaminateChargesProxy cfg && hasEq && hasDiff
        then map allowed (dropFlagged items equalsChargesFlags)
        else metricAll cfg items in
      if (List.length narrowed =? 0)%nat then metricAll cfg items else narrowed
  end.

(** [d3.mean] and [d3.median] ([undefined] on an empty array).  The mean
    is [sum / count] after the loop [sum += value], in binary64. *)
Definition d3_mean (l : list Q) : option Q :=
  match l with
  | [] => None
  | _ => Some (Dbl.div (fold_left (fun sum value => Dbl.add sum (Dbl.fl value)) l 0)
                       (inject_Z (Z.of_nat (List.length l))))
  end.

Definition d3_median (l : list Q) : option Q :=
  let sorted := jsSort (fun a b => a - b) l in
  let n := List.length l in
  match nth_error sorted ((n - 1) / 2), nth_error sorted (n / 2) with
  | Some lo, Some hi => Some (lo + (hi - lo) * (if Nat.even n then 1 # 2 else 0))
  | _, _ => None
  end.

Record GroupStat : Type := mkStat {
  key : string;
  sample : option Attrs;   (* [items[0].g]: the attributes shown for the group *)
  n : nat;
  proxy : Q;
  method : string;
  median : Q;
  mean : Q;
  min : Q;
  max : Q;
  nEqCharges : nat;
  usedDecontaminate : bool;
  topValues : list (Q * nat);
  multiModal : bool;
  nearTie : bool
}.

Definition countOf (e : option (Q * nat)) : nat :=
  match e with Some p => snd p | None => 0%nat end.

(** The override step of [buildGroups]. *)
Definition applyOverride (cfg : Config) (key : string) (computed : Q * string) : Q * string :=
  match lookupOverride key (overrides cfg) with
  | Some (StNum v) => (round2 v, "override"%string)
  | _ => computed
  end.

(** One iteration of the loop over [buckets.entries()]. *)
Definition groupStat (cfg : Config) (key : string) (items : list Line) : GroupStat :=
  let all := metricAll cfg items in
  let computed := selectProxy (metricForProxy cfg items) in
  let equalsChargesCount := List.length (filter equalsCharges items) in
  let roundedAll := map round2 all in
  let topValues := jsSort cmpFreq (freqTable roundedAll) in
  let multiModal :=
    (1 <? List.length topValues)%nat
    && (countOf (nth_error topValues 0) =? countOf (nth_error topValues 1))%nat in
  let nearTie :=
    (1 <? List.length topValues)%nat
    && Qle_bool (6 # 10)
         (inject_Z (Z.of_nat (countOf (nth_error topValues 1)))
          / inject_Z (Z.of_nat (countOf (nth_error topValues 0)))) in
  let final := applyOverride cfg key computed in
  {| key := key;
     sample := option_map g (hd_error items);
     n := List.length items;
     proxy := fst final;
     method := snd final;
     median := orZero (d3_median all);
     mean := orZero (d3_mean all);
     min := orZero (d3_min all);
     max := orZero (d3_max all);
     nEqCharges := equalsChargesCount;
     usedDecontaminate :=
       match benchmark cfg with
       | Allowed => decontaminateChargesProxy cfg && (0 <? equalsChargesCount)%nat
       | Paid => false
       end;
     topValues := topValues;
     multiModal := multiModal;
     nearTie := nearTie |}.

(** [groupsMap], in the order of [buckets.entries()].  (The array [stats]
    holds the same records, re-ordered by payer and procedure code.) *)
Definition buildGroups (cfg : Config) (enriched : list Line)
  : list (string * (list Line * GroupStat)) :=
  map (fun b => (fst b, (snd b, groupStat cfg (fst b) (snd b))))
      (groupBy (fun d => keyFor cfg (g d)) enriched).

(** ** Deviation classifier *)

(** A row of [outIssues].  Amounts and the deviation are kept as numbers:
    the code prints them with [toFixed]; [ProxyHover] is the text
    [buildHover] derives from the group's statistics, kept here as those
    statistics. *)
Record Issue : Type := mkIssue {
  iPatient : string;
  iDOS : string;
  iAttrs : Attrs;
  iCharges : Q;
  iMetric : Q;
  iProxy : Q;
  iProxyHover : GroupStat;
  DeviationPct : Q;
  Status : string;
  Explanation : string
}.

Definition withinRange : string := "Within expected range".

Definition classify (cfg : Config) (stat : GroupStat) (d : Line) : Issue :=
  let metric := metricOf cfg d in
  let delta := percentDelta metric (proxy stat) in
  let absDelta := Qabs delta in
  let isPaid := match benchmark cfg with Paid => true | Allowed => false end in
  let label_reason :=
    if Qltb (threshold cfg) absDelta then
      if Qltb delta 0 then
        (if isPaid then "Underpaid" else "Underpayment",
         if isPaid
         then "Paid is below typical. Check missing modifier, bundling, site-of-service, or incorrect units."
         else "Allowed is below typical for same group.")%string
      else
        (if isPaid then "Overpaid" else "Overpayment",
         if isPaid
         then "Paid is above typical. Could be variant code, bilateral/bundle paid separately, or POS mismatch."
         else "Allowed is above typical.")%string
    else
      (withinRange,
       if isPaid
       then "Paid aligns with proxy typical payment for same payer/CPT/POS/mods/units."
       else "Allowed aligns with proxy contracted rate.")%string in
  {| iPatient := patient d; iDOS := dos d; iAttrs := g d;
     iCharges := charges d; iMetric := metric; iProxy := proxy stat;
     iProxyHover := stat; DeviationPct := delta;
     Status := fst label_reason; Explanation := snd label_reason |}.

(** The rows pushed on [outIssues] for one group, and for all groups
    (before the final sort of the array). *)
Definition issuesOfGroup (cfg : Config) (pack : list Line * GroupStat) : list Issue :=
  map (classify cfg (snd pack)) (fst pack).

Definition outIssues (cfg : Config) (rows : list Raw.Row) : list Issue :=
  flat_map (fun e => issuesOfGroup cfg (snd e)) (buildGroups cfg (enrichRows rows)).

(** ** Audit detectors *)

(** [Math.max(0, toNum(getVal(d._row, "Balance")))] *)
Definition balanceOf (d : Line) : Q := Qmax 0 (Raw.Balance (_row d)).

(** [Math.abs(d.adjustment + d.charges) < 0.01] is a binary64 sum. *)
Definition approxWriteOff (d : Line) : bool :=
  Qltb 0 (charges d)
  && Qltb (Qabs (Dbl.add (Dbl.fl (adjustment d)) (Dbl.fl (charges d)))) Dbl.cent
  && Qeq_bool (insurancePaid d) 0
  && Qeq_bool (balanceOf d) 0.

Definition metricZero (cfg : Config) (d : Line) : bool :=
  Qeq_bool (metricOf cfg d) 0 && Qltb 0 (charges d).

Definition isDenial (cfg : Config) (d : Line) : bool :=
  approxWriteOff d || metricZero cfg d.

Record DenialEntry : Type := mkDenial {
  dPatient : string;
  dDOS : string;
  dAttrs : Attrs;
  dCharges : Q;
  dInsurancePaid : Q;
  dAdjustment : Q
}.

Definition denialEntry (d : Line) : DenialEntry :=
  {| dPatient := patient d; dDOS := dos d; dAttrs := g d;
     dCharges := charges d; dInsurancePaid := insurancePaid d;
     dAdjustment := adjustment d |}.

Definition denials (cfg : Config) (rows : list Raw.Row) : list DenialEntry :=
  map denialEntry (filter (isDenial cfg) (enrichRows rows)).

(** The records built from [byPatient]; the last [map], which prints the
    totals with [fmt], is left out. *)
Record PatientAggregate : Type := mkAggregate {
  Patient : string;
  InsuranceList : string;
  TotalCharges : Q;
  TotalInsurancePaid : Q;
  TotalAllowed : Q;
  TotalBalance : Q;
  AllZeroPaid : bool;
  UnpaidGap : Q
}.

Definition aggregate (cfg : Config) (e : string * list Line) : PatientAggregate :=
  let items := snd e in
  let totalCharges := d3_sum charges items in
  let totalInsPaid := d3_sum insurancePaid items in
  let totalBalance := d3_sum balanceOf items in
  let totalAllowed := d3_sum allowed items in
  {| Patient := fst e;
     InsuranceList := Str.join ", " (Str.uniq [] (map (fun d => Insurance (g d)) items));
     TotalCharges := totalCharges;
     TotalInsurancePaid := totalInsPaid;
     TotalAllowed := totalAllowed;
     TotalBalance := totalBalance;
     AllZeroPaid := Qeq_bool totalInsPaid 0 && Qltb 0 totalCharges;
     UnpaidGap :=
       Qmax 0 ((match benchmark cfg with
                | Paid => totalInsPaid
                | Allowed => totalAllowed
                end) - totalInsPaid) |}.

(** [(a, b) => b.UnpaidGap - a.UnpaidGap] *)
Definition cmpGap (a b : PatientAggregate) : Q := UnpaidGap b - UnpaidGap a.

Definition unpaidPatients (cfg : Config) (rows : list Raw.Row) : list PatientAggregate :=
  jsSort cmpGap
    (filter AllZeroPaid (map (aggregate cfg) (groupBy patient (enrichRows rows)))).

(** ** Header lookup *)

(** [[A-Za-z0-9_]] *)
Definition isWordChar (c : ascii) : bool :=
  let n := nat_of_ascii c in
  ((48 <=? n) && (n <=? 57) || (65 <=? n) && (n <=? 90)
   || (97 <=? n) && (n <=? 122) || (n =? 95))%nat.

(** [s.replace(/\s+/g, "_")], with [inRun] as in [Str.collapseFrom]. *)
Fixpoint underscoreFrom (inRun : bool) (s : string) : string :=
  match s with
  | EmptyString => EmptyString
  | String c s' =>
      if Str.isSpace c
      then (if inRun then underscoreFrom true s'
            else String "_"%char (underscoreFrom true s'))
      else String c (underscoreFrom false s')
  end.

(** [s.replace(/[^A-Za-z0-9_]/g, "")] *)
Fixpoint keepWordChars (s : string) : string :=
  match s with
  | EmptyString => EmptyString
  | String c s' => if isWordChar c then String c (keepWordChars s') else keepWordChars s'
  end.

Definition normalizeHeader (h : string) : string :=
  Str.toUpperCase (keepWordChars (underscoreFrom false (Str.trim h))).

(** A parsed record: its columns in the order of [Object.keys]. *)
Definition Cells : Type := list (string * string).

(** [row[key]] when [key in row]. *)
Fixpoint cellAt (row : Cells) (key : string) : option string :=
  match row with
  | [] => None
  | (k, v) :: row' => if String.eqb k key then Some v else cellAt row' key
  end.

(** The loop of [getVal] over [Object.keys(row)]. *)
Fixpoint cellLike (row : Cells) (want : string) : option string :=
  match row with
  | [] => None
  | (k, v) :: row' =>
      if String.eqb (normalizeHeader k) want then Some v else cellLike row' want
  end.

Definition getVal (row : Cells) (key : string) : option string :=
  match cellAt row key with
  | Some v => Some v
  | None => cellLike row (normalizeHeader key)
  end.

(** ** The override form

    [overrides] is an object keyed by group key; a key holds a ['|'] and is
    never an array index, so a new key goes last and a known key keeps its
    place.  [amount] is the number [Number(ovrForm.amount)] when it is
    finite, [None] when it is NaN or infinite. *)
Module Form.
Record OvrForm : Type := mkForm {
  payer : string;
  cpt : string;
  pos : string;
  mods : string;
  units : string;
  amount : option Q
}.

Definition attrs (f : OvrForm) : Attrs :=
  {| Insurance := normalizeInsurance (Some (payer f));
     CPT := Str.trim (Str.orElse (Some (cpt f)) EmptyString);
     POS := Str.trim (Str.orElse (Some (pos f)) EmptyString);
     Modifiers := normalizeModifiers (Some (mods f));
     Units := Str.trim (Str.orElse (Some (units f)) "1") |}.

Definition ovrKey (cfg : Config) (f : OvrForm) : string :=
  let g := attrs f in
  if String.eqb (Insurance g) EmptyString
     || String.eqb (CPT g) EmptyString
     || String.eqb (POS g) EmptyString
  then EmptyString
  else keyFor cfg g.

(** [{ ...m, [k]: v }] *)
Fixpoint setEntry (k : string) (v : Stored) (m : list (string * Stored))
  : list (string * Stored) :=
  match m with
  | [] => [(k, v)]
  | (k', v') :: m' =>
      if String.eqb k' k then (k', v) :: m' else (k', v') :: setEntry k v m'
  end.

(** [delete n[k]] *)
Definition removeEntry (k : string) (m : list (string * Stored)) : list (string * Stored) :=
  filter (fun e => negb (String.eqb (fst e) k)) m.

Definition withOverrides (cfg : Config) (o : list (string * Stored)) : Config :=
  {| threshold := threshold cfg;
     decontaminateChargesProxy := decontaminateChargesProxy cfg;
     benchmark := benchmark cfg;
     overrides := o;
     includeUnitsInKey := includeUnitsInKey cfg |}.

Definition applyOverride (cfg : Config) (f : OvrForm) : Config :=
  if String.eqb (ovrKey cfg f) EmptyString then cfg
  else
    match amount f with
    | None => cfg
    | Some a => withOverrides cfg (setEntry (ovrKey cfg f) (StNum (round2 a)) (overrides cfg))
    end.

Definition clearOverride (cfg : Config) (f : OvrForm) : Config :=
  if String.eqb (ovrKey cfg f) EmptyString then cfg
  else withOverrides cfg (removeEntry (ovrKey cfg f) (overrides cfg)).

Definition resetOverridesAll (cfg : Config) : Config := withOverrides cfg [].
End Form.

(** ** Ad hoc lookup ([exampleResults])

    A descriptor is a parsed example record, read by property name; the
    map of groups is the one of the last analysis. *)
Record Descriptor : Type := mkDescriptor {
  xInsurance : option string;
  xCPT : option string;
  xPOS : option string;
  xModifiers : option string;
  xUnits : option string
}.

Definition descriptorAttrs (r : Descriptor) : Attrs :=
  {| Insurance := normalizeInsurance (xInsurance r);
     CPT := Str.trim (Str.orElse (xCPT r) EmptyString);
     POS := Str.trim (Str.orElse (xPOS r) EmptyString);
     Modifiers := normalizeModifiers (xModifiers r);
     Units := Str.trim (Str.orElse (xUnits r) "1") |}.

(** [gm.get(key)] *)
Fixpoint mapGet (key : string) (gm : list (string * (list Line * GroupStat)))
  : option (list Line * GroupStat) :=
  match gm with
  | [] => None
  | (k, pack) :: gm' => if String.eqb k key then Some pack else mapGet key gm'
  end.

(** The answer for one descriptor; amounts are kept as numbers. *)
Inductive ExampleResult : Type :=
| NotFound (g : Attrs)
| Found (g : Attrs) (xProxy : Q) (xMethod : string) (xN xNEqCharges : nat)
        (xRange : Q * Q) (xTopValues : list (Q * nat)) (xMessage : string).

Definition exampleResult (cfg : Config) (gm : list (string * (list Line * GroupStat)))
           (r : Descriptor) : ExampleResult :=
  let g := descriptorAttrs r in
  let key := keyFor cfg g in
  match mapGet key gm with
  | None => NotFound g
  | Some (items, stat) =>
      let metricVals := map round2 (map (metricOf cfg) items) in
      let top := firstn 5 (jsSort cmpFreq (freqTable metricVals)) in
      Found g (proxy stat)
            (method stat ++ (if usedDecontaminate stat then " + decontaminated" else EmptyString))
            (n stat) (nEqCharges stat) (min stat, max stat) top
            (if multiModal stat then "⚠ multi‑modal distribution (tie)"
             else if nearTie stat then "⚠ near tie in distribution"
             else if usedDecontaminate stat
                  then "Group had mixed lines (Allowed==Charges and others). We ignored equals‑charges lines when benchmarking Allowed."
                  else EmptyString)%string
  end.

(** ** The final order of the issues *)

(** [parseFloat(`${delta.toFixed(1)}%`)]: the deviation as it is printed,
    to one decimal. *)
Definition round1 (v : Q) : Q :=
  let n := Qfloor (Qabs v * 10 + (1 # 2)) in
  if Qle_bool 0 v then n # 10 else - (n # 10).

Definition isBad (i : Issue) : bool := negb (String.eqb (Status i) withinRange).

(** The comparator of [outIssues.sort]. *)
Definition cmpIssues (a b : Issue) : Q :=
  if negb (Bool.eqb (isBad a) (isBad b)) then (if isBad a then - (1) else 1)
  else Qabs (round1 (DeviationPct b)) - Qabs (round1 (DeviationPct a)).

(** [outIssues.sort(...)], for the rows in the order in which they were
    pushed. *)
Definition sortIssues (pushed : list Issue) : list Issue := jsSort cmpIssues pushed.

(** ** Proxy audit *)

Record ProxyAudit : Type := mkProxyAudit {
  aPatient : string;
  aDOS : string;
  aAttrs : Attrs;
  aCharges : Q;
  aMetric : Q;
  aProxy : Q;
  nInGroup : nat;
  aMethod : string;
  aNote : string
}.

(** [Math.abs(d.allowed - d.charges) < 0.01 && d.charges > 0] *)
Definition usingChargesAsAllowed (d : Line) : bool :=
  Qltb (Qabs (Dbl.sub (Dbl.fl (allowed d)) (Dbl.fl (charges d)))) Dbl.cent
  && Qltb 0 (charges d).

Definition thinGroup (items : list Line) : bool := (List.length items <=? 2)%nat.

Definition suspiciousProxy (items : list Line) (stat : GroupStat) : bool :=
  thinGroup items || Qltb (proxy stat) 1.

Definition isOverLabel (label : string) : bool :=
  String.eqb label "Overpaid" || String.eqb label "Overpayment".

(** The test before [proxyAud.push]. *)
Definition audited (cfg : Config) (items : list Line) (stat : GroupStat) (d : Line) : bool :=
  isOverLabel (Status (classify cfg stat d))
  && (usingChargesAsAllowed d || suspiciousProxy items stat).

Definition proxyAuditRow (cfg : Config) (items : list Line) (stat : GroupStat) (d : Line)
  : ProxyAudit :=
  {| aPatient := patient d; aDOS := dos d; aAttrs := g d;
     aCharges := charges d; aMetric := metricOf cfg d; aProxy := proxy stat;
     nInGroup := List.length items;
     aMethod := (method stat
                 ++ (if usedDecontaminate stat then " + decontaminated" else EmptyString))%string;
     aNote := (if usingChargesAsAllowed d
               then "This line's Allowed equals Charges — older logic likely used CHARGES as benchmark."
               else if thinGroup items
                    then "Proxy built from ≤2 lines — unstable. Consider widening period or grouping."
                    else EmptyString)%string |}.

(** The rows pushed on [proxyAud] for one group and for all groups. *)
Definition auditsOfGroup (cfg : Config) (pack : list Line * GroupStat) : list ProxyAudit :=
  map (proxyAuditRow cfg (fst pack) (snd pack))
      (filter (audited cfg (fst pack) (snd pack)) (fst pack)).

Definition proxyAud (cfg : Config) (rows : list Raw.Row) : list ProxyAudit :=
  flat_map (fun e => auditsOfGroup cfg (snd e)) (buildGroups cfg (enrichRows rows)).

(** [(a, b) => Math.abs((b.Metric || 0) - (b.Proxy || 0))
             - Math.abs((a.Metric || 0) - (a.Proxy || 0))]; [x || 0] is [x]
    for a number. *)
Definition cmpAudit (a b : ProxyAudit) : Q :=
  Qabs (aMetric b - aProxy b) - Qabs (aMetric a - aProxy a).

Definition sortAudits (pushed : list ProxyAudit) : list ProxyAudit := jsSort cmpAudit pushed.

(** ** Totals

    Sums over the lines and over the groups; in exact arithmetic the order
    of the groups does not change a sum. *)
Record Totals : Type := mkTotals {
  totalInsurancePaid : Q;
  totalActual : Q;
  totalExpected : Q;
  deltaExpectedMinusActual : Q;
  benchmarkLabel : string
}.

Definition expectedOf (e : string * (list Line * GroupStat)) : Q :=
  proxy (snd (snd e)) * inject_Z (Z.of_nat (n (snd (snd e)))).

Definition totalsOf (cfg : Config) (rows : list Raw.Row) : Totals :=
  let enr := enrichRows rows in
  let stats := buildGroups cfg enr in
  {| totalInsurancePaid := d3_sum insurancePaid enr;
     totalActual := d3_sum (metricOf cfg) enr;
     totalExpected := d3_sum expectedOf stats;
     deltaExpectedMinusActual := d3_sum expectedOf stats - d3_sum (metricOf cfg) enr;
     benchmarkLabel := match benchmark cfg with Paid => "Paid" | Allowed => "Allowed" end |}.

(** [totals: null] when there is no record at all. *)
Definition totals (cfg : Config) (rows : list Raw.Row) : option Totals :=
  match rows with
  | [] => None
  | _ => Some (totalsOf cfg rows)
  end.

(* ================================================================== *)
(** * Part II: vocabulary of the specification                         *)
(* ================================================================== *)

(** How often the amount [v] occurs in [l]. *)
Definition occurrences (v : Q) (l : list Q) : nat :=
  List.length (filter (Qeq_bool v) l).

(** "Frequency descending, then value descending": [a] may stand before
    [b]. *)
Definition rankBefore (a b : Q * nat) : Prop :=
  (snd b < snd a)%nat \/ (snd a = snd b /\ fst b <= fst a).

(** "Frequency descending" alone. *)
Definition freqBefore (a b : Q * nat) : Prop := (snd b <= snd a)%nat.

(** The frequency of the entry at position [i] of a table, 0 when there is
    none. *)
Definition freqAt (i : nat) (t : list (Q * nat)) : nat := countOf (nth_error t i).

(** The amounts of [l] in the order in which they are first met, [seen]
    being those met before. *)
Fixpoint firstSeen (seen : list Q) (l : list Q) : list Q :=
  match l with
  | [] => []
  | v :: l' =>
      if existsb (fun k => Qeq_bool k v) seen then firstSeen seen l'
      else v :: firstSeen (seen ++ [v]) l'
  end.

(** No two entries of a table carry the same amount. *)
Fixpoint distinctKeys (t : list (Q * nat)) : Prop :=
  match t with
  | [] => True
  | e :: t' => (forall e', In e' t' -> ~ fst e' == fst e) /\ distinctKeys t'
  end.

(** [t] is the frequency table of [l]: every entry is an amount of [l]
    with the number of its occurrences, every amount of [l] has an entry,
    and no amount has two. *)
Record tableFor (t : list (Q * nat)) (l : list Q) : Prop := mkTableFor {
  tf_sound : forall e, In e t -> In (fst e) l /\ snd e = occurrences (fst e) l;
  tf_complete : forall v, In v l -> exists e, In e t /\ fst e == v;
  tf_distinct : distinctKeys t
}.


(** [b] is the bucketing of [l] by [key]: a bucket holds, in order, the
    lines of [l] with its key and is not empty, every line has its bucket,
    and no key has two. *)
Record bucketsFor (key : Line -> string) (b : list (string * list Line))
       (l : list Line) : Prop := mkBucketsFor {
  bf_items : forall k items, In (k, items) b ->
               items <> [] /\ items = filter (fun d => String.eqb (key d) k) l;
  bf_complete : forall d, In d l -> In (key d) (map fst b);
  bf_nodup : NoDup (map fst b)
}.


(** ** Scenarios *)

Definition lineOf (who : string) (paidAmount patientPaid balance charged adjusted : Q)
  : Raw.Row :=
  {| Raw.Insurance := Some "Aetna"%string; Raw.CPT := Some "99213"%string;
     Raw.POS := Some "11"%string; Raw.Modifiers := None;
     Raw.Days_or_Units := None; Raw.Days_Or_Units := None; Raw.Units := None;
     Raw.Patient_Name := Some who; Raw.Date_of_Service := None;
     Raw.Charges := charged; Raw.Insurance_Payment := paidAmount;
     Raw.Patient_Payment := patientPaid; Raw.Balance := balance;
     Raw.Adjustment := adjusted |}.

(** Two lines of one group that both carry an allowed amount equal to the
    charges. *)
Definition chargesOnlyRows : list Raw.Row :=
  [lineOf "Ann" 80 20 0 100 0; lineOf "Bob" 80 20 0 100 0].

(** Two unpaid lines of one group: under the paid benchmark the proxy is 0. *)
Definition unpaidRows : list Raw.Row :=
  [lineOf "Ann" 0 0 100 100 0; lineOf "Bob" 0 0 100 100 0].

(** Scenario 2 of the specification: a group paid 50 and 80. *)
Definition twoAmountRows : list Raw.Row :=
  [lineOf "Ann" 50 0 0 100 0; lineOf "Bob" 80 0 0 100 0].

Definition paidDefault : Config :=
  {| threshold := 10; decontaminateChargesProxy := true; benchmark := Paid;
     overrides := []; includeUnitsInKey := false |}.

Definition allowedCleaning : Config :=
  {| threshold := 10; decontaminateChargesProxy := true; benchmark := Allowed;
     overrides := []; includeUnitsInKey := false |}.

(** Scenario 4: an override of 45.00 for the key of the rows above. *)
Definition overridden : Config :=
  {| threshold := 10; decontaminateChargesProxy := true; benchmark := Allowed;
     overrides := [("Aetna|99213|11|—"%string, StNum 45)];
     includeUnitsInKey := false |}.

(** ** Amounts one cent apart *)

(** A line with 49.99 allowed on charges of 50.00, and one with 100.01
    allowed on charges of 100.00. *)
Definition centBelow : Line := enrichRow 0 (lineOf "Ann" (4999 # 100) 0 0 50 0).

Definition centAbove : Line := enrichRow 0 (lineOf "Dee" (10001 # 100) 0 0 100 0).

(** Two lines with 49.99 allowed on charges of 50.00 and one with 40.00 on
    80.00. *)
Definition oneCentRows : list Raw.Row :=
  [lineOf "Ann" (4999 # 100) 0 0 50 0; lineOf "Bob" (4999 # 100) 0 0 50 0;
   lineOf "Cy" 40 0 0 80 0].

(** A bound that no amount of a claim line comes near. *)
Definition billion : Q := 1000000000.

(** ** The binary64 numbers of the kernel

    Rocq's primitive floating-point numbers are the binary64 numbers of the
    processor, with its operations.  They serve as a reference for
    [Dbl.fl] and the four operations on samples of amounts. *)

(** The value of a finite number. *)
Definition valueOf (x : PrimFloat.float) : Q :=
  match FloatOps.Prim2SF x with
  | SpecFloat.S754_finite s m e =>
      (if s then - inject_Z (Zpos m) else inject_Z (Zpos m)) * Dbl.pow2 e
  | _ => 0
  end.

(** A whole number below [2^53], and [k / 100] as the processor divides:
    correctly rounded, which is how a decimal is read. *)
Definition ofInt (k : Z) : PrimFloat.float :=
  match k with
  | Zneg p => PrimFloat.opp (PrimFloat.of_uint63 (Uint63.of_Z (Zpos p)))
  | _ => PrimFloat.of_uint63 (Uint63.of_Z k)
  end.

Definition ofCents (k : Z) : PrimFloat.float := PrimFloat.div (ofInt k) (ofInt 100).

Definition agree (q : Q) (x : PrimFloat.float) : bool := Qeq_bool q (valueOf x).

(** [n] amounts in whole cents, from [lo] cents on. *)
Definition centsFrom (lo : Z) (n : nat) : list Z :=
  map (fun i => (lo + Z.of_nat i)%Z) (seq 0 n).

(** ** The edge of the band *)

(** The paid benchmark with a threshold of 7. *)
Definition paidAtSeven : Config :=
  {| threshold := 7; decontaminateChargesProxy := true; benchmark := Paid;
     overrides := []; includeUnitsInKey := false |}.

(** The width, around an edge of the band, within which the rounding of
    the operations decides: [2^-40] of the two amounts. *)
Definition sliver (m p : Q) : Q := (m + p) * Dbl.pow2 (-40).

(** Three lines paid 45.67. *)
Definition thriceRows : list Raw.Row :=
  [lineOf "Ann" (4567 # 100) 0 0 100 0; lineOf "Bob" (4567 # 100) 0 0 100 0;
   lineOf "Cy" (4567 # 100) 0 0 100 0].

(** Three lines paid 40.00 on charges of 80.00 and one paid 49.99 on
    charges of 50.00. *)
Definition auditRows : list Raw.Row :=
  [lineOf "Ann" 40 0 0 80 0; lineOf "Bob" 40 0 0 80 0; lineOf "Cy" 40 0 0 80 0;
   lineOf "Dee" (4999 # 100) 0 0 50 0].

(** ** A credit balance

    Charges of 50 written off in full, nothing paid by the insurer, 50 paid
    by the patient and a balance of -50. *)
Definition creditBalanceRows : list Raw.Row :=
  [lineOf "Ann" 0 50 (- (50)) 50 (- (50))].


(** ** Payer names *)

(** [t] occurs in [s]. *)
Definition occursIn (t s : string) : Prop :=
  exists pre post, s = (pre ++ t ++ post)%string.

(** The name, trimmed and upper-cased, contains one of the enumerated
    spellings. *)
Definition mentionsUHC (nameRaw : option string) : Prop :=
  exists t, In t UHCTokens
            /\ occursIn t (Str.toUpperCase (Str.trim (Str.orElse nameRaw EmptyString))).

(** Every whitespace character of [s] is a blank that no whitespace
    follows. *)
Fixpoint singleBlanks (s : string) : bool :=
  match s with
  | EmptyString => true
  | String c s' =>
      (if Str.isSpace c
       then Ascii.eqb c " "
            && match s' with
               | EmptyString => true
               | String c' _ => negb (Str.isSpace c')
               end
       else true)
      && singleBlanks s'
  end.

(** The characters of [s] that are not whitespace. *)
Fixpoint inked (s : string) : string :=
  match s with
  | EmptyString => EmptyString
  | String c s' => if Str.isSpace c then inked s' else String c (inked s')
  end.


(** Two records that differ in payer and procedure code: the payer name of
    the first holds the separator. *)
Definition barInPayer : Raw.Row :=
  {| Raw.Insurance := Some "Acme|A1"%string; Raw.CPT := Some "99213"%string;
     Raw.POS := Some "11"%string; Raw.Modifiers := Some "25"%string;
     Raw.Days_or_Units := None; Raw.Days_Or_Units := None; Raw.Units := Some "1"%string;
     Raw.Patient_Name := Some "Ann"%string; Raw.Date_of_Service := None;
     Raw.Charges := 100; Raw.Insurance_Payment := 60;
     Raw.Patient_Payment := 0; Raw.Balance := 0; Raw.Adjustment := 0 |}.

Definition barInCode : Raw.Row :=
  {| Raw.Insurance := Some "Acme"%string; Raw.CPT := Some "A1|99213"%string;
     Raw.POS := Some "11"%string; Raw.Modifiers := Some "25"%string;
     Raw.Days_or_Units := None; Raw.Days_Or_Units := None; Raw.Units := Some "1"%string;
     Raw.Patient_Name := Some "Bob"%string; Raw.Date_of_Service := None;
     Raw.Charges := 100; Raw.Insurance_Payment := 90;
     Raw.Patient_Payment := 0; Raw.Balance := 0; Raw.Adjustment := 0 |}.

(** ** Headers *)

(** Every character of [s] satisfies [p]. *)
Fixpoint allChars (p : ascii -> bool) (s : string) : bool :=
  match s with
  | EmptyString => true
  | String c s' => p c && allChars p s'
  end.

(** A character of the ASCII range. *)
Definition isAsciiChar (c : ascii) : bool := (nat_of_ascii c <? 128)%nat.

(** A word character that is not a lower-case letter. *)
Definition isHeaderChar (c : ascii) : bool :=
  isWordChar c && Ascii.eqb (Str.upperChar c) c.

(** ** Modifiers *)

(** The modifier codes read from a cell: the tokens of
    [normalizeModifiers] before duplicates go and the rest is sorted. *)
Definition modifierCodes (m : string) : list string :=
  filter (fun t => negb (String.eqb t EmptyString))
         (map (fun t => Str.toUpperCase (Str.trim t)) (Str.piecesFrom EmptyString m)).

(** No comma and no whitespace in [s]. *)
Definition sepFree (s : string) : bool := allChars (fun c => negb (Str.isSep c)) s.

(** ** Classification *)

(** The labels of a line below and above the band. *)
Definition underLabel (cfg : Config) : string :=
  match benchmark cfg with Paid => "Underpaid" | Allowed => "Underpayment" end.

Definition overLabel (cfg : Config) : string :=
  match benchmark cfg with Paid => "Overpaid" | Allowed => "Overpayment" end.

(** The group of [chargesOnlyRows], as an example record names it. *)
Definition aetnaDescriptor : Descriptor :=
  {| xInsurance := Some " Aetna "%string; xCPT := Some " 99213"%string;
     xPOS := Some "11"%string; xModifiers := None; xUnits := None |}.

(** Scenario 4 through the form: 45 for Aetna, 99213, place 11. *)
Definition aetnaForm : Form.OvrForm :=
  {| Form.payer := "Aetna"; Form.cpt := "99213"; Form.pos := "11";
     Form.mods := EmptyString; Form.units := "1"; Form.amount := Some 45 |}.

(** ** Orders of the reports *)

(** The printed size of a row's deviation. *)
Definition shownDeviation (i : Issue) : Q := Qabs (round1 (DeviationPct i)).

(** [a] may stand before [b] in the issues: a flagged row before a row
    within range, and among rows of one kind the larger printed deviation
    first. *)
Definition issueBefore (a b : Issue) : Prop :=
  (isBad a = true /\ isBad b = false)
  \/ (isBad a = isBad b /\ shownDeviation b <= shownDeviation a).

(** The gap between metric and proxy of an audit row. *)
Definition auditGap (a : ProxyAudit) : Q := Qabs (aMetric a - aProxy a).

(** ** Keys *)

(** No separator ['|'] in [s]. *)
Definition barFree (s : string) : bool :=
  allChars (fun c => negb (Ascii.eqb c "|"%char)) s.

(* ================================================================== *)
(** * Part III: properties                                             *)
(* ================================================================== *)

(** ** Numbers *)

Lemma Qltb_lt (a b : Q) : Qltb a b = true <-> a < b.
Proof.
  unfold Qltb. rewrite negb_true_iff. split; intro H.
  - apply Qnot_le_lt. intro L. apply Qle_bool_iff in L. congruence.
  - destruct (Qle_bool b a) eqn:E; [|reflexivity].
    apply Qle_bool_iff in E. lra.
Qed.

Lemma Qltb_ge (a b : Q) : Qltb a b = false <-> b <= a.
Proof.
  unfold Qltb. rewrite negb_false_iff. apply Qle_bool_iff.
Qed.

Lemma Qeq_bool_false (a b : Q) : Qeq_bool a b = false <-> ~ a == b.
Proof.
  split.
  - apply Qeq_bool_neq.
  - intro H. destruct (Qeq_bool a b) eqn:E; [|reflexivity].
    apply Qeq_bool_iff in E. contradiction.
Qed.

Lemma Qfloor_half (a : Z) (q : Q) : q == inject_Z a + (1 # 2) -> Qfloor q = a.
Proof.
  intro E. rewrite E.
  pose proof (Qfloor_le (inject_Z a + (1 # 2))) as H1.
  pose proof (Qlt_floor (inject_Z a + (1 # 2))) as H2.
  set (f := Qfloor (inject_Z a + (1 # 2))) in *.
  assert (L1 : inject_Z f < inject_Z (a + 1)).
  { rewrite inject_Z_plus. eapply Qle_lt_trans; [exact H1|].
    change (inject_Z 1) with 1. lra. }
  assert (L2 : inject_Z a < inject_Z (f + 1)).
  { eapply Qlt_trans; [|exact H2]. lra. }
  rewrite <- Zlt_Qlt in L1, L2. lia.
Qed.

(** An amount in whole cents is its own rounding. *)
Lemma round2_cents (z : Z) (v : Q) : v == z # 100 -> round2 v == v.
Proof.
  intro E. unfold round2.
  assert (F : Qfloor (Qabs v * 100 + (1 # 2)) = Z.abs z).
  { apply Qfloor_half. rewrite E. unfold Qabs, Qeq. simpl. lia. }
  rewrite F. destruct (Qle_bool 0 v) eqn:S.
  - apply Qle_bool_iff in S. rewrite E in S. rewrite E.
    assert (0 <= z)%Z by (unfold Qle in S; simpl in S; lia).
    now rewrite Z.abs_eq.
  - assert (S' : ~ 0 <= v) by (intro H; apply Qle_bool_iff in H; congruence).
    rewrite E in S'. rewrite E.
    assert (z < 0)%Z by (unfold Qle in S'; simpl in S'; lia).
    rewrite Z.abs_neq by lia. unfold Qeq. simpl. lia.
Qed.

(** Turns the boolean tests of the program in the context into
    propositions. *)
Ltac qprop :=
  repeat match goal with
         | H : Qltb _ _ = true |- _ => apply Qltb_lt in H
         | H : Qltb _ _ = false |- _ => apply Qltb_ge in H
         | H : Qeq_bool _ _ = true |- _ => apply Qeq_bool_iff in H
         | H : Qeq_bool _ _ = false |- _ => apply Qeq_bool_false in H
         | H : Qle_bool _ _ = true |- _ => apply Qle_bool_iff in H
         end.

(** ** Binary64 rounding *)

Lemma pow2_pos e : 0 < Dbl.pow2 e.
Proof. apply Qpower_0_lt. reflexivity. Qed.

Lemma pow2_add a b : Dbl.pow2 (a + b) == Dbl.pow2 a * Dbl.pow2 b.
Proof. apply Qpower_plus. discriminate. Qed.

Lemma pow2_le a b : (a <= b)%Z -> Dbl.pow2 a <= Dbl.pow2 b.
Proof. intro H. apply Qpower_le_compat_l; [exact H | discriminate]. Qed.

Lemma pow2_lt a b : (a < b)%Z -> Dbl.pow2 a < Dbl.pow2 b.
Proof. intro H. apply Qpower_lt_compat_l; [exact H | reflexivity]. Qed.

Lemma pow2_lt_inv a b : Dbl.pow2 a < Dbl.pow2 b -> (a < b)%Z.
Proof. intro H. apply (Qpower_lt_compat_l_inv 2); [exact H | reflexivity]. Qed.

Lemma pow2_Z k : (0 <= k)%Z -> Dbl.pow2 k == inject_Z (2 ^ k).
Proof. intro H. unfold Dbl.pow2. now rewrite Zpower_Qpower. Qed.

Lemma pow2_sub a b : Dbl.pow2 (a - b) * Dbl.pow2 b == Dbl.pow2 a.
Proof. rewrite <- pow2_add. now replace (a - b + b)%Z with a by ring. Qed.

Lemma pow2_0 : Dbl.pow2 0 == 1.
Proof. reflexivity. Qed.

Lemma pow2_succ a : Dbl.pow2 (a + 1) == 2 * Dbl.pow2 a.
Proof. rewrite pow2_add. change (Dbl.pow2 1) with 2. ring. Qed.

(** *** The binade of a number *)

Lemma Qabs_make (q : Q) : Qabs q == inject_Z (Z.abs (Qnum q)) / inject_Z (Zpos (Qden q)).
Proof.
  destruct q as [n d]. simpl. rewrite (Qmake_Qdiv (Z.abs n) d). reflexivity.
Qed.

Lemma log2_bounds (n : Z) :
  (0 < n)%Z -> Dbl.pow2 (Z.log2 n) <= inject_Z n /\ inject_Z n < Dbl.pow2 (Z.log2 n + 1).
Proof.
  intro H. destruct (Z.log2_spec n H) as [L U].
  pose proof (Z.log2_nonneg n) as P.
  rewrite !pow2_Z by lia. rewrite <- Zle_Qle, <- Zlt_Qlt.
  split; [exact L | now rewrite <- Z.add_1_r in U].
Qed.

Lemma ilog2_spec (q : Q) :
  ~ q == 0 -> Dbl.pow2 (Dbl.ilog2 q) <= Qabs q /\ Qabs q < Dbl.pow2 (Dbl.ilog2 q + 1).
Proof.
  intro Hq.
  assert (Hn : (0 < Z.abs (Qnum q))%Z).
  { destruct q as [n d]. unfold Qeq in Hq. simpl in *. lia. }
  assert (Hd : (0 < Zpos (Qden q))%Z) by reflexivity.
  destruct (log2_bounds _ Hn) as [An Bn]. destruct (log2_bounds _ Hd) as [Ad Bd].
  set (a := Z.log2 (Z.abs (Qnum q))) in *. set (b := Z.log2 (Zpos (Qden q))) in *.
  assert (Dpos : 0 < inject_Z (Zpos (Qden q))) by reflexivity.
  assert (Lo : Dbl.pow2 (a - b - 1) <= Qabs q).
  { rewrite Qabs_make. apply Qle_shift_div_l; [exact Dpos|].
    apply Qle_trans with (Dbl.pow2 (a - b - 1) * Dbl.pow2 (b + 1)).
    - apply Qmult_le_l; [apply pow2_pos | now apply Qlt_le_weak].
    - rewrite <- pow2_add. now replace (a - b - 1 + (b + 1))%Z with a by ring. }
  assert (Hi : Qabs q < Dbl.pow2 (a - b + 1)).
  { rewrite Qabs_make. apply Qlt_shift_div_r; [exact Dpos|].
    apply Qlt_le_trans with (Dbl.pow2 (a - b + 1) * Dbl.pow2 b).
    - rewrite <- pow2_add. now replace (a - b + 1 + b)%Z with (a + 1)%Z by ring.
    - apply Qmult_le_l; [apply pow2_pos | exact Ad]. }
  unfold Dbl.ilog2. fold a b.
  destruct (Qle_bool (Dbl.pow2 (a - b)) (Qabs q)) eqn:E.
  - apply Qle_bool_iff in E. split; assumption.
  - split; [exact Lo|].
    replace (a - b - 1 + 1)%Z with (a - b)%Z by ring.
    apply Qnot_le_lt. intro C. apply Qle_bool_iff in C. congruence.
Qed.

Lemma ilog2_unique (q : Q) (e : Z) :
  Dbl.pow2 e <= Qabs q -> Qabs q < Dbl.pow2 (e + 1) -> Dbl.ilog2 q = e.
Proof.
  intros L U.
  assert (Hq : ~ q == 0).
  { intro C. rewrite C in L. pose proof (pow2_pos e). simpl in L. lra. }
  destruct (ilog2_spec q Hq) as [L' U'].
  assert (A : (e < Dbl.ilog2 q + 1)%Z) by (apply pow2_lt_inv; lra).
  assert (B : (Dbl.ilog2 q < e + 1)%Z) by (apply pow2_lt_inv; lra).
  lia.
Qed.

Lemma ilog2_le (x y : Q) :
  ~ x == 0 -> Qabs x <= Qabs y -> (Dbl.ilog2 x <= Dbl.ilog2 y)%Z.
Proof.
  intros Hx H.
  assert (Hy : ~ y == 0).
  { intro C. rewrite C in H. simpl in H.
    destruct (ilog2_spec x Hx) as [L _]. pose proof (pow2_pos (Dbl.ilog2 x)).
    change (Qabs 0) with 0 in H. lra. }
  destruct (ilog2_spec x Hx) as [Lx Ux]. destruct (ilog2_spec y Hy) as [Ly Uy].
  assert (A : (Dbl.ilog2 x < Dbl.ilog2 y + 1)%Z) by (apply pow2_lt_inv; lra).
  lia.
Qed.

(** *** Rounding to the nearest integer, ties to even *)

Lemma rint_cases (x : Q) :
  (Dbl.rint x = Qfloor x /\ (x - inject_Z (Qfloor x) < 1 # 2
                        \/ (x - inject_Z (Qfloor x) == 1 # 2 /\ Z.even (Qfloor x) = true)))
  \/ (Dbl.rint x = (Qfloor x + 1)%Z
      /\ (1 # 2 < x - inject_Z (Qfloor x)
          \/ (x - inject_Z (Qfloor x) == 1 # 2 /\ Z.even (Qfloor x) = false))).
Proof.
  unfold Dbl.rint.
  destruct (Qcompare_spec (x - inject_Z (Qfloor x)) (1 # 2)) as [E|L|G].
  - destruct (Z.even (Qfloor x)) eqn:Ev; [left | right]; auto.
  - left. auto.
  - right. auto.
Qed.

Lemma floor_bounds (x : Q) : inject_Z (Qfloor x) <= x /\ x < inject_Z (Qfloor x) + 1.
Proof.
  split; [apply Qfloor_le|].
  pose proof (Qlt_floor x) as H. now rewrite inject_Z_plus in H.
Qed.

Lemma rint_error (x : Q) : Qabs (inject_Z (Dbl.rint x) - x) <= 1 # 2.
Proof.
  destruct (floor_bounds x) as [L U].
  apply Qabs_Qle_condition.
  destruct (rint_cases x) as [[-> H] | [-> H]]; [|rewrite inject_Z_plus];
    change (inject_Z 1) with 1; destruct H as [H | [H _]]; split; lra.
Qed.

Lemma rint_mono (x y : Q) : x <= y -> (Dbl.rint x <= Dbl.rint y)%Z.
Proof.
  intro H. pose proof (Qfloor_resp_le x y H) as F.
  destruct (floor_bounds x) as [Lx Ux]. destruct (floor_bounds y) as [Ly Uy].
  destruct (Z.eq_dec (Qfloor x) (Qfloor y)) as [E | N].
  - destruct (rint_cases x) as [[-> Hx] | [-> Hx]];
      destruct (rint_cases y) as [[-> Hy] | [-> Hy]]; try lia.
    exfalso. rewrite E in Hx.
    destruct Hx as [Hx | [Hx Ex]]; destruct Hy as [Hy | [Hy Ey]]; try lra.
    congruence.
  - destruct (rint_cases x) as [[-> _] | [-> _]];
      destruct (rint_cases y) as [[-> _] | [-> _]]; lia.
Qed.

Lemma rint_compat (x y : Q) : x == y -> Dbl.rint x = Dbl.rint y.
Proof.
  intro H. apply Z.le_antisymm; apply rint_mono; rewrite H; apply Qle_refl.
Qed.

Lemma rint_Z (z : Z) : Dbl.rint (inject_Z z) = z.
Proof.
  unfold Dbl.rint. rewrite Qfloor_Z.
  destruct (Qcompare_spec (inject_Z z - inject_Z z) (1 # 2)) as [E | L | G];
    [exfalso; lra | reflexivity | exfalso; lra].
Qed.

(** The nearest integer is the only one within a half, the even one at a tie. *)
Lemma rint_unique (x : Q) (z : Z) :
  Qabs (inject_Z z - x) < 1 # 2
  \/ (Qabs (inject_Z z - x) == 1 # 2 /\ Z.even z = true) ->
  Dbl.rint x = z.
Proof.
  intro H. destruct (floor_bounds x) as [L U].
  set (f := Qfloor x) in *.
  assert (Hz : z = f \/ z = (f + 1)%Z).
  { assert (A : Qabs (inject_Z z - x) <= 1 # 2) by (destruct H as [H | [H _]]; lra).
    apply Qabs_Qle_condition in A.
    assert (B : inject_Z (f - 1) < inject_Z z).
    { replace (f - 1)%Z with (f + -1)%Z by ring. rewrite inject_Z_plus.
      change (inject_Z (-1)) with (-1). lra. }
    assert (C : inject_Z z < inject_Z (f + 2)).
    { rewrite inject_Z_plus. change (inject_Z 2) with 2. lra. }
    rewrite <- Zlt_Qlt in B, C. lia. }
  destruct (rint_cases x) as [[-> R] | [-> R]]; fold f in R; destruct Hz as [-> | ->];
    try reflexivity; exfalso.
  - rewrite inject_Z_plus in H. change (inject_Z 1) with 1 in H.
    rewrite Qabs_pos in H by lra.
    destruct H as [H | [H Ev]]; destruct R as [R | [R Ev']]; try lra.
    rewrite Z.even_add in Ev. rewrite Ev' in Ev. discriminate.
  - rewrite Qabs_neg in H by lra.
    destruct H as [H | [H Ev]]; destruct R as [R | [R Ev']]; try lra.
    congruence.
Qed.

Lemma rint_spec (x : Q) :
  Qabs (inject_Z (Dbl.rint x) - x) < 1 # 2
  \/ (Qabs (inject_Z (Dbl.rint x) - x) == 1 # 2 /\ Z.even (Dbl.rint x) = true).
Proof.
  destruct (floor_bounds x) as [L U].
  destruct (rint_cases x) as [[-> R] | [-> R]].
  - rewrite Qabs_neg by lra. destruct R as [R | [R Ev]]; [left; lra | right; split; [lra | exact Ev]].
  - rewrite inject_Z_plus. change (inject_Z 1) with 1.
    rewrite Qabs_pos by lra. destruct R as [R | [R Ev]]; [left; lra | right; split; [lra|]].
    rewrite Z.even_add, Ev. reflexivity.
Qed.

Lemma rint_opp (x : Q) : Dbl.rint (- x) = (- Dbl.rint x)%Z.
Proof.
  apply rint_unique.
  assert (E : inject_Z (- Dbl.rint x) - - x == - (inject_Z (Dbl.rint x) - x)).
  { rewrite inject_Z_opp. ring. }
  rewrite E, Qabs_opp, Z.even_opp. apply rint_spec.
Qed.

(** *** Rounding to binary64 *)

Lemma fl_zero (q : Q) : q == 0 -> Dbl.fl q = 0.
Proof. intro H. unfold Dbl.fl. apply Qeq_bool_iff in H. now rewrite H. Qed.

Lemma fl_value (q : Q) :
  ~ q == 0 -> Dbl.fl q = inject_Z (Dbl.rint (q / Dbl.pow2 (Dbl.exponent q))) * Dbl.pow2 (Dbl.exponent q).
Proof.
  intro H. unfold Dbl.fl. destruct (Qeq_bool q 0) eqn:E; [|reflexivity].
  apply Qeq_bool_iff in E. contradiction.
Qed.

Lemma scaled (q : Q) (e : Z) : q / Dbl.pow2 e * Dbl.pow2 e == q.
Proof. field. pose proof (pow2_pos e). lra. Qed.

Lemma exponent_compat (x y : Q) : ~ x == 0 -> Qabs x == Qabs y -> Dbl.exponent x = Dbl.exponent y.
Proof.
  intros Hx H. unfold Dbl.exponent. f_equal. f_equal.
  destruct (ilog2_spec x Hx) as [L U]. symmetry. apply ilog2_unique; rewrite <- H; assumption.
Qed.

Lemma fl_opp (q : Q) : Dbl.fl (- q) == - Dbl.fl q.
Proof.
  destruct (Qeq_dec q 0) as [Hz | N].
  - rewrite (fl_zero q Hz). rewrite fl_zero; [reflexivity | lra].
  - assert (N' : ~ - q == 0) by lra.
    rewrite (fl_value _ N), (fl_value _ N').
    rewrite (exponent_compat (- q) q N' (Qabs_opp q)).
    assert (E : - q / Dbl.pow2 (Dbl.exponent q) == - (q / Dbl.pow2 (Dbl.exponent q))).
    { field. pose proof (pow2_pos (Dbl.exponent q)). lra. }
    rewrite (rint_compat _ _ E), rint_opp, inject_Z_opp. ring.
Qed.

Lemma fl_nonneg (q : Q) : 0 <= q -> 0 <= Dbl.fl q.
Proof.
  intro H. destruct (Qeq_dec q 0) as [Hz | N].
  - rewrite (fl_zero q Hz). apply Qle_refl.
  - rewrite (fl_value _ N). apply Qmult_le_0_compat; [|apply Qlt_le_weak, pow2_pos].
    change 0 with (inject_Z 0). rewrite <- Zle_Qle.
    rewrite <- (rint_Z 0). apply rint_mono.
    apply Qle_shift_div_l; [apply pow2_pos|]. change (inject_Z 0) with 0. lra.
Qed.

Lemma fl_nonpos (q : Q) : q <= 0 -> Dbl.fl q <= 0.
Proof.
  intro H. assert (A : 0 <= Dbl.fl (- q)) by (apply fl_nonneg; lra).
  rewrite fl_opp in A. lra.
Qed.

(** Half a unit in the last place. *)
Lemma fl_error (q : Q) : Qabs (Dbl.fl q - q) <= (1 # 2) * Dbl.pow2 (Dbl.exponent q).
Proof.
  pose proof (pow2_pos (Dbl.exponent q)) as P.
  destruct (Qeq_dec q 0) as [Hz | N].
  - rewrite (fl_zero q Hz). apply Qabs_Qle_condition. split; lra.
  - rewrite (fl_value _ N).
    set (e := Dbl.exponent q) in *. set (t := q / Dbl.pow2 e).
    assert (E : inject_Z (Dbl.rint t) * Dbl.pow2 e - q == (inject_Z (Dbl.rint t) - t) * Dbl.pow2 e).
    { unfold t. field. lra. }
    rewrite E, Qabs_Qmult, (Qabs_pos (Dbl.pow2 e)) by lra.
    apply Qmult_le_compat_r; [apply rint_error | lra].
Qed.

Lemma exponent_le (q : Q) (k : Z) :
  (-1022 <= k)%Z -> Qabs q <= Dbl.pow2 k -> ~ q == 0 -> (Dbl.exponent q <= k - 52)%Z.
Proof.
  intros Hk H N. unfold Dbl.exponent.
  destruct (ilog2_spec q N) as [L _].
  assert (A : (Dbl.ilog2 q < k + 1)%Z) by (apply pow2_lt_inv; rewrite pow2_succ; pose proof (pow2_pos k); lra).
  lia.
Qed.

(** The error on a number of magnitude at most [2^k]. *)
Lemma fl_error_abs (q : Q) (k : Z) :
  (-1022 <= k)%Z -> Qabs q <= Dbl.pow2 k -> Qabs (Dbl.fl q - q) <= Dbl.pow2 (k - 53).
Proof.
  intros Hk H.
  destruct (Qeq_dec q 0) as [Hz | N].
  - rewrite (fl_zero q Hz). pose proof (pow2_pos (k - 53)).
    apply Qabs_Qle_condition. split; lra.
  - apply Qle_trans with ((1 # 2) * Dbl.pow2 (Dbl.exponent q)); [apply fl_error|].
    apply Qle_trans with ((1 # 2) * Dbl.pow2 (k - 52)).
    + apply Qmult_le_l; [reflexivity|]. apply pow2_le. now apply exponent_le.
    + replace (k - 52)%Z with (k - 53 + 1)%Z by ring. rewrite pow2_succ.
      pose proof (pow2_pos (k - 53)). lra.
Qed.

(** The relative error in the normal range. *)
Lemma fl_error_rel (q : Q) :
  Dbl.pow2 (-1022) <= Qabs q -> Qabs (Dbl.fl q - q) <= Dbl.u * Qabs q.
Proof.
  intro H.
  assert (N : ~ q == 0).
  { intro C. rewrite C in H. change (Qabs 0) with 0 in H. pose proof (pow2_pos (-1022)). lra. }
  destruct (ilog2_spec q N) as [L U].
  assert (A : (-1022 < Dbl.ilog2 q + 1)%Z) by (apply pow2_lt_inv; lra).
  assert (E : Dbl.exponent q = (Dbl.ilog2 q - 52)%Z) by (unfold Dbl.exponent; lia).
  apply Qle_trans with ((1 # 2) * Dbl.pow2 (Dbl.exponent q)); [apply fl_error|].
  rewrite E. replace (Dbl.ilog2 q - 52)%Z with (-52 + Dbl.ilog2 q)%Z by ring.
  rewrite pow2_add. unfold Dbl.u.
  assert (C : Dbl.pow2 (-52) == 2 * Dbl.pow2 (-53)) by reflexivity.
  rewrite C.
  set (c := Dbl.pow2 (-53)). assert (0 < c) by apply pow2_pos.
  assert (c * Dbl.pow2 (Dbl.ilog2 q) <= c * Qabs q) by (apply Qmult_le_l; assumption).
  lra.
Qed.

(** Rounding keeps the order. *)
Lemma fl_binade (q : Q) :
  0 < q ->
  inject_Z (2 ^ 52) * Dbl.pow2 (Dbl.ilog2 q - 52) <= q
  /\ q < inject_Z (2 ^ 53) * Dbl.pow2 (Dbl.ilog2 q - 52).
Proof.
  intro H. assert (N : ~ q == 0) by lra.
  destruct (ilog2_spec q N) as [L U]. rewrite Qabs_pos in L, U by lra.
  rewrite <- !pow2_Z by lia. rewrite <- !pow2_add.
  replace (52 + (Dbl.ilog2 q - 52))%Z with (Dbl.ilog2 q) by ring.
  replace (53 + (Dbl.ilog2 q - 52))%Z with (Dbl.ilog2 q + 1)%Z by ring.
  split; assumption.
Qed.

Lemma fl_mono_pos (x y : Q) : 0 < x -> x <= y -> Dbl.fl x <= Dbl.fl y.
Proof.
  intros Hx H.
  assert (Nx : ~ x == 0) by lra. assert (Ny : ~ y == 0) by lra.
  rewrite (fl_value _ Nx), (fl_value _ Ny).
  assert (Le : (Dbl.ilog2 x <= Dbl.ilog2 y)%Z).
  { apply ilog2_le; [exact Nx|]. rewrite !Qabs_pos by lra. exact H. }
  destruct (Z.eq_dec (Dbl.exponent x) (Dbl.exponent y)) as [E | NE].
  - rewrite E. apply Qmult_le_compat_r; [|apply Qlt_le_weak, pow2_pos].
    rewrite <- Zle_Qle. apply rint_mono.
    apply Qmult_le_r with (z := Dbl.pow2 (Dbl.exponent y)); [apply pow2_pos|].
    rewrite !scaled. exact H.
  - assert (Lt : (Dbl.exponent x < Dbl.exponent y)%Z) by (unfold Dbl.exponent in *; lia).
    assert (Ey : Dbl.exponent y = (Dbl.ilog2 y - 52)%Z) by (unfold Dbl.exponent in *; lia).
    assert (Ex : (Dbl.ilog2 x - 52 <= Dbl.exponent x)%Z) by (unfold Dbl.exponent; lia).
    set (ex := Dbl.exponent x) in *. set (ey := Dbl.exponent y) in *.
    (* the bound between them: 2^(ey+52) *)
    apply Qle_trans with (Dbl.pow2 (ey + 52)).
    + (* Dbl.fl x <= 2^(ey+52) *)
      assert (K : (0 <= ey + 52 - ex)%Z) by lia.
      apply Qle_trans with (inject_Z (2 ^ (ey + 52 - ex)) * Dbl.pow2 ex).
      * apply Qmult_le_compat_r; [|apply Qlt_le_weak, pow2_pos].
        rewrite <- Zle_Qle. rewrite <- (rint_Z (2 ^ (ey + 52 - ex))). apply rint_mono.
        apply Qle_shift_div_r; [apply pow2_pos|].
        rewrite <- pow2_Z by exact K. rewrite <- pow2_add.
        replace (ey + 52 - ex + ex)%Z with (ey + 52)%Z by ring.
        destruct (ilog2_spec x Nx) as [_ U]. rewrite Qabs_pos in U by lra.
        apply Qlt_le_weak. eapply Qlt_le_trans; [exact U|]. apply pow2_le. lia.
      * rewrite <- pow2_Z by exact K. rewrite <- pow2_add.
        replace (ey + 52 - ex + ex)%Z with (ey + 52)%Z by ring. apply Qle_refl.
    + (* 2^(ey+52) <= Dbl.fl y *)
      apply Qle_trans with (inject_Z (2 ^ 52) * Dbl.pow2 ey).
      * rewrite <- pow2_Z by lia. rewrite <- pow2_add.
        replace (52 + ey)%Z with (ey + 52)%Z by ring. apply Qle_refl.
      * apply Qmult_le_compat_r; [|apply Qlt_le_weak, pow2_pos].
        rewrite <- Zle_Qle. rewrite <- (rint_Z (2 ^ 52)) at 1. apply rint_mono.
        apply Qle_shift_div_l; [apply pow2_pos|].
        assert (Py : 0 < y) by lra.
        destruct (fl_binade y Py) as [B _]. rewrite <- Ey in B. exact B.
Qed.

Lemma fl_mono (x y : Q) : x <= y -> Dbl.fl x <= Dbl.fl y.
Proof.
  intro H.
  destruct (Qlt_le_dec 0 x) as [Px | Nx].
  - now apply fl_mono_pos.
  - destruct (Qlt_le_dec y 0) as [Ny | Py].
    + assert (A : Dbl.fl (- y) <= Dbl.fl (- x)) by (apply fl_mono_pos; lra).
      rewrite !fl_opp in A. lra.
    + pose proof (fl_nonpos x Nx). pose proof (fl_nonneg y Py). lra.
Qed.

Lemma fl_compat (x y : Q) : x == y -> Dbl.fl x == Dbl.fl y.
Proof.
  intro H. apply Qle_antisym; apply fl_mono; rewrite H; apply Qle_refl.
Qed.

(** A number with a significand of at most 53 bits is not changed. *)
Lemma fl_exact_pos (m e : Z) :
  (0 < m < 2 ^ 53)%Z -> (-1074 <= e)%Z ->
  Dbl.fl (inject_Z m * Dbl.pow2 e) == inject_Z m * Dbl.pow2 e.
Proof.
  intros Hm He. set (x := inject_Z m * Dbl.pow2 e).
  assert (Pm : 0 < inject_Z m) by (change 0 with (inject_Z 0); rewrite <- Zlt_Qlt; lia).
  assert (Px : 0 < x) by (apply Qmult_lt_0_compat; [exact Pm | apply pow2_pos]).
  assert (N : ~ x == 0) by lra.
  destruct (ilog2_spec x N) as [L _]. rewrite Qabs_pos in L by lra.
  assert (A : (Dbl.ilog2 x < 53 + e)%Z).
  { apply pow2_lt_inv. eapply Qle_lt_trans; [exact L|].
    rewrite pow2_add, (pow2_Z 53) by lia. unfold x.
    apply Qmult_lt_compat_r; [apply pow2_pos|]. rewrite <- Zlt_Qlt. lia. }
  assert (E : (Dbl.exponent x <= e)%Z) by (unfold Dbl.exponent; lia).
  rewrite (fl_value _ N). set (ex := Dbl.exponent x) in *.
  assert (T : x / Dbl.pow2 ex == inject_Z (m * 2 ^ (e - ex))).
  { rewrite inject_Z_mult, <- pow2_Z by lia. unfold x.
    rewrite <- (pow2_sub e ex). field. pose proof (pow2_pos ex). lra. }
  rewrite (rint_compat _ _ T), rint_Z, inject_Z_mult, <- pow2_Z by lia.
  unfold x. rewrite <- (pow2_sub e ex). ring.
Qed.

Lemma fl_exact (m e : Z) :
  (Z.abs m <= 2 ^ 53)%Z -> (-1074 <= e)%Z ->
  Dbl.fl (inject_Z m * Dbl.pow2 e) == inject_Z m * Dbl.pow2 e.
Proof.
  intros Hm He.
  assert (P : forall m, (0 < m <= 2 ^ 53)%Z -> Dbl.fl (inject_Z m * Dbl.pow2 e) == inject_Z m * Dbl.pow2 e).
  { intros k Hk. destruct (Z.eq_dec k (2 ^ 53)) as [-> | Nk].
    - assert (R : inject_Z (2 ^ 53) * Dbl.pow2 e == inject_Z (2 ^ 52) * Dbl.pow2 (e + 1)).
      { rewrite pow2_succ. change (2 ^ 53)%Z with (2 * 2 ^ 52)%Z. rewrite inject_Z_mult.
        change (inject_Z 2) with 2. ring. }
      rewrite (fl_compat _ _ R), R. apply fl_exact_pos; lia.
    - apply fl_exact_pos; lia. }
  destruct (Z.lt_trichotomy m 0) as [Neg | [-> | Pos]].
  - assert (R : inject_Z m * Dbl.pow2 e == - (inject_Z (- m) * Dbl.pow2 e)).
    { rewrite inject_Z_opp. ring. }
    rewrite (fl_compat _ _ R), fl_opp, R. rewrite P by lia. reflexivity.
  - rewrite fl_zero; [|ring]. ring.
  - apply P. lia.
Qed.

Lemma fl_idempotent (q : Q) : Dbl.fl (Dbl.fl q) == Dbl.fl q.
Proof.
  destruct (Qeq_dec q 0) as [Hz | N].
  - rewrite (fl_zero q Hz). reflexivity.
  - rewrite (fl_value _ N). apply fl_exact; [|unfold Dbl.exponent; lia].
    set (e := Dbl.exponent q).
    destruct (ilog2_spec q N) as [_ U].
    assert (Le : (Dbl.ilog2 q + 1 <= e + 53)%Z) by (unfold e, Dbl.exponent; lia).
    assert (B : Qabs (q / Dbl.pow2 e) <= inject_Z (2 ^ 53)).
    { unfold Qdiv. rewrite Qabs_Qmult, Qabs_Qinv, (Qabs_pos (Dbl.pow2 e)) by (apply Qlt_le_weak, pow2_pos).
      apply Qle_shift_div_r; [apply pow2_pos|].
      rewrite <- pow2_Z by lia. rewrite <- pow2_add.
      apply Qlt_le_weak. eapply Qlt_le_trans; [exact U|]. apply pow2_le. lia. }
    apply Qabs_Qle_condition in B. destruct B as [B1 B2].
    apply Z.abs_le. split.
    + rewrite <- (rint_Z (- 2 ^ 53)). apply rint_mono. now rewrite inject_Z_opp.
    + rewrite <- (rint_Z (2 ^ 53)). now apply rint_mono.
Qed.

Lemma u_value : Dbl.u == 1 # 9007199254740992.
Proof. reflexivity. Qed.

(** The error of one rounding, whatever the size of the number. *)
Lemma fl_error_gen (x : Q) :
  Qabs (Dbl.fl x - x) <= Dbl.u * Qabs x + Dbl.u * (1 # 1000000).
Proof.
  pose proof (Qabs_nonneg x) as Px.
  destruct (Qeq_dec x 0) as [Hz | N].
  - rewrite (fl_zero x Hz). rewrite u_value.
    apply Qabs_Qle_condition. split; lra.
  - apply Qle_trans with ((1 # 2) * Dbl.pow2 (Dbl.exponent x)); [apply fl_error|].
    unfold Dbl.exponent.
    destruct (Z.max_spec (Dbl.ilog2 x - 52) (-1074)) as [[H E] | [H E]]; rewrite E.
    + assert (S : (1 # 2) * Dbl.pow2 (-1074) <= Dbl.u * (1 # 1000000)).
      { apply Qle_bool_iff. vm_compute. reflexivity. }
      rewrite u_value in *. lra.
    + destruct (ilog2_spec x N) as [L _].
      replace (Dbl.ilog2 x - 52)%Z with (-52 + Dbl.ilog2 x)%Z by ring.
      rewrite pow2_add.
      assert (C : Dbl.pow2 (-52) == 2 * Dbl.u) by reflexivity.
      rewrite C, u_value in *.
      set (c := Dbl.pow2 (Dbl.ilog2 x)) in *. lra.
Qed.

(** *** Agreement with the processor *)

(** On every amount from -50.00 to 50.00 and from 999,950.00 to
    1,000,050.00, [Dbl.fl] is the number the processor holds. *)
Lemma fl_agrees_on_cents :
  forallb (fun k => agree (Dbl.fl (k # 100)) (ofCents k)) (centsFrom (-5000) 10001) = true
  /\ forallb (fun k => agree (Dbl.fl (k # 100)) (ofCents k)) (centsFrom 99995000 10001) = true.
Proof.
  split; vm_compute; reflexivity.
Qed.

(** On the pairs of an amount from 49.50 to 50.49 and one from 49.01 to
    50.00, the four operations are those of the processor. *)
Lemma operations_agree_on_cents :
  forallb (fun a => forallb (fun b =>
     agree (Dbl.sub (Dbl.fl (a # 100)) (Dbl.fl (b # 100)))
           (PrimFloat.sub (ofCents a) (ofCents b))
     && agree (Dbl.add (Dbl.fl (a # 100)) (Dbl.fl (b # 100)))
              (PrimFloat.add (ofCents a) (ofCents b))
     && agree (Dbl.mul (Dbl.fl (a # 100)) (Dbl.fl (b # 100)))
              (PrimFloat.mul (ofCents a) (ofCents b))
     && agree (Dbl.div (Dbl.fl (a # 100)) (Dbl.fl (b # 100)))
              (PrimFloat.div (ofCents a) (ofCents b)))
     (centsFrom 4901 100)) (centsFrom 4950 100) = true.
Proof.
  vm_compute. reflexivity.
Qed.

#[global] Instance fl_proper : Proper (Qeq ==> Qeq) Dbl.fl.
Proof. intros x y H. now apply fl_compat. Qed.

#[global] Instance add_proper : Proper (Qeq ==> Qeq ==> Qeq) Dbl.add.
Proof. intros x x' Hx y y' Hy. unfold Dbl.add. now rewrite Hx, Hy. Qed.

#[global] Instance sub_proper : Proper (Qeq ==> Qeq ==> Qeq) Dbl.sub.
Proof. intros x x' Hx y y' Hy. unfold Dbl.sub. now rewrite Hx, Hy. Qed.

#[global] Instance mul_proper : Proper (Qeq ==> Qeq ==> Qeq) Dbl.mul.
Proof. intros x x' Hx y y' Hy. unfold Dbl.mul. now rewrite Hx, Hy. Qed.

#[global] Instance div_proper : Proper (Qeq ==> Qeq ==> Qeq) Dbl.div.
Proof. intros x x' Hx y y' Hy. unfold Dbl.div. now rewrite Hx, Hy. Qed.

(** *** Sums and differences of amounts *)

(** On amounts of at most a billion, the rounded difference and the rounded
    sum are within a millionth of the exact ones. *)
Lemma sub_error (x y : Q) :
  Qabs x <= billion -> Qabs y <= billion ->
  Qabs (Dbl.sub (Dbl.fl x) (Dbl.fl y) - (x - y)) <= 1 # 1000000.
Proof.
  unfold billion. intros Hx Hy.
  assert (P30 : Dbl.pow2 30 == 1073741824) by reflexivity.
  assert (P32 : Dbl.pow2 32 == 4294967296) by reflexivity.
  assert (Ex : Qabs (Dbl.fl x - x) <= Dbl.pow2 (30 - 53))
    by (apply fl_error_abs; [lia | rewrite P30; lra]).
  assert (Ey : Qabs (Dbl.fl y - y) <= Dbl.pow2 (30 - 53))
    by (apply fl_error_abs; [lia | rewrite P30; lra]).
  assert (P23 : Dbl.pow2 (30 - 53) == 1 # 8388608) by reflexivity.
  rewrite P23 in Ex, Ey.
  apply Qabs_Qle_condition in Ex, Ey, Hx, Hy.
  unfold Dbl.sub. set (d := Dbl.fl x - Dbl.fl y).
  assert (Ed : Qabs (Dbl.fl d - d) <= Dbl.pow2 (32 - 53)).
  { apply fl_error_abs; [lia|]. rewrite P32. apply Qabs_Qle_condition.
    unfold d. split; lra. }
  assert (P21 : Dbl.pow2 (32 - 53) == 1 # 2097152) by reflexivity.
  rewrite P21 in Ed. apply Qabs_Qle_condition in Ed.
  apply Qabs_Qle_condition. unfold d in *. split; lra.
Qed.

Lemma add_error (x y : Q) :
  Qabs x <= billion -> Qabs y <= billion ->
  Qabs (Dbl.add (Dbl.fl x) (Dbl.fl y) - (x + y)) <= 1 # 1000000.
Proof.
  unfold billion. intros Hx Hy.
  assert (P30 : Dbl.pow2 30 == 1073741824) by reflexivity.
  assert (P32 : Dbl.pow2 32 == 4294967296) by reflexivity.
  assert (Ex : Qabs (Dbl.fl x - x) <= Dbl.pow2 (30 - 53))
    by (apply fl_error_abs; [lia | rewrite P30; lra]).
  assert (Ey : Qabs (Dbl.fl y - y) <= Dbl.pow2 (30 - 53))
    by (apply fl_error_abs; [lia | rewrite P30; lra]).
  assert (P23 : Dbl.pow2 (30 - 53) == 1 # 8388608) by reflexivity.
  rewrite P23 in Ex, Ey.
  apply Qabs_Qle_condition in Ex, Ey, Hx, Hy.
  unfold Dbl.add. set (d := Dbl.fl x + Dbl.fl y).
  assert (Ed : Qabs (Dbl.fl d - d) <= Dbl.pow2 (32 - 53)).
  { apply fl_error_abs; [lia|]. rewrite P32. apply Qabs_Qle_condition.
    unfold d. split; lra. }
  assert (P21 : Dbl.pow2 (32 - 53) == 1 # 2097152) by reflexivity.
  rewrite P21 in Ed. apply Qabs_Qle_condition in Ed.
  apply Qabs_Qle_condition. unfold d in *. split; lra.
Qed.

(** What a test against [0.01] decides: a computed value [s] within a
    millionth of the exact value [e] is below [0.01] when [e] is at most
    0.0099 in size, and not below it when [e] is at least 0.0101. *)
Lemma cent_decides (s e : Q) :
  Qabs (s - e) <= 1 # 1000000 ->
  (Qabs e <= 99 # 10000 -> Qltb (Qabs s) Dbl.cent = true)
  /\ (101 # 10000 <= Qabs e -> Qltb (Qabs s) Dbl.cent = false).
Proof.
  intro E. apply Qabs_Qle_condition in E. unfold Dbl.cent. split; intro H.
  - apply Qltb_lt. apply Qabs_Qlt_condition. apply Qabs_Qle_condition in H. split; lra.
  - apply Qltb_ge. destruct (Qlt_le_dec e 0) as [N | P].
    + rewrite Qabs_neg in H by lra. rewrite Qabs_neg by lra. lra.
    + rewrite Qabs_pos in H by lra. rewrite Qabs_pos by lra. lra.
Qed.

(** [Math.abs(x - y) < 0.01] on two amounts. *)
Lemma cent_test_sub (x y : Q) :
  Qabs x <= billion -> Qabs y <= billion ->
  (Qabs (x - y) <= 99 # 10000 ->
   Qltb (Qabs (Dbl.sub (Dbl.fl x) (Dbl.fl y))) Dbl.cent = true)
  /\ (101 # 10000 <= Qabs (x - y) ->
      Qltb (Qabs (Dbl.sub (Dbl.fl x) (Dbl.fl y))) Dbl.cent = false).
Proof.
  intros Hx Hy. apply cent_decides. now apply sub_error.
Qed.

(** [Math.abs(x + y) < 0.01] on two amounts. *)
Lemma cent_test_add (x y : Q) :
  Qabs x <= billion -> Qabs y <= billion ->
  (Qabs (x + y) <= 99 # 10000 ->
   Qltb (Qabs (Dbl.add (Dbl.fl x) (Dbl.fl y))) Dbl.cent = true)
  /\ (101 # 10000 <= Qabs (x + y) ->
      Qltb (Qabs (Dbl.add (Dbl.fl x) (Dbl.fl y))) Dbl.cent = false).
Proof.
  intros Hx Hy. apply cent_decides. now apply add_error.
Qed.

(** ** Sorting *)

Section JsSortFacts.
Context {A : Type} (cmp : A -> A -> Q).

Let before (a b : A) : Prop := cmp a b <= 0.

Lemma sort_insert_perm (x : A) (l : list A) :
  Permutation (sort_insert cmp x l) (x :: l).
Proof.
  induction l as [|y l IH]; simpl.
  - apply Permutation_refl.
  - destruct (Qltb 0 (cmp x y)).
    + rewrite IH. apply perm_swap.
    + apply Permutation_refl.
Qed.

Lemma jsSort_perm (l : list A) : Permutation (jsSort cmp l) l.
Proof.
  induction l as [|x l IH]; simpl.
  - apply perm_nil.
  - rewrite sort_insert_perm. now apply perm_skip.
Qed.

Lemma jsSort_In (l : list A) (x : A) : In x (jsSort cmp l) <-> In x l.
Proof.
  split; apply Permutation_in;
    [apply jsSort_perm | apply Permutation_sym, jsSort_perm].
Qed.

Hypothesis cmp_trans : forall a b c, before a b -> before b c -> before a c.
Hypothesis cmp_total : forall a b, 0 < cmp a b -> before b a.

Lemma sort_insert_sorted (x : A) (l : list A) :
  StronglySorted before l -> StronglySorted before (sort_insert cmp x l).
Proof.
  induction 1 as [|y l Hs IH Hy]; simpl.
  - constructor; [constructor | constructor].
  - destruct (Qltb 0 (cmp x y)) eqn:E; qprop.
    + constructor; [exact IH|].
      apply Forall_forall. intros z Hz.
      apply (Permutation_in _ (sort_insert_perm x l)) in Hz.
      destruct Hz as [<-|Hz].
      * now apply cmp_total.
      * rewrite Forall_forall in Hy. now apply Hy.
    + constructor; [now constructor|].
      constructor; [exact E|].
      apply Forall_forall. intros z Hz.
      rewrite Forall_forall in Hy.
      apply cmp_trans with y; [exact E | now apply Hy].
Qed.

Lemma jsSort_sorted (l : list A) : StronglySorted before (jsSort cmp l).
Proof.
  induction l as [|x l IH]; simpl.
  - constructor.
  - now apply sort_insert_sorted.
Qed.
End JsSortFacts.

(** The three comparators of the program, read as orders. *)

Lemma countDiff_le (a b : Q * nat) : countDiff a b <= 0 <-> (snd b <= snd a)%nat.
Proof.
  unfold countDiff. rewrite <- (Zle_Qle _ 0). lia.
Qed.

Lemma countDiff_zero (a b : Q * nat) : countDiff a b == 0 <-> snd a = snd b.
Proof.
  unfold countDiff. change 0 with (inject_Z 0). rewrite inject_Z_injective. lia.
Qed.

Lemma cmpFreqThenValue_before (a b : Q * nat) :
  cmpFreqThenValue a b <= 0 <-> rankBefore a b.
Proof.
  unfold cmpFreqThenValue, rankBefore.
  destruct (Qeq_bool (countDiff a b) 0) eqn:E; qprop.
  - rewrite countDiff_zero in E. split.
    + intro H. right. split; [exact E | lra].
    + intros [H | [_ H]]; [lia | lra].
  - rewrite countDiff_zero in E. rewrite countDiff_le. split.
    + intro H. left. lia.
    + intros [H | [H _]]; [lia | contradiction].
Qed.

Lemma cmpFreqThenValue_after (a b : Q * nat) :
  0 < cmpFreqThenValue a b -> rankBefore b a.
Proof.
  intro H.
  assert (N : ~ rankBefore a b) by (rewrite <- cmpFreqThenValue_before; lra).
  unfold rankBefore in *.
  destruct (Nat.lt_trichotomy (snd a) (snd b)) as [L | [L | L]].
  - now left.
  - right. split; [now symmetry|].
    destruct (Qlt_le_dec (fst b) (fst a)) as [L' | L']; [|exact L'].
    exfalso. apply N. right. split; [exact L | lra].
  - exfalso. apply N. now left.
Qed.

Lemma rankBefore_trans (a b c : Q * nat) :
  rankBefore a b -> rankBefore b c -> rankBefore a c.
Proof.
  unfold rankBefore. intros [H1 | [H1 H1']] [H2 | [H2 H2']].
  - left; lia.
  - left; lia.
  - left; lia.
  - right. split; [lia | lra].
Qed.

Lemma StronglySorted_impl {A : Type} (R R' : A -> A -> Prop) (l : list A) :
  (forall a b, R a b -> R' a b) -> StronglySorted R l -> StronglySorted R' l.
Proof.
  intros HR. induction 1 as [|a l Hs IH Ha]; constructor.
  - exact IH.
  - eapply Forall_impl; [|exact Ha]. intros b. apply HR.
Qed.

Lemma ranked_sorted (t : list (Q * nat)) :
  StronglySorted rankBefore (jsSort cmpFreqThenValue t).
Proof.
  apply StronglySorted_impl with (R := fun a b => cmpFreqThenValue a b <= 0).
  - intros a b. apply cmpFreqThenValue_before.
  - apply jsSort_sorted.
    + intros a b c Hab Hbc. apply cmpFreqThenValue_before.
      apply rankBefore_trans with b; now apply cmpFreqThenValue_before.
    + intros a b H. apply cmpFreqThenValue_before. now apply cmpFreqThenValue_after.
Qed.

Lemma byFreq_sorted (t : list (Q * nat)) :
  StronglySorted freqBefore (jsSort cmpFreq t).
Proof.
  apply StronglySorted_impl with (R := fun a b => cmpFreq a b <= 0).
  - intros a b. apply countDiff_le.
  - apply jsSort_sorted; unfold cmpFreq.
    + intros a b c. rewrite !countDiff_le. lia.
    + intros a b H. rewrite countDiff_le.
      assert (N : ~ (snd b <= snd a)%nat) by (rewrite <- countDiff_le; lra).
      lia.
Qed.

(** ** Frequency tables *)

Lemma occurrences_snoc (v x : Q) (l : list Q) :
  occurrences v (l ++ [x]) = (occurrences v l + if Qeq_bool v x then 1 else 0)%nat.
Proof.
  unfold occurrences. rewrite filter_app, length_app. simpl.
  now destruct (Qeq_bool v x).
Qed.

Lemma occurrences_compat (v w : Q) (l : list Q) :
  v == w -> occurrences v l = occurrences w l.
Proof.
  intro E. unfold occurrences. f_equal. apply filter_ext.
  intro x. now rewrite E.
Qed.

Lemma occurrences_pos (v : Q) (l : list Q) : In v l -> (1 <= occurrences v l)%nat.
Proof.
  unfold occurrences. induction l as [|x l IH]; simpl; [contradiction|].
  intros [-> | H].
  - rewrite Qeq_bool_refl. simpl. lia.
  - destruct (Qeq_bool v x); simpl; [lia | now apply IH].
Qed.

Lemma occurrences_none (v : Q) (l : list Q) :
  (forall x, In x l -> ~ x == v) -> occurrences v l = 0%nat.
Proof.
  unfold occurrences. induction l as [|x l IH]; simpl; [reflexivity|].
  intro H. destruct (Qeq_bool v x) eqn:E; qprop.
  - exfalso. apply (H x); [now left | now symmetry].
  - apply IH. intros y Hy. apply H. now right.
Qed.

Lemma freqTable_snoc (l : list Q) (v : Q) :
  freqTable (l ++ [v]) = freq_bump v (freqTable l).
Proof.
  unfold freqTable. now rewrite fold_left_app.
Qed.

Lemma freq_bump_cases (v : Q) (t : list (Q * nat)) (e : Q * nat) :
  distinctKeys t ->
  In e (freq_bump v t) ->
  (In e t /\ ~ fst e == v)
  \/ (exists c, In (fst e, c) t /\ fst e == v /\ snd e = S c)
  \/ (e = (v, 1%nat) /\ forall e', In e' t -> ~ fst e' == v).
Proof.
  induction t as [|[k c] t IH]; simpl; intros D H.
  - destruct H as [<- | []]. right; right. split; [reflexivity | intros _ []].
  - destruct D as [Dk D]. destruct (Qeq_bool k v) eqn:E; qprop.
    + destruct H as [<- | H].
      * right; left. exists c. simpl. auto.
      * left. split; [now right|]. intro F. apply (Dk e H). simpl. now rewrite E.
    + destruct H as [<- | H].
      * left. simpl. auto.
      * destruct (IH D H) as [[H1 H2] | [[c' [H1 H2]] | [H1 H2]]].
        -- left. auto.
        -- right; left. exists c'. auto.
        -- right; right. split; [exact H1|].
           intros e' [<- | He']; [exact E | now apply H2].
Qed.

Lemma freq_bump_keeps (v : Q) (t : list (Q * nat)) (e : Q * nat) :
  In e t -> ~ fst e == v -> In e (freq_bump v t).
Proof.
  induction t as [|[k c] t IH]; simpl; [contradiction|].
  intros H N. destruct (Qeq_bool k v) eqn:E; qprop.
  - destruct H as [<- | H]; [contradiction | now right].
  - destruct H as [<- | H]; [now left | right; now apply IH].
Qed.

Lemma freq_bump_hit (v : Q) (t : list (Q * nat)) :
  exists e, In e (freq_bump v t) /\ fst e == v.
Proof.
  induction t as [|[k c] t IH]; simpl.
  - exists (v, 1%nat). split; [now left | reflexivity].
  - destruct (Qeq_bool k v) eqn:E; qprop.
    + exists (k, S c). split; [now left | exact E].
    + destruct IH as [e [H1 H2]]. exists e. split; [now right | exact H2].
Qed.

Lemma freq_bump_distinct (v : Q) (t : list (Q * nat)) :
  distinctKeys t -> distinctKeys (freq_bump v t).
Proof.
  induction t as [|[k c] t IH]; simpl; intro D.
  - split; [intros _ [] | exact I].
  - destruct D as [Dk D]. destruct (Qeq_bool k v) eqn:E; qprop; simpl.
    + split; assumption.
    + split; [|now apply IH].
      intros e' He'. simpl.
      destruct (freq_bump_cases v t e' D He') as [[H1 _] | [[c' [H1 _]] | [-> _]]].
      * now apply Dk.
      * apply (Dk _ H1).
      * simpl. intro F. apply E. now symmetry.
Qed.

Lemma tableFor_bump (t : list (Q * nat)) (l : list Q) (v : Q) :
  tableFor t l -> tableFor (freq_bump v t) (l ++ [v]).
Proof.
  intros [Hs Hc Hd]. constructor.
  - intros e He. rewrite occurrences_snoc, in_app_iff.
    destruct (freq_bump_cases v t e Hd He) as [[H1 H2] | [[c [H1 [H2 H3]]] | [-> H2]]].
    + destruct (Hs e H1) as [Hin Hn]. split; [now left|].
      apply Qeq_bool_false in H2. rewrite H2. lia.
    + destruct (Hs _ H1) as [Hin Hn]. simpl in Hin, Hn. split; [now left|].
      apply Qeq_bool_iff in H2. rewrite H2. lia.
    + simpl. split; [right; now left|].
      rewrite Qeq_bool_refl, occurrences_none; [reflexivity|].
      intros x Hx F. destruct (Hc x Hx) as [e' [He' Ee']].
      apply (H2 e' He'). now rewrite Ee'.
  - intros x Hx. destruct (Qeq_bool x v) eqn:E; qprop.
    + destruct (freq_bump_hit v t) as [e [H1 H2]].
      exists e. split; [exact H1 | now rewrite E].
    + apply in_app_iff in Hx. destruct Hx as [Hx | [<- | []]].
      * destruct (Hc x Hx) as [e [H1 H2]]. exists e. split; [|exact H2].
        apply freq_bump_keeps; [exact H1 | now rewrite H2].
      * exfalso. now apply E.
  - now apply freq_bump_distinct.
Qed.

Lemma freqTable_ok (l : list Q) : tableFor (freqTable l) l.
Proof.
  induction l as [|v l IH] using rev_ind.
  - constructor; simpl; [intros _ [] | intros _ [] | exact I].
  - rewrite freqTable_snoc. now apply tableFor_bump.
Qed.

Lemma distinctKeys_NoDup (t : list (Q * nat)) : distinctKeys t -> NoDup t.
Proof.
  induction t as [|e t IH]; simpl; intro D; constructor.
  - intro H. now apply (proj1 D e H).
  - now apply IH.
Qed.

Lemma distinctKeys_inj (t : list (Q * nat)) (a b : Q * nat) :
  distinctKeys t -> In a t -> In b t -> fst a == fst b -> a = b.
Proof.
  induction t as [|e t IH]; simpl; [contradiction|].
  intros [De D] [<- | Ha] [<- | Hb] E.
  - reflexivity.
  - exfalso. apply (De b Hb). now symmetry.
  - exfalso. now apply (De a Ha).
  - now apply IH.
Qed.

(** ** The maximum of a list *)

Lemma d3_max_from (l : list Q) (x : Q) :
  exists m,
    fold_left (fun m v => match m with
                          | None => Some v
                          | Some x => if Qltb x v then Some v else m
                          end) l (Some x) = Some m
    /\ (m = x \/ In m l) /\ x <= m /\ forall v, In v l -> v <= m.
Proof.
  revert x. induction l as [|y l IH]; intro x; simpl.
  - exists x. repeat split; [now left | lra | intros _ []].
  - destruct (Qltb x y) eqn:E; qprop.
    + destruct (IH y) as [m [H1 [H2 [H3 H4]]]]. exists m. repeat split.
      * exact H1.
      * right. destruct H2 as [-> | H2]; [now left | now right].
      * lra.
      * intros v [<- | Hv]; [exact H3 | now apply H4].
    + destruct (IH x) as [m [H1 [H2 [H3 H4]]]]. exists m. repeat split.
      * exact H1.
      * destruct H2 as [-> | H2]; [now left | right; now right].
      * exact H3.
      * intros v [<- | Hv]; [lra | now apply H4].
Qed.

Lemma d3_max_spec (l : list Q) :
  l <> [] ->
  exists m, d3_max l = Some m /\ In m l /\ forall v, In v l -> v <= m.
Proof.
  destruct l as [|x l]; [congruence|]. intros _.
  unfold d3_max. simpl.
  destruct (d3_max_from l x) as [m [H1 [H2 [H3 H4]]]].
  exists m. repeat split.
  - exact H1.
  - destruct H2 as [-> | H2]; [now left | now right].
  - intros v [<- | Hv]; [exact H3 | now apply H4].
Qed.

(** ** Proxy selection *)

(** The entry that the ranking puts first is the most frequent amount, the
    largest of the most frequent ones, and it is alone at the top exactly
    when the next entry is strictly less frequent. *)
Lemma ranked_top (l : list Q) :
  l <> [] ->
  exists e0 rest,
    jsSort cmpFreqThenValue (freqTable l) = e0 :: rest
    /\ In (fst e0) l
    /\ snd e0 = occurrences (fst e0) l
    /\ (forall v, In v l ->
          (occurrences v l <= snd e0)%nat
          /\ (occurrences v l = snd e0 -> v <= fst e0))
    /\ ((freqAt 1 (e0 :: rest) < snd e0)%nat <->
        forall v, In v l -> ~ v == fst e0 -> (occurrences v l < snd e0)%nat).
Proof.
  intro Hne.
  pose proof (freqTable_ok l) as [Hs Hc Hd].
  pose proof (jsSort_perm cmpFreqThenValue (freqTable l)) as P.
  pose proof (ranked_sorted (freqTable l)) as S.
  assert (Esound : forall e, In e (jsSort cmpFreqThenValue (freqTable l)) ->
                             In (fst e) l /\ snd e = occurrences (fst e) l).
  { intros e He. apply Hs. now apply (Permutation_in _ P). }
  assert (Ecomplete : forall v, In v l ->
            exists e, In e (jsSort cmpFreqThenValue (freqTable l)) /\ fst e == v).
  { intros v Hv. destruct (Hc v Hv) as [e [H1 H2]]. exists e. split; [|exact H2].
    now apply (Permutation_in _ (Permutation_sym P)). }
  assert (Einj : forall a b, In a (jsSort cmpFreqThenValue (freqTable l)) ->
                             In b (jsSort cmpFreqThenValue (freqTable l)) ->
                             fst a == fst b -> a = b).
  { intros a b Ha Hb. apply (distinctKeys_inj _ a b Hd); now apply (Permutation_in _ P). }
  assert (ND : NoDup (jsSort cmpFreqThenValue (freqTable l))).
  { apply (Permutation_NoDup (Permutation_sym P)). now apply distinctKeys_NoDup. }
  destruct (jsSort cmpFreqThenValue (freqTable l)) as [|e0 rest] eqn:ER.
  { destruct l as [|x l]; [congruence|].
    destruct (Ecomplete x (or_introl eq_refl)) as [e [[] _]]. }
  exists e0, rest. inversion S as [|? ? Srest Htop]; subst.
  rewrite Forall_forall in Htop.
  destruct (Esound e0 (or_introl eq_refl)) as [Hin0 Hn0].
  assert (Hpos : (1 <= snd e0)%nat) by (rewrite Hn0; now apply occurrences_pos).
  split; [reflexivity|]. split; [exact Hin0|]. split; [exact Hn0|].
  split; [intros v H; split | split].
  - destruct (Ecomplete v H) as [e [[<- | He] Ee]].
    + rewrite <- (occurrences_compat _ _ l Ee). lia.
    + destruct (Esound e (or_intror He)) as [_ Hn].
      rewrite <- (occurrences_compat _ _ l Ee), <- Hn.
      destruct (Htop e He) as [L | [L _]]; lia.
  - intro Eq. destruct (Ecomplete v H) as [e [[<- | He] Ee]].
    + rewrite Ee. lra.
    + destruct (Esound e (or_intror He)) as [_ Hn].
      rewrite <- (occurrences_compat _ _ l Ee), <- Hn in Eq.
      destruct (Htop e He) as [L | [_ L]]; [lia | now rewrite <- Ee].
  - intros Hlt v Hv Nv.
    destruct (Ecomplete v Hv) as [e [[<- | He] Ee]].
    + exfalso. apply Nv. now symmetry.
    + destruct (Esound e (or_intror He)) as [_ Hn].
      rewrite <- (occurrences_compat _ _ l Ee), <- Hn.
      destruct rest as [|e1 rest']; [destruct He|].
      unfold freqAt in Hlt. simpl in Hlt.
      destruct He as [<- | He]; [exact Hlt|].
      inversion Srest as [|? ? _ H1]; subst.
      rewrite Forall_forall in H1.
      destruct (H1 e He) as [L | [L _]]; lia.
  - intro Hall. unfold freqAt. destruct rest as [|e1 rest']; simpl; [lia|].
    destruct (Esound e1 (or_intror (or_introl eq_refl))) as [Hin1 Hn1].
    rewrite Hn1. apply Hall; [exact Hin1|].
    intro F. inversion ND as [|? ? Hnotin _]; subst.
    apply Hnotin. left. symmetry. apply Einj; simpl; auto. now symmetry.
Qed.



(** ** Buckets *)

Lemma bucketPush_keys (k : string) (d : Line) (b : list (string * list Line)) :
  map fst (bucketPush k d b)
  = if existsb (fun k' => String.eqb k' k) (map fst b)
    then map fst b else map fst b ++ [k].
Proof.
  induction b as [|[k' ds] b IH]; simpl; [reflexivity|].
  destruct (String.eqb k' k); simpl; [reflexivity|].
  rewrite IH. now destruct (existsb _ _).
Qed.

Lemma existsb_eqb_In (k : string) (ks : list string) :
  existsb (fun k' => String.eqb k' k) ks = true <-> In k ks.
Proof.
  rewrite existsb_exists. split.
  - intros [k' [H E]]. apply String.eqb_eq in E. now subst.
  - intro H. exists k. split; [exact H | apply String.eqb_refl].
Qed.

Lemma bucketPush_nodup (k : string) (d : Line) (b : list (string * list Line)) :
  NoDup (map fst b) -> NoDup (map fst (bucketPush k d b)).
Proof.
  intro N. rewrite bucketPush_keys.
  destruct (existsb _ _) eqn:E; [exact N|].
  apply NoDup_app; [exact N | repeat constructor; intros [] |].
  intros x Hx [<- | []].
  apply existsb_eqb_In in Hx. congruence.
Qed.

Lemma bucketPush_cases (k : string) (d : Line) (b : list (string * list Line))
      (k' : string) (items : list Line) :
  NoDup (map fst b) ->
  In (k', items) (bucketPush k d b) ->
  (In (k', items) b /\ k' <> k)
  \/ (exists old, In (k, old) b /\ k' = k /\ items = old ++ [d])
  \/ (k' = k /\ items = [d] /\ ~ In k (map fst b)).
Proof.
  induction b as [|[k0 ds] b IH]; simpl; intros N H.
  - destruct H as [H | []]. inversion H; subst. right; right. auto.
  - inversion N as [|? ? Hk0 N']; subst.
    destruct (String.eqb k0 k) eqn:E.
    + apply String.eqb_eq in E. subst k0. destruct H as [H | H].
      * inversion H; subst. right; left. exists ds. auto.
      * left. split; [now right|]. intros ->. apply Hk0.
        change k with (fst (k, items)). now apply in_map.
    + apply String.eqb_neq in E. destruct H as [H | H].
      * inversion H; subst. left. auto.
      * destruct (IH N' H) as [[H1 H2] | [[old [H1 [H2 H3]]] | [H1 [H2 H3]]]].
        -- left. auto.
        -- right; left. exists old. auto.
        -- right; right. repeat split; try assumption.
           intros [F | F]; [congruence | contradiction].
Qed.

Lemma bucketPush_keeps (k : string) (d : Line) (b : list (string * list Line))
      (k' : string) (items : list Line) :
  In (k', items) b -> k' <> k -> In (k', items) (bucketPush k d b).
Proof.
  induction b as [|[k0 ds] b IH]; simpl; [contradiction|].
  intros H N. destruct (String.eqb k0 k) eqn:E.
  - apply String.eqb_eq in E. subst k0. destruct H as [H | H].
    + inversion H; subst. contradiction.
    + now right.
  - destruct H as [H | H]; [now left | right; now apply IH].
Qed.

Lemma filter_key_snoc (key : Line -> string) (k : string) (l : list Line) (d : Line) :
  filter (fun x => String.eqb (key x) k) (l ++ [d])
  = filter (fun x => String.eqb (key x) k) l
    ++ (if String.eqb (key d) k then [d] else []).
Proof.
  rewrite filter_app. simpl. now destruct (String.eqb (key d) k).
Qed.

Lemma filter_key_none (key : Line -> string) (k : string) (l : list Line) :
  (forall x, In x l -> key x <> k) ->
  filter (fun x => String.eqb (key x) k) l = [].
Proof.
  induction l as [|x l IH]; simpl; intro H; [reflexivity|].
  destruct (String.eqb (key x) k) eqn:E.
  - apply String.eqb_eq in E. exfalso. apply (H x); auto.
  - apply IH. intros y Hy. apply H. now right.
Qed.

Lemma bucketsFor_push (key : Line -> string) (b : list (string * list Line))
      (l : list Line) (d : Line) :
  bucketsFor key b l -> bucketsFor key (bucketPush (key d) d b) (l ++ [d]).
Proof.
  intros [Hi Hc Hn]. constructor.
  - intros k items H. rewrite filter_key_snoc.
    destruct (bucketPush_cases _ _ _ _ _ Hn H)
      as [[H1 H2] | [[old [H1 [-> ->]]] | [-> [-> H2]]]].
    + destruct (Hi _ _ H1) as [Hne ->]. split; [exact Hne|].
      assert (E : String.eqb (key d) k = false) by (apply String.eqb_neq; congruence).
      rewrite E. now rewrite app_nil_r.
    + destruct (Hi _ _ H1) as [_ ->]. rewrite String.eqb_refl.
      split; [|reflexivity]. now destruct (filter _ l).
    + rewrite String.eqb_refl. split; [discriminate|].
      assert (E : filter (fun x => String.eqb (key x) (key d)) l = []).
      { apply filter_key_none. intros x Hx F. apply H2. rewrite <- F. now apply Hc. }
      now rewrite E.
  - intros x Hx. rewrite bucketPush_keys.
    apply in_app_iff in Hx.
    destruct (existsb _ _) eqn:E.
    + destruct Hx as [Hx | [<- | []]]; [now apply Hc | now apply existsb_eqb_In].
    + apply in_app_iff. destruct Hx as [Hx | [<- | []]]; [left; now apply Hc | right; now left].
  - now apply bucketPush_nodup.
Qed.

Lemma groupBy_snoc (key : Line -> string) (l : list Line) (d : Line) :
  groupBy key (l ++ [d]) = bucketPush (key d) d (groupBy key l).
Proof.
  unfold groupBy. now rewrite fold_left_app.
Qed.

Lemma groupBy_ok (key : Line -> string) (l : list Line) :
  bucketsFor key (groupBy key l) l.
Proof.
  induction l as [|d l IH] using rev_ind.
  - constructor; simpl; [intros _ _ [] | intros _ [] | constructor].
  - rewrite groupBy_snoc. now apply bucketsFor_push.
Qed.

(** Every line lies in the bucket of its key. *)
Lemma groupBy_covers (key : Line -> string) (l : list Line) (d : Line) :
  In d l -> exists items, In (key d, items) (groupBy key l) /\ In d items.
Proof.
  intro H. destruct (groupBy_ok key l) as [Hi Hc _].
  pose proof (Hc d H) as Hk. apply in_map_iff in Hk.
  destruct Hk as [[k items] [E Hin]]. simpl in E. subst k.
  exists items. split; [exact Hin|].
  destruct (Hi _ _ Hin) as [_ ->]. apply filter_In.
  split; [exact H | apply String.eqb_refl].
Qed.

(** The groups of [buildGroups] are these buckets with their statistics. *)
Lemma buildGroups_In (cfg : Config) (enriched : list Line)
      (e : string * (list Line * GroupStat)) :
  In e (buildGroups cfg enriched) <->
  In (fst e, fst (snd e)) (groupBy (fun d => keyFor cfg (g d)) enriched)
  /\ snd (snd e) = groupStat cfg (fst e) (fst (snd e)).
Proof.
  unfold buildGroups. rewrite in_map_iff. split.
  - intros [[k items] [<- H]]. simpl. auto.
  - destruct e as [k [items stat]]. simpl. intros [H ->].
    exists (k, items). auto.
Qed.

Lemma buildGroups_items (cfg : Config) (enriched : list Line)
      (e : string * (list Line * GroupStat)) :
  In e (buildGroups cfg enriched) ->
  fst (snd e) <> []
  /\ fst (snd e) = filter (fun d => String.eqb (keyFor cfg (g d)) (fst e)) enriched.
Proof.
  intro H. apply buildGroups_In in H. destruct H as [H _].
  now apply (bf_items _ _ _ (groupBy_ok _ enriched)).
Qed.

(** ** Decontamination *)

Lemma dropFlagged_filter (p : Line -> bool) (items : list Line) :
  dropFlagged items (map p items) = filter (fun d => negb (p d)) items.
Proof.
  unfold dropFlagged. induction items as [|d items IH]; simpl; [reflexivity|].
  destruct (p d); simpl; [exact IH | now rewrite IH].
Qed.

Lemma hasFlag_length (p : Line -> bool) (items : list Line) :
  existsb (fun f => f) (map p items) = negb (List.length (filter p items) =? 0)%nat.
Proof.
  induction items as [|d items IH]; simpl; [reflexivity|].
  destruct (p d); simpl; [reflexivity | exact IH].
Qed.

Lemma hasUnflagged_length (p : Line -> bool) (items : list Line) :
  existsb negb (map p items)
  = negb (List.length (filter (fun d => negb (p d)) items) =? 0)%nat.
Proof.
  induction items as [|d items IH]; simpl; [reflexivity|].
  destruct (p d); simpl; [exact IH | reflexivity].
Qed.

Lemma metricAll_allowed (cfg : Config) (items : list Line) :
  benchmark cfg = Allowed -> metricAll cfg items = map allowed items.
Proof.
  intro E. unfold metricAll. apply map_ext. intro d. unfold metricOf. now rewrite E.
Qed.

Lemma metricAll_paid (cfg : Config) (items : list Line) :
  benchmark cfg = Paid -> metricAll cfg items = map insurancePaid items.
Proof.
  intro E. unfold metricAll. apply map_ext. intro d. unfold metricOf. now rewrite E.
Qed.

(** The candidate list is the narrowed one exactly in the mixed case. *)
Lemma metricForProxy_cases (cfg : Config) (items : list Line) :
  metricForProxy cfg items
  = match benchmark cfg with
    | Paid => map insurancePaid items
    | Allowed =>
        if decontaminateChargesProxy cfg
           && negb (List.length (filter equalsCharges items) =? 0)%nat
           && negb (List.length (filter (fun d => negb (equalsCharges d)) items) =? 0)%nat
        then map allowed (filter (fun d => negb (equalsCharges d)) items)
        else map allowed items
    end.
Proof.
  unfold metricForProxy. destruct (benchmark cfg) eqn:B.
  - now apply metricAll_paid.
  - rewrite (metricAll_allowed cfg items B), dropFlagged_filter.
    rewrite hasFlag_length, hasUnflagged_length.
    destruct (decontaminateChargesProxy cfg); simpl.
    + destruct (filter equalsCharges items) as [|a same]; simpl.
      * now destruct items.
      * destruct (filter (fun d => negb (equalsCharges d)) items) as [|b other]; simpl.
        -- now destruct items.
        -- reflexivity.
    + now destruct items.
Qed.

Lemma metricForProxy_nonempty (cfg : Config) (items : list Line) :
  items <> [] -> metricForProxy cfg items <> [].
Proof.
  intro H. rewrite metricForProxy_cases.
  destruct (benchmark cfg).
  - destruct items; [congruence | discriminate].
  - destruct (decontaminateChargesProxy cfg); simpl.
    + destruct (filter equalsCharges items); simpl.
      * destruct items; [congruence | discriminate].
      * destruct (filter (fun d => negb (equalsCharges d)) items); simpl.
        -- destruct items; [congruence | discriminate].
        -- discriminate.
    + destruct items; [congruence | discriminate].
Qed.

(** The proxy computed before the override step is one of the candidates. *)
Lemma selectProxy_In (cand : list Q) :
  cand <> [] -> In (fst (selectProxy cand)) (map round2 cand).
Proof.
  intro Hne.
  assert (Hr : map round2 cand <> []) by (destruct cand; [congruence | discriminate]).
  unfold selectProxy. destruct (List.length cand <=? 2)%nat.
  - destruct (d3_max_spec _ Hr) as [m [-> [Hin _]]]. exact Hin.
  - destruct (ranked_top _ Hr) as [e0 [rest [-> [Hin _]]]]. exact Hin.
Qed.

(** Claim C4.  Decontamination applies only when the allowed amount is the
    benchmark.  When it is enabled and the group has both lines whose
    allowed amount is within 0.01 of the charges and lines where it is not,
    the candidate list is the allowed amounts of the latter only; in every
    other case, among them the one where narrowing would leave nothing, it
    is the full metric list.  The candidate list of a non-empty group is
    never empty, so every group that [buildGroups] forms has a proxy drawn
    from its candidates.

    "Within 0.01" is the test [Math.abs(allowed - charges) < 0.01] as the
    program computes it, in binary64.  On amounts up to a billion it holds
    when the two decimals are at most 0.0099 apart and fails when they are
    0.0101 or more apart; of two whole-cent amounts exactly one cent apart
    it holds for some pairs (49.99 and 50.00) and not for others (100.01
    and 100.00).  So two lines at 49.99 on charges of 50.00 are set aside,
    and with a third line at 40.00 on 80.00 the candidates are [40] alone. *)
Theorem decontamination (cfg : Config) (items : list Line) :
  let near := fun d : Line =>
    Qltb (Qabs (Dbl.sub (Dbl.fl (allowed d)) (Dbl.fl (charges d)))) Dbl.cent in
  let same := filter near items in
  let other := filter (fun d => negb (near d)) items in
  (benchmark cfg = Paid -> metricForProxy cfg items = metricAll cfg items)
  /\ (benchmark cfg = Allowed -> decontaminateChargesProxy cfg = true ->
      same <> [] -> other <> [] ->
      metricForProxy cfg items = map allowed other)
  /\ (decontaminateChargesProxy cfg = false \/ same = [] \/ other = [] ->
      metricForProxy cfg items = metricAll cfg items)
  /\ (items <> [] -> metricForProxy cfg items <> [])
  /\ (forall rows e,
        In e (buildGroups cfg (enrichRows rows)) ->
        metricForProxy cfg (fst (snd e)) <> []
        /\ In (fst (selectProxy (metricForProxy cfg (fst (snd e)))))
              (map round2 (metricForProxy cfg (fst (snd e)))))
  /\ (forall d,
        Qabs (allowed d) <= billion -> Qabs (charges d) <= billion ->
        (Qabs (allowed d - charges d) <= 99 # 10000 -> near d = true)
        /\ (101 # 10000 <= Qabs (allowed d - charges d) -> near d = false))
  /\ (Qabs (allowed centBelow - charges centBelow) == 1 # 100
      /\ near centBelow = true
      /\ Qabs (allowed centAbove - charges centAbove) == 1 # 100
      /\ near centAbove = false)
  /\ map Qred (metricForProxy allowedCleaning (enrichRows oneCentRows)) = [40].
Proof.
  intros near same other.
  change near with equalsCharges in same, other. subst same other.
  rewrite metricForProxy_cases.
  set (same := filter equalsCharges items).
  set (other := filter (fun d => negb (equalsCharges d)) items).
  split; [|split; [|split; [|split; [|split; [|split; [|split]]]]]].
  - intro B. rewrite B. symmetry. now apply metricAll_paid.
  - intros B D Hs Ho. rewrite B, D.
    destruct same; [congruence|]. destruct other; [congruence|]. reflexivity.
  - intros H. destruct (benchmark cfg) eqn:B.
    + symmetry. now apply metricAll_paid.
    + rewrite (metricAll_allowed cfg items B).
      destruct H as [-> | [-> | ->]]; simpl; try reflexivity.
      * now rewrite andb_false_r.
      * now rewrite andb_false_r.
  - intro H. rewrite <- metricForProxy_cases. now apply metricForProxy_nonempty.
  - intros rows e He.
    destruct (buildGroups_items _ _ _ He) as [Hne _].
    pose proof (metricForProxy_nonempty cfg _ Hne) as Hc.
    split; [exact Hc | now apply selectProxy_In].
  - intros d Ha Hc. now apply cent_test_sub.
  - split; [reflexivity|]. split; [vm_compute; reflexivity|].
    split; [reflexivity | vm_compute; reflexivity].
  - vm_compute. reflexivity.
Qed.

(** ** The decontamination flag *)

(** Claim C9.  The field [usedDecontaminate] of a group's statistics is
    true exactly when the benchmark is the allowed amount, decontamination
    is enabled and some line of the group has its allowed amount within
    0.01 of its charges: the test [Math.abs(allowed - charges) < 0.01] of
    the program, in binary64, which on amounts up to a billion holds for
    decimals at most 0.0099 apart and fails for decimals 0.0101 or more
    apart (a line at 49.99 on charges of 50.00 passes it).  The flag can
    therefore be true for a group whose candidate list was not narrowed: in
    the group of [chargesOnlyRows] every line has allowed equal to charges,
    the flag is set and the candidate list is the whole metric list. *)
Theorem usedDecontaminate_meaning :
  let near := fun d : Line =>
    Qabs (Dbl.sub (Dbl.fl (allowed d)) (Dbl.fl (charges d))) < Dbl.cent in
  (forall cfg key items,
      usedDecontaminate (groupStat cfg key items) = true
      <-> (benchmark cfg = Allowed
           /\ decontaminateChargesProxy cfg = true
           /\ exists d, In d items /\ near d))
  /\ (forall d,
        Qabs (allowed d) <= billion -> Qabs (charges d) <= billion ->
        (Qabs (allowed d - charges d) <= 99 # 10000 -> near d)
        /\ (101 # 10000 <= Qabs (allowed d - charges d) -> ~ near d))
  /\ (near centBelow
      /\ usedDecontaminate (groupStat allowedCleaning "k" [centBelow]) = true)
  /\ (exists key items stat,
         buildGroups allowedCleaning (enrichRows chargesOnlyRows) = [(key, (items, stat))]
         /\ usedDecontaminate stat = true
         /\ (forall d, In d items -> allowed d == charges d)
         /\ metricForProxy allowedCleaning items = metricAll allowedCleaning items).
Proof.
  intro near.
  assert (Hnear : forall d, equalsCharges d = true <-> near d)
    by (intro d; apply Qltb_lt).
  split; [|split; [|split]].
  - intros cfg key items. cbn [groupStat usedDecontaminate].
    assert (Hex : (0 <? List.length (filter equalsCharges items))%nat = true
                  <-> exists d, In d items /\ near d).
    { rewrite Nat.ltb_lt. split.
      - destruct (filter equalsCharges items) as [|d rest] eqn:E; simpl; [lia|].
        intros _. assert (Hd : In d (filter equalsCharges items)) by (rewrite E; now left).
        apply filter_In in Hd. destruct Hd as [Hin Heq].
        exists d. split; [exact Hin | now apply Hnear].
      - intros [d [Hin Hlt]].
        assert (Hd : In d (filter equalsCharges items)).
        { apply filter_In. split; [exact Hin | now apply Hnear]. }
        destruct (filter equalsCharges items); [destruct Hd | simpl; lia]. }
    destruct (benchmark cfg).
    + split; [discriminate | intros [F _]; discriminate F].
    + rewrite andb_true_iff, Hex. tauto.
  - intros d Ha Hc. destruct (cent_test_sub _ _ Ha Hc) as [T F]. split; intro H.
    + apply Hnear. now apply T.
    + intro N. apply Hnear in N. unfold equalsCharges in N.
      rewrite (F H) in N. discriminate.
  - split; [apply Hnear; vm_compute; reflexivity | vm_compute; reflexivity].
  - remember (buildGroups allowedCleaning (enrichRows chargesOnlyRows)) as G eqn:E.
    vm_compute in E. subst G.
    eexists _, _, _. split; [reflexivity|].
    split; [reflexivity|]. split; [|vm_compute; reflexivity].
    intros d [<- | [<- | []]]; reflexivity.
Qed.

(** ** Overrides *)

Lemma groupStat_override (cfg : Config) (key : string) (items : list Line) (v : Q) :
  lookupOverride key (overrides cfg) = Some (StNum v) ->
  proxy (groupStat cfg key items) = round2 v
  /\ method (groupStat cfg key items) = "override"%string.
Proof.
  intro H. simpl. unfold applyOverride. rewrite H. simpl. auto.
Qed.

Lemma outIssues_In (cfg : Config) (rows : list Raw.Row) (i : Issue) :
  In i (outIssues cfg rows) <->
  exists e d, In e (buildGroups cfg (enrichRows rows))
              /\ In d (fst (snd e))
              /\ i = classify cfg (snd (snd e)) d.
Proof.
  unfold outIssues, issuesOfGroup. rewrite in_flat_map. split.
  - intros [e [He Hi]]. apply in_map_iff in Hi. destruct Hi as [d [<- Hd]].
    exists e, d. auto.
  - intros [e [d [He [Hd ->]]]]. exists e. split; [exact He|].
    apply in_map_iff. exists d. auto.
Qed.

(** The group of a line. *)
Lemma group_of_line (cfg : Config) (enriched : list Line) (d : Line) :
  In d enriched ->
  exists e, In e (buildGroups cfg enriched)
            /\ fst e = keyFor cfg (g d) /\ In d (fst (snd e)).
Proof.
  intro H.
  destruct (groupBy_covers (fun d => keyFor cfg (g d)) enriched d H) as [items [Hi Hd]].
  exists (keyFor cfg (g d), (items, groupStat cfg (keyFor cfg (g d)) items)).
  split; [|split; [reflexivity | exact Hd]].
  apply buildGroups_In. simpl. auto.
Qed.

(** Claim C2.  When the override map holds a number [v] under the key [K]
    of the active variant, the group with key [K] has proxy [v] rounded to
    cents and method "override", whatever its size and its amounts; every
    line whose key is [K] lies in that group, and the row it contributes to
    the issues reports that proxy and that method.  For an override in
    whole cents, as the form stores them, the rounding changes nothing. *)
Theorem override_precedence (cfg : Config) (rows : list Raw.Row) (K : string) (v : Q) :
  lookupOverride K (overrides cfg) = Some (StNum v) ->
  (forall e, In e (buildGroups cfg (enrichRows rows)) -> fst e = K ->
             proxy (snd (snd e)) = round2 v
             /\ method (snd (snd e)) = "override"%string)
  /\ (forall z, v == z # 100 -> round2 v == v)
  /\ (forall d, In d (enrichRows rows) -> keyFor cfg (g d) = K ->
        exists e,
          In e (buildGroups cfg (enrichRows rows))
          /\ fst e = K
          /\ In d (fst (snd e))
          /\ In (classify cfg (snd (snd e)) d) (outIssues cfg rows)
          /\ iProxy (classify cfg (snd (snd e)) d) = round2 v
          /\ method (iProxyHover (classify cfg (snd (snd e)) d)) = "override"%string).
Proof.
  intro Hov.
  assert (Hgroup : forall e, In e (buildGroups cfg (enrichRows rows)) -> fst e = K ->
                             proxy (snd (snd e)) = round2 v
                             /\ method (snd (snd e)) = "override"%string).
  { intros e He HK. apply buildGroups_In in He. destruct He as [_ ->].
    apply groupStat_override. now rewrite HK. }
  split; [exact Hgroup|].
  split; [intros z; apply round2_cents|].
  intros d Hd HK.
  destruct (group_of_line cfg _ d Hd) as [e [He [Hk Hin]]].
  rewrite HK in Hk. exists e.
  destruct (Hgroup e He Hk) as [Hp Hm].
  repeat split; try assumption.
  apply outIssues_In. exists e, d. auto.
Qed.

(** Scenario 4: with 45.00 stored for its key, the group of
    [chargesOnlyRows] reports proxy 45.00 and method "override". *)
Lemma override_precedence_witness :
  lookupOverride "Aetna|99213|11|—" (overrides overridden) = Some (StNum 45)
  /\ forall e, In e (buildGroups overridden (enrichRows chargesOnlyRows)) ->
               fst e = "Aetna|99213|11|—"%string ->
               proxy (snd (snd e)) = round2 45
               /\ method (snd (snd e)) = "override"%string.
Proof.
  split; [reflexivity|].
  apply (override_precedence overridden chargesOnlyRows "Aetna|99213|11|—" 45).
  reflexivity.
Defined.

(** ** Deviation classifier *)

Lemma percentDelta_zero_ref (v ref : Q) : ref == 0 -> percentDelta v ref = 0.
Proof.
  intro H. unfold percentDelta. cbv zeta. rewrite (fl_zero ref H). reflexivity.
Qed.

Lemma classify_zero_proxy (cfg : Config) (stat : GroupStat) (d : Line) :
  0 <= threshold cfg -> proxy stat == 0 ->
  DeviationPct (classify cfg stat d) = 0
  /\ Status (classify cfg stat d) = withinRange.
Proof.
  intros Ht Hp. unfold classify. simpl.
  rewrite (percentDelta_zero_ref _ _ Hp).
  assert (E : Qltb (threshold cfg) (Qabs 0) = false).
  { apply Qltb_ge. exact Ht. }
  rewrite E. auto.
Qed.

(** Claim C3.  [percentDelta] is exactly 0 when the reference is 0.  So,
    for a threshold in the range of the control (1 to 30; any non-negative
    one will do), every line of a group whose proxy is 0 gets deviation 0
    and status "Within expected range". *)
Theorem zero_proxy_guard (cfg : Config) (rows : list Raw.Row) :
  0 <= threshold cfg ->
  (forall v, percentDelta v 0 = 0)
  /\ (forall e i,
        In e (buildGroups cfg (enrichRows rows)) ->
        proxy (snd (snd e)) == 0 ->
        In i (issuesOfGroup cfg (snd e)) ->
        DeviationPct i = 0 /\ Status i = "Within expected range"%string).
Proof.
  intro Ht. split; [reflexivity|].
  intros e i _ Hp Hi. unfold issuesOfGroup in Hi.
  apply in_map_iff in Hi. destruct Hi as [d [<- _]].
  now apply classify_zero_proxy.
Qed.

(** The default threshold of 10 on the unpaid lines, whose proxy is 0. *)
Lemma zero_proxy_guard_witness :
  0 <= threshold paidDefault
  /\ (forall e i,
        In e (buildGroups paidDefault (enrichRows unpaidRows)) ->
        proxy (snd (snd e)) == 0 ->
        In i (issuesOfGroup paidDefault (snd e)) ->
        DeviationPct i = 0 /\ Status i = "Within expected range"%string).
Proof.
  split; [discriminate|].
  apply (zero_proxy_guard paidDefault unpaidRows). discriminate.
Defined.

(** ** The stored frequency table *)

Section Stability.
Context {A : Type} (cmp : A -> A -> Q) (P : A -> bool).

(** Members of the class [P] never compare strictly greater than one
    another: the sort leaves them in the order they had. *)
Hypothesis same_class : forall x y, P x = true -> P y = true -> ~ 0 < cmp x y.

Lemma sort_insert_stable (x : A) (l : list A) :
  filter P (sort_insert cmp x l) = filter P (x :: l).
Proof.
  induction l as [|y l IH]; [reflexivity|].
  simpl sort_insert. destruct (Qltb 0 (cmp x y)) eqn:E; [|reflexivity].
  qprop. pose proof (same_class x y) as Hxy.
  simpl in *. rewrite IH.
  destruct (P x), (P y); try reflexivity.
  exfalso. now apply Hxy.
Qed.

Lemma jsSort_stable (l : list A) : filter P (jsSort cmp l) = filter P l.
Proof.
  induction l as [|x l IH]; [reflexivity|].
  simpl jsSort. rewrite sort_insert_stable. simpl. now rewrite IH.
Qed.
End Stability.

Lemma freq_bump_keys (v : Q) (t : list (Q * nat)) :
  map fst (freq_bump v t)
  = if existsb (fun k => Qeq_bool k v) (map fst t)
    then map fst t else map fst t ++ [v].
Proof.
  induction t as [|[k c] t IH]; simpl; [reflexivity|].
  destruct (Qeq_bool k v); simpl; [reflexivity|].
  rewrite IH. now destruct (existsb _ _).
Qed.

Lemma fold_bump_keys (l : list Q) (t : list (Q * nat)) :
  map fst (fold_left (fun m v => freq_bump v m) l t)
  = map fst t ++ firstSeen (map fst t) l.
Proof.
  revert t. induction l as [|v l IH]; intro t; simpl.
  - now rewrite app_nil_r.
  - rewrite IH, freq_bump_keys.
    destruct (existsb _ _); [reflexivity|].
    now rewrite <- app_assoc.
Qed.

(** The frequency table lists the amounts in the order of their first
    occurrence. *)
Lemma freqTable_keys (l : list Q) : map fst (freqTable l) = firstSeen [] l.
Proof.
  unfold freqTable. now rewrite fold_bump_keys.
Qed.

(** Claim C5, as the code has it.  The stored table [topValues] holds the
    frequencies of the unfiltered metric list rounded to cents and is
    ranked by frequency descending; entries of equal frequency keep the
    order of the frequency table ([freqTable]), which lists the amounts in
    the order in which they are first met. *)
Theorem topValues_ranking (cfg : Config) (key : string) (items : list Line) :
  let rounded := map round2 (metricAll cfg items) in
  let top := topValues (groupStat cfg key items) in
  Permutation top (freqTable rounded)
  /\ tableFor (freqTable rounded) rounded
  /\ StronglySorted freqBefore top
  /\ map fst (freqTable rounded) = firstSeen [] rounded
  /\ forall c, filter (fun e => (snd e =? c)%nat) top
               = filter (fun e => (snd e =? c)%nat) (freqTable rounded).
Proof.
  simpl. split; [apply jsSort_perm|]. split; [apply freqTable_ok|].
  split; [apply byFreq_sorted|]. split; [apply freqTable_keys|].
  intro c. apply jsSort_stable. intros x y Hx Hy.
  apply Nat.eqb_eq in Hx, Hy. unfold cmpFreq.
  assert (H : countDiff x y <= 0) by (apply countDiff_le; lia).
  lra.
Qed.

(** Claim C5, as stated, fails: in the group paid 50 and 80 both amounts
    occur once and the table lists 50 before 80. *)
Lemma topValues_not_ranked_by_value :
  exists e,
    In e (buildGroups paidDefault (enrichRows twoAmountRows))
    /\ topValues (snd (snd e)) = [(round2 50, 1%nat); (round2 80, 1%nat)]
    /\ ~ StronglySorted rankBefore (topValues (snd (snd e))).
Proof.
  eexists. split; [left; vm_compute; reflexivity|].
  split; [reflexivity|].
  intro S.
  change (StronglySorted rankBefore [(round2 50, 1%nat); (round2 80, 1%nat)]) in S.
  inversion S as [|? ? _ H]; subst.
  inversion H as [|? ? R _]; subst.
  destruct R as [R | [_ R]]; simpl in R.
  - lia.
  - apply Qle_bool_iff in R. vm_compute in R. discriminate R.
Qed.

(** ** Denials *)

Lemma mapi_In_elim {A B : Type} (f : nat -> A -> B) (l : list A) (i : nat) (y : B) :
  In y (mapi f i l) -> exists j x, In x l /\ y = f j x.
Proof.
  revert i. induction l as [|a l IH]; intro i; simpl; [intros []|].
  intros [<- | H].
  - exists i, a. auto.
  - destruct (IH _ H) as [j [x [Hx ->]]]. exists j, x. auto.
Qed.

Lemma mapi_In_intro {A B : Type} (f : nat -> A -> B) (l : list A) (i : nat) (x : A) :
  In x l -> exists j, In (f j x) (mapi f i l).
Proof.
  revert i. induction l as [|a l IH]; intro i; simpl; [intros []|].
  intros [<- | H].
  - exists i. now left.
  - destruct (IH (S i) H) as [j Hj]. exists j. now right.
Qed.

(** The lines of [enrichRows] are the records that have a procedure code,
    normalised. *)
Lemma enrichRows_elim (rows : list Raw.Row) (d : Line) :
  In d (enrichRows rows) ->
  exists j r, In r rows /\ hasCPT r = true /\ d = enrichRow j r.
Proof.
  intro H. apply mapi_In_elim in H. destruct H as [j [r [Hr ->]]].
  apply filter_In in Hr. exists j, r. tauto.
Qed.

Lemma enrichRows_intro (rows : list Raw.Row) (r : Raw.Row) :
  In r rows -> hasCPT r = true -> exists j, In (enrichRow j r) (enrichRows rows).
Proof.
  intros H C. apply mapi_In_intro. apply filter_In. auto.
Qed.

Lemma approxWriteOff_iff (d : Line) :
  approxWriteOff d = true
  <-> (0 < charges d
       /\ Qabs (Dbl.add (Dbl.fl (adjustment d)) (Dbl.fl (charges d))) < Dbl.cent
       /\ insurancePaid d == 0
       /\ balanceOf d == 0).
Proof.
  unfold approxWriteOff.
  rewrite !andb_true_iff, !Qltb_lt, !Qeq_bool_iff. tauto.
Qed.

Lemma metricZero_iff (cfg : Config) (d : Line) :
  metricZero cfg d = true <-> (metricOf cfg d == 0 /\ 0 < charges d).
Proof.
  unfold metricZero. rewrite andb_true_iff, Qltb_lt, Qeq_bool_iff. tauto.
Qed.

Lemma isDenial_iff (cfg : Config) (d : Line) :
  isDenial cfg d = true
  <-> ((0 < charges d
        /\ Qabs (Dbl.add (Dbl.fl (adjustment d)) (Dbl.fl (charges d))) < Dbl.cent
        /\ insurancePaid d == 0
        /\ balanceOf d == 0)
       \/ (metricOf cfg d == 0 /\ 0 < charges d)).
Proof.
  unfold isDenial. now rewrite orb_true_iff, approxWriteOff_iff, metricZero_iff.
Qed.

(** Claim C6, amended.  An entry is in the denials exactly when it comes
    from a retained line that either (a) has charges above 0, an adjustment
    within 0.01 of minus the charges, no insurer payment and no balance
    left once a negative balance is counted as none ([max(0, Balance)] is
    0), or (b) has a benchmark metric of exactly 0 with charges above 0.

    "Within 0.01" is the test [Math.abs(adjustment + charges) < 0.01] as
    the program computes it, in binary64: on amounts up to a billion it
    holds when adjustment and charges add up to at most 0.0099 in size and
    fails when they add up to 0.0101 or more; an adjustment of -49.99 on
    charges of 50.00 passes it.  A record with charges 200, nothing paid by
    insurer or patient, balance 0 and adjustment -200 yields a denial
    whatever the settings. *)
Theorem denials_characterised (cfg : Config) (rows : list Raw.Row) :
  let writtenOff := fun d : Line =>
    Qabs (Dbl.add (Dbl.fl (adjustment d)) (Dbl.fl (charges d))) < Dbl.cent in
  (forall e,
      In e (denials cfg rows)
      <-> exists d,
            In d (enrichRows rows)
            /\ e = denialEntry d
            /\ ((0 < charges d
                 /\ writtenOff d
                 /\ insurancePaid d == 0
                 /\ Qmax 0 (Raw.Balance (_row d)) == 0)
                \/ (metricOf cfg d == 0 /\ 0 < charges d)))
  /\ (forall d,
        Qabs (adjustment d) <= billion -> Qabs (charges d) <= billion ->
        (Qabs (adjustment d + charges d) <= 99 # 10000 -> writtenOff d)
        /\ (101 # 10000 <= Qabs (adjustment d + charges d) -> ~ writtenOff d))
  /\ (forall d, adjustment d == - (4999 # 100) -> charges d == 50 -> writtenOff d)
  /\ (forall r,
        In r rows -> hasCPT r = true ->
        Raw.Charges r == 200 ->
        Raw.Insurance_Payment r == 0 ->
        Raw.Patient_Payment r == 0 ->
        Raw.Balance r == 0 ->
        Raw.Adjustment r == - (200) ->
        exists d,
          In d (enrichRows rows) /\ _row d = r
          /\ isDenial cfg d = true
          /\ In (denialEntry d) (denials cfg rows)).
Proof.
  intro writtenOff.
  assert (Hw : forall d,
             Qltb (Qabs (Dbl.add (Dbl.fl (adjustment d)) (Dbl.fl (charges d)))) Dbl.cent = true
             <-> writtenOff d) by (intro d; apply Qltb_lt).
  split; [|split; [|split]].
  - intro e. unfold denials. rewrite in_map_iff. split.
    + intros [d [<- Hd]]. apply filter_In in Hd. destruct Hd as [Hin Hden].
      exists d. split; [exact Hin|]. split; [reflexivity|]. now apply isDenial_iff.
    + intros [d [Hin [-> Hden]]]. exists d. split; [reflexivity|].
      apply filter_In. split; [exact Hin | now apply isDenial_iff].
  - intros d Ha Hc. destruct (cent_test_add _ _ Ha Hc) as [T F]. split; intro H.
    + apply Hw. now apply T.
    + intro N. apply Hw in N. rewrite (F H) in N. discriminate.
  - intros d Ea Ec. unfold writtenOff.
    rewrite Ea, Ec. vm_compute. reflexivity.
  - intros r Hr Hc Ech Eip Epp Ebal Eadj.
    destruct (enrichRows_intro rows r Hr Hc) as [j Hj].
    exists (enrichRow j r).
    assert (Hden : isDenial cfg (enrichRow j r) = true).
    { apply isDenial_iff. left. unfold balanceOf, enrichRow.
      cbn [charges adjustment insurancePaid _row].
      assert (Emax : Qmax 0 (Raw.Charges r) == 200).
      { rewrite Ech. apply Q.max_r. discriminate. }
      split; [rewrite Emax; reflexivity|].
      split; [|split; [rewrite Eip; reflexivity | rewrite Ebal; reflexivity]].
      rewrite Eadj, Emax. vm_compute. reflexivity. }
    split; [exact Hj|]. split; [reflexivity|]. split; [exact Hden|].
    unfold denials. apply in_map. apply filter_In. auto.
Qed.

(** The claim as it is worded, with the balance of the record, fails on
    [creditBalanceRows] under the allowed benchmark: the line is in the
    denials although its balance is -50, not 0, and its metric is 50. *)
Lemma denials_count_a_credit_balance_as_none :
  exists d,
    enrichRows creditBalanceRows = [d]
    /\ In (denialEntry d) (denials allowedCleaning creditBalanceRows)
    /\ ~ ((0 < charges d
           /\ Qabs (Dbl.add (Dbl.fl (adjustment d)) (Dbl.fl (charges d))) < Dbl.cent
           /\ insurancePaid d == 0
           /\ Raw.Balance (_row d) == 0)
          \/ (metricOf allowedCleaning d == 0 /\ 0 < charges d)).
Proof.
  eexists. split; [reflexivity|]. split.
  - vm_compute. left. reflexivity.
  - intros [[_ [_ [_ H]]] | [H _]]; vm_compute in H; discriminate.
Qed.

(** ** Unpaid patients *)

Lemma cmpGap_sorted (l : list PatientAggregate) :
  StronglySorted (fun a b => UnpaidGap b <= UnpaidGap a) (jsSort cmpGap l).
Proof.
  apply StronglySorted_impl with (R := fun a b => cmpGap a b <= 0).
  - intros a b. unfold cmpGap. lra.
  - apply jsSort_sorted; unfold cmpGap; intros; lra.
Qed.

Lemma benchmarked_total (cfg : Config) (items : list Line) :
  match benchmark cfg with
  | Paid => d3_sum insurancePaid items
  | Allowed => d3_sum allowed items
  end = d3_sum (metricOf cfg) items.
Proof.
  unfold d3_sum, metricOf. now destruct (benchmark cfg).
Qed.

Lemma unpaidPatients_In (cfg : Config) (rows : list Raw.Row) (a : PatientAggregate) :
  In a (unpaidPatients cfg rows)
  <-> exists p,
        a = aggregate cfg (p, filter (fun d => String.eqb (patient d) p) (enrichRows rows))
        /\ filter (fun d => String.eqb (patient d) p) (enrichRows rows) <> []
        /\ AllZeroPaid a = true.
Proof.
  unfold unpaidPatients. rewrite jsSort_In, filter_In, in_map_iff.
  pose proof (groupBy_ok patient (enrichRows rows)) as [Hi Hc _].
  split.
  - intros [[[p items] [<- Hin]] Hz].
    destruct (Hi _ _ Hin) as [Hne E]. exists p. rewrite <- E. auto.
  - intros [p [-> [Hne Hz]]]. split; [|exact Hz].
    exists (p, filter (fun d => String.eqb (patient d) p) (enrichRows rows)).
    split; [reflexivity|].
    destruct (filter (fun d => String.eqb (patient d) p) (enrichRows rows))
      as [|d rest] eqn:E; [congruence|].
    assert (Hd : In d (filter (fun d => String.eqb (patient d) p) (enrichRows rows)))
      by (rewrite E; now left).
    apply filter_In in Hd. destruct Hd as [Hd Hp]. apply String.eqb_eq in Hp.
    destruct (groupBy_covers patient _ d Hd) as [items [Hin _]].
    rewrite Hp in Hin. destruct (Hi _ _ Hin) as [_ Eitems].
    rewrite E in Eitems. now rewrite <- Eitems.
Qed.

(** Claim C7.  A patient is reported exactly when the insurer-paid total
    over the patient's retained lines is 0 and the total of their charges
    is above 0.  The reported gap is [max(0, benchmarked total - insurer-paid
    total)], the benchmarked total being the sum of the active metric over
    the patient's lines, and the report is in descending order of gap. *)
Theorem unpaid_patients (cfg : Config) (rows : list Raw.Row) :
  let linesOf p := filter (fun d => String.eqb (patient d) p) (enrichRows rows) in
  (forall p,
      (exists a, In a (unpaidPatients cfg rows) /\ Patient a = p)
      <-> (d3_sum insurancePaid (linesOf p) == 0 /\ 0 < d3_sum charges (linesOf p)))
  /\ (forall a,
        In a (unpaidPatients cfg rows) ->
        TotalCharges a = d3_sum charges (linesOf (Patient a))
        /\ TotalInsurancePaid a = d3_sum insurancePaid (linesOf (Patient a))
        /\ TotalAllowed a = d3_sum allowed (linesOf (Patient a))
        /\ TotalBalance a = d3_sum balanceOf (linesOf (Patient a))
        /\ UnpaidGap a
           = Qmax 0 (d3_sum (metricOf cfg) (linesOf (Patient a))
                     - d3_sum insurancePaid (linesOf (Patient a))))
  /\ StronglySorted (fun a b => UnpaidGap b <= UnpaidGap a) (unpaidPatients cfg rows).
Proof.
  intro linesOf. split; [|split].
  - intro p. split.
    + intros [a [Ha <-]]. apply unpaidPatients_In in Ha.
      destruct Ha as [p [-> [_ Hz]]]. simpl in *.
      apply andb_true_iff in Hz. destruct Hz as [Hz Hc]. qprop. auto.
    + intros [Hz Hc].
      exists (aggregate cfg (p, linesOf p)). split; [|reflexivity].
      apply unpaidPatients_In. exists p. split; [reflexivity|]. split.
      * intro E. fold (linesOf p) in E. rewrite E in Hc. revert Hc. apply Qlt_irrefl.
      * simpl. apply andb_true_iff. split; [now apply Qeq_bool_iff | now apply Qltb_lt].
  - intros a Ha. apply unpaidPatients_In in Ha.
    destruct Ha as [p [-> _]]. simpl. fold (linesOf p).
    rewrite benchmarked_total. auto.
  - apply cmpGap_sorted.
Qed.

(** ** Payer normalisation *)

Lemma startsWith_spec (s t : string) :
  Str.startsWith s t = true <-> exists post, s = (t ++ post)%string.
Proof.
  revert s. induction t as [|c t IH]; intro s; simpl.
  - split; [intros _; now exists s | reflexivity].
  - destruct s as [|c' s]; [split; [discriminate | intros [post H]; discriminate H]|].
    rewrite andb_true_iff, Ascii.eqb_eq, IH. split.
    + intros [<- [post ->]]. now exists post.
    + intros [post H]. inversion H. split; [reflexivity | now exists post].
Qed.

Lemma includes_spec (s t : string) : Str.includes s t = true <-> occursIn t s.
Proof.
  unfold occursIn. induction s as [|c s IH].
  - simpl. rewrite orb_false_r, startsWith_spec. split.
    + intros [post H]. exists EmptyString, post. exact H.
    + intros [pre [post H]]. destruct pre as [|c pre]; [|discriminate H].
      now exists post.
  - simpl. rewrite orb_true_iff, startsWith_spec, IH. split.
    + intros [[post H] | [pre [post H]]].
      * exists EmptyString, post. exact H.
      * exists (String c pre), post. simpl. now rewrite H.
    + intros [pre [post H]]. destruct pre as [|c' pre].
      * left. now exists post.
      * right. exists pre, post. now inversion H.
Qed.

Lemma mentionsUHC_spec (nameRaw : option string) :
  existsb (fun t => Str.includes (Str.toUpperCase (Str.trim (Str.orElse nameRaw EmptyString))) t)
          UHCTokens = true
  <-> mentionsUHC nameRaw.
Proof.
  unfold mentionsUHC. rewrite existsb_exists.
  split; intros [t [H1 H2]]; exists t; (split; [exact H1 | now apply includes_spec]).
Qed.

Lemma collapseFrom_blanks (inRun : bool) (s : string) :
  singleBlanks (Str.collapseFrom inRun s) = true
  /\ (inRun = true ->
      match Str.collapseFrom inRun s with
      | EmptyString => True
      | String c _ => Str.isSpace c = false
      end).
Proof.
  revert inRun. induction s as [|c s IH]; intro inRun; simpl.
  - auto.
  - destruct (Str.isSpace c) eqn:Ec.
    + destruct (IH true) as [H1 H2]. destruct inRun.
      * split; [exact H1 | exact H2].
      * split; [|discriminate]. simpl. rewrite H1.
        specialize (H2 eq_refl).
        destruct (Str.collapseFrom true s); [reflexivity|]. now rewrite H2.
    + destruct (IH false) as [H1 _]. split; [|intros _; exact Ec].
      simpl. now rewrite Ec, H1.
Qed.

Lemma collapseFrom_inked (inRun : bool) (s : string) :
  inked (Str.collapseFrom inRun s) = inked s.
Proof.
  revert inRun. induction s as [|c s IH]; intro inRun; simpl; [reflexivity|].
  destruct (Str.isSpace c) eqn:Ec.
  - destruct inRun; simpl; now rewrite IH.
  - simpl. now rewrite Ec, IH.
Qed.

Lemma list_ascii_of_string_app (s1 s2 : string) :
  list_ascii_of_string (s1 ++ s2)
  = list_ascii_of_string s1 ++ list_ascii_of_string s2.
Proof.
  induction s1 as [|c s1 IH]; simpl; [reflexivity | now rewrite IH].
Qed.

Lemma dropSpaces_snoc (m : list ascii) (c : ascii) :
  Str.dropSpaces (m ++ [c])
  = match Str.dropSpaces m with
    | [] => if Str.isSpace c then [] else [c]
    | d => d ++ [c]
    end.
Proof.
  induction m as [|a m IH]; simpl; [reflexivity|].
  destruct (Str.isSpace a); [exact IH | reflexivity].
Qed.

Lemma trimEnd_rev (s : string) :
  Str.trimEnd s
  = string_of_list_ascii (rev (Str.dropSpaces (rev (list_ascii_of_string s)))).
Proof.
  induction s as [|c s IH]; [reflexivity|].
  simpl. rewrite dropSpaces_snoc, IH.
  destruct (Str.dropSpaces (rev (list_ascii_of_string s))) as [|x d].
  - simpl. now destruct (Str.isSpace c).
  - rewrite rev_app_distr. simpl.
    destruct (rev d ++ [x]) eqn:E; [|reflexivity].
    now apply app_eq_nil in E.
Qed.

(** A final "Inc", in any case, goes together with the whitespace before
    it when there is some. *)
Lemma stripInc_suffix (body : string) (b i n c : ascii) :
  Str.isSpace b = true ->
  Str.upperChar i = "I"%char -> Str.upperChar n = "N"%char ->
  Str.upperChar c = "C"%char ->
  Str.stripInc (body ++ String b (String i (String n (String c EmptyString))))
  = Str.trimEnd body.
Proof.
  intros Hb Hi Hn Hc. unfold Str.stripInc.
  rewrite list_ascii_of_string_app, rev_app_distr. simpl.
  rewrite Hi, Hn, Hc, Hb. simpl. symmetry. apply trimEnd_rev.
Qed.

(** Claim C8, as the code has it.  A name that, trimmed and upper-cased,
    contains one of the enumerated spellings becomes "United Health Care".
    Every other name is trimmed, has each whitespace run turned into one
    blank (the other characters stay as they are), has its hyphen spacing
    normalised and a final "Inc" removed with the whitespace before it, and
    is trimmed again.  The result is the canonical name when the name
    contains one of the spellings or when its clean-up happens to be that
    name. *)
Theorem normalizeInsurance_cases (nameRaw : option string) :
  let name := Str.trim (Str.orElse nameRaw EmptyString) in
  let cleaned :=
    Str.trim (Str.stripInc (Str.normalizeHyphens (Str.collapseSpaces name))) in
  (mentionsUHC nameRaw -> normalizeInsurance nameRaw = "United Health Care"%string)
  /\ (~ mentionsUHC nameRaw -> normalizeInsurance nameRaw = cleaned)
  /\ (normalizeInsurance nameRaw = "United Health Care"%string
      <-> mentionsUHC nameRaw \/ cleaned = "United Health Care"%string)
  /\ singleBlanks (Str.collapseSpaces name) = true
  /\ inked (Str.collapseSpaces name) = inked name
  /\ (forall body b i n c,
        Str.isSpace b = true ->
        Str.upperChar i = "I"%char -> Str.upperChar n = "N"%char ->
        Str.upperChar c = "C"%char ->
        Str.stripInc (body ++ String b (String i (String n (String c EmptyString))))
        = Str.trimEnd body).
Proof.
  intros name cleaned. unfold normalizeInsurance. fold name. fold cleaned.
  pose proof (mentionsUHC_spec nameRaw) as M. fold name in M.
  split; [|split; [|split; [|split; [|split]]]].
  - intro H. apply M in H. now rewrite H.
  - intro H. destruct (existsb _ UHCTokens); [|reflexivity].
    exfalso. apply H, M. reflexivity.
  - destruct (existsb _ UHCTokens) eqn:E.
    + split; [intros _; left; now apply M | reflexivity].
    + split; [intro H; now right|].
      intros [H | H]; [|exact H]. apply M in H. discriminate H.
  - apply (collapseFrom_blanks false).
  - apply collapseFrom_inked.
  - apply stripInc_suffix.
Qed.

(** Claim C8, as stated, fails.  "United  Health Care" written with two
    blanks contains none of the enumerated spellings and still comes out as
    the canonical name, through the clean-up; and "Fuhcorp" is no spelling
    of that payer, contains "UHC", and is collapsed to it. *)
Lemma normalizeInsurance_not_exactly_variants :
  (~ mentionsUHC (Some "United  Health Care"%string)
   /\ normalizeInsurance (Some "United  Health Care"%string) = "United Health Care"%string)
  /\ (~ In (Str.toUpperCase "Fuhcorp") UHCTokens
      /\ normalizeInsurance (Some "Fuhcorp"%string) = "United Health Care"%string).
Proof.
  split; split.
  - intro H. apply mentionsUHC_spec in H. vm_compute in H. discriminate H.
  - vm_compute. reflexivity.
  - intro H. vm_compute in H.
    repeat (destruct H as [H | H]; [discriminate H|]). exact H.
  - vm_compute. reflexivity.
Qed.

(** ** Group keys *)

(** Claim C10.  The key is not injective on the grouping attributes.  The
    canonical lines of [barInPayer] and [barInCode] differ in payer and in
    procedure code, their keys agree in both variants, and under either
    setting [buildGroups] puts the two lines into one group. *)
Theorem key_not_injective :
  exists d1 d2,
    enrichRows [barInPayer; barInCode] = [d1; d2]
    /\ Insurance (g d1) <> Insurance (g d2)
    /\ CPT (g d1) <> CPT (g d2)
    /\ buildKey (g d1) = buildKey (g d2)
    /\ buildKeyNoUnits (g d1) = buildKeyNoUnits (g d2)
    /\ forall cfg, exists stat,
         buildGroups cfg [d1; d2] = [(keyFor cfg (g d1), ([d1; d2], stat))]
         /\ n stat = 2%nat.
Proof.
  eexists _, _. split; [vm_compute; reflexivity|].
  split; [discriminate|]. split; [discriminate|].
  split; [reflexivity|]. split; [reflexivity|].
  intro cfg.
  match goal with
  | |- exists stat, buildGroups _ ?l = [(?k, _)] /\ _ => exists (groupStat cfg k l)
  end.
  split; [|reflexivity].
  unfold buildGroups, groupBy. cbn [fold_left bucketPush].
  match goal with
  | |- context [String.eqb ?k1 ?k2] =>
      assert (K : k2 = k1)
        by (unfold keyFor; destruct (includeUnitsInKey cfg); reflexivity);
      rewrite K, String.eqb_refl
  end.
  reflexivity.
Qed.

(* ================================================================== *)
(** * Part IV: further properties of the code                          *)
(* ================================================================== *)

(** ** Header lookup *)

Ltac by_cases_on_char c :=
  destruct c as [[|] [|] [|] [|] [|] [|] [|] [|]]; vm_compute; try reflexivity; try discriminate.

Lemma isSpace_upperChar (c : ascii) : Str.isSpace (Str.upperChar c) = Str.isSpace c.
Proof. by_cases_on_char c. Qed.

Lemma isWordChar_upperChar (c : ascii) : isWordChar (Str.upperChar c) = isWordChar c.
Proof. by_cases_on_char c. Qed.

Lemma upperChar_idem (c : ascii) : Str.upperChar (Str.upperChar c) = Str.upperChar c.
Proof. by_cases_on_char c. Qed.

Lemma isHeaderChar_not_space (c : ascii) : isHeaderChar c = true -> Str.isSpace c = false.
Proof. by_cases_on_char c. Qed.

Lemma isHeaderChar_word (c : ascii) : isHeaderChar c = true -> isWordChar c = true.
Proof. unfold isHeaderChar. now intros H%andb_true_iff. Qed.

Lemma isHeaderChar_upper (c : ascii) : isHeaderChar c = true -> Str.upperChar c = c.
Proof.
  unfold isHeaderChar. intros H%andb_true_iff. now apply Ascii.eqb_eq.
Qed.

Lemma toUpperCase_idem (s : string) :
  Str.toUpperCase (Str.toUpperCase s) = Str.toUpperCase s.
Proof.
  induction s as [|c s IH]; simpl; [reflexivity|]. now rewrite upperChar_idem, IH.
Qed.

Lemma toUpperCase_trimStart (s : string) :
  Str.toUpperCase (Str.trimStart s) = Str.trimStart (Str.toUpperCase s).
Proof.
  induction s as [|c s IH]; simpl; [reflexivity|].
  rewrite isSpace_upperChar. now destruct (Str.isSpace c).
Qed.

Lemma toUpperCase_trimEnd (s : string) :
  Str.toUpperCase (Str.trimEnd s) = Str.trimEnd (Str.toUpperCase s).
Proof.
  induction s as [|c s IH]; simpl; [reflexivity|].
  rewrite <- IH, isSpace_upperChar.
  destruct (Str.trimEnd s); simpl; [now destruct (Str.isSpace c) | reflexivity].
Qed.

Lemma toUpperCase_trim (s : string) :
  Str.toUpperCase (Str.trim s) = Str.trim (Str.toUpperCase s).
Proof.
  unfold Str.trim. now rewrite toUpperCase_trimEnd, toUpperCase_trimStart.
Qed.

Lemma toUpperCase_underscoreFrom (inRun : bool) (s : string) :
  Str.toUpperCase (underscoreFrom inRun s) = underscoreFrom inRun (Str.toUpperCase s).
Proof.
  revert inRun. induction s as [|c s IH]; intro inRun; simpl; [reflexivity|].
  rewrite isSpace_upperChar. destruct (Str.isSpace c).
  - destruct inRun; simpl; now rewrite IH.
  - simpl. now rewrite IH.
Qed.

Lemma toUpperCase_keepWordChars (s : string) :
  Str.toUpperCase (keepWordChars s) = keepWordChars (Str.toUpperCase s).
Proof.
  induction s as [|c s IH]; simpl; [reflexivity|].
  rewrite isWordChar_upperChar. destruct (isWordChar c); simpl; now rewrite IH.
Qed.

Lemma normalizeHeader_chars (h : string) : allChars isHeaderChar (normalizeHeader h) = true.
Proof.
  unfold normalizeHeader.
  generalize (underscoreFrom false (Str.trim h)). intro s.
  induction s as [|c s IH]; simpl; [reflexivity|].
  destruct (isWordChar c) eqn:E; [|exact IH].
  simpl. rewrite IH, andb_true_r. unfold isHeaderChar.
  now rewrite isWordChar_upperChar, E, upperChar_idem, Ascii.eqb_refl.
Qed.

Lemma trimStart_headerChars (s : string) :
  allChars isHeaderChar s = true -> Str.trimStart s = s.
Proof.
  destruct s as [|c s]; simpl; [reflexivity|].
  intros [H _]%andb_true_iff. now rewrite (isHeaderChar_not_space c H).
Qed.

Lemma trimEnd_headerChars (s : string) :
  allChars isHeaderChar s = true -> Str.trimEnd s = s.
Proof.
  induction s as [|c s IH]; simpl; [reflexivity|].
  intros [H1 H2]%andb_true_iff. rewrite (IH H2), (isHeaderChar_not_space c H1).
  now destruct s.
Qed.

Lemma underscoreFrom_headerChars (s : string) :
  allChars isHeaderChar s = true -> underscoreFrom false s = s.
Proof.
  induction s as [|c s IH]; simpl; [reflexivity|].
  intros [H1 H2]%andb_true_iff.
  now rewrite (isHeaderChar_not_space c H1), (IH H2).
Qed.

Lemma keepWordChars_headerChars (s : string) :
  allChars isHeaderChar s = true -> keepWordChars s = s.
Proof.
  induction s as [|c s IH]; simpl; [reflexivity|].
  intros [H1 H2]%andb_true_iff.
  now rewrite (isHeaderChar_word c H1), (IH H2).
Qed.

Lemma toUpperCase_headerChars (s : string) :
  allChars isHeaderChar s = true -> Str.toUpperCase s = s.
Proof.
  induction s as [|c s IH]; simpl; [reflexivity|].
  intros [H1 H2]%andb_true_iff.
  now rewrite (isHeaderChar_upper c H1), (IH H2).
Qed.

(** Property X1.  A normalised header is made of digits, upper-case
    letters and underscores only; normalising it again changes nothing;
    and the case of the letters of a header written in ASCII does not
    matter. *)
Theorem normalizeHeader_canonical (h : string) :
  allChars isHeaderChar (normalizeHeader h) = true
  /\ normalizeHeader (normalizeHeader h) = normalizeHeader h
  /\ (allChars isAsciiChar h = true ->
      normalizeHeader (Str.toUpperCase h) = normalizeHeader h).
Proof.
  pose proof (normalizeHeader_chars h) as C.
  split; [exact C|]. split.
  - unfold normalizeHeader at 1. unfold Str.trim.
    rewrite (trimStart_headerChars _ C), (trimEnd_headerChars _ C),
      (underscoreFrom_headerChars _ C), (keepWordChars_headerChars _ C).
    now apply toUpperCase_headerChars.
  - intros _. unfold normalizeHeader.
    rewrite <- toUpperCase_trim, <- toUpperCase_underscoreFrom,
      <- toUpperCase_keepWordChars.
    apply toUpperCase_idem.
Qed.

Lemma cellAt_In (row : Cells) (key v : string) :
  cellAt row key = Some v -> In (key, v) row.
Proof.
  induction row as [|[k w] row IH]; simpl; [discriminate|].
  destruct (String.eqb k key) eqn:E.
  - apply String.eqb_eq in E. intros [= <-]. left. now subst.
  - intro H. right. now apply IH.
Qed.

Lemma cellLike_Some (row : Cells) (want v : string) :
  cellLike row want = Some v -> exists k, In (k, v) row /\ normalizeHeader k = want.
Proof.
  induction row as [|[k w] row IH]; simpl; [discriminate|].
  destruct (String.eqb (normalizeHeader k) want) eqn:E.
  - apply String.eqb_eq in E. intros [= <-]. exists k. auto.
  - intro H. destruct (IH H) as [k' [H1 H2]]. exists k'. auto.
Qed.

Lemma cellLike_None (row : Cells) (want : string) :
  cellLike row want = None <-> forall k v, In (k, v) row -> normalizeHeader k <> want.
Proof.
  induction row as [|[k w] row IH]; simpl.
  - split; [intros _ ? ? [] | reflexivity].
  - destruct (String.eqb (normalizeHeader k) want) eqn:E.
    + apply String.eqb_eq in E. split; [discriminate|].
      intro H. exfalso. apply (H k w); auto.
    + apply String.eqb_neq in E. rewrite IH. split.
      * intros H k' v' [[= <- <-] | Hin]; [exact E | now apply (H k' v')].
      * intros H k' v' Hin. apply (H k' v'). now right.
Qed.

(** Property X2.  [getVal] returns the cell of a column whose header
    normalises like the wanted one, and comes back empty-handed only when
    no header of the record does; a column spelled exactly as wanted is
    taken before any look-alike. *)
Theorem getVal_finds (row : Cells) (key : string) :
  (forall v, getVal row key = Some v ->
             exists k, In (k, v) row /\ normalizeHeader k = normalizeHeader key)
  /\ (getVal row key = None <->
      forall k v, In (k, v) row -> normalizeHeader k <> normalizeHeader key)
  /\ (forall v, cellAt row key = Some v -> getVal row key = Some v).
Proof.
  unfold getVal. split; [|split].
  - intros v. destruct (cellAt row key) as [w|] eqn:E.
    + intros [= <-]. exists key. split; [now apply cellAt_In | reflexivity].
    + apply cellLike_Some.
  - destruct (cellAt row key) as [w|] eqn:E.
    + split; [discriminate|]. intro H. exfalso.
      apply (H key w); [now apply cellAt_In | reflexivity].
    + apply cellLike_None.
  - intros v ->. reflexivity.
Qed.

(** ** Modifier normalisation *)

Lemma ascii_compare_Lt_trans (a b c : ascii) :
  Ascii.compare a b = Lt -> Ascii.compare b c = Lt -> Ascii.compare a c = Lt.
Proof.
  unfold Ascii.compare. rewrite !N.compare_lt_iff. apply N.lt_trans.
Qed.

Lemma string_compare_Lt_trans (a b c : string) :
  String.compare a b = Lt -> String.compare b c = Lt -> String.compare a c = Lt.
Proof.
  revert b c. induction a as [|x a IH]; intros [|y b] [|z c]; simpl; try congruence.
  destruct (Ascii.compare x y) eqn:Exy; try discriminate;
    destruct (Ascii.compare y z) eqn:Eyz; try discriminate; intros H1 H2.
  - apply Ascii.compare_eq_iff in Exy, Eyz. subst.
    replace (Ascii.compare z z) with Eq
      by (symmetry; unfold Ascii.compare; apply N.compare_refl).
    now apply IH with b.
  - apply Ascii.compare_eq_iff in Exy. subst. now rewrite Eyz.
  - apply Ascii.compare_eq_iff in Eyz. subst. now rewrite Exy.
  - now rewrite (ascii_compare_Lt_trans _ _ _ Exy Eyz).
Qed.

Lemma string_compare_refl (a : string) : String.compare a a = Eq.
Proof.
  induction a as [|x a IH]; simpl; [reflexivity|].
  replace (Ascii.compare x x) with Eq
    by (symmetry; unfold Ascii.compare; apply N.compare_refl).
  exact IH.
Qed.

(** The default comparator puts [a] before [b] unless [b < a]. *)
Lemma cmpDefault_before (a b : string) :
  Str.cmpDefault a b <= 0 <-> String.compare a b <> Gt.
Proof.
  unfold Str.cmpDefault, String.ltb. rewrite (String.compare_antisym b a).
  destruct (String.compare a b); simpl; split; intro H;
    try discriminate; try congruence; try (exfalso; revert H; apply Qlt_not_le; reflexivity).
Qed.

Lemma string_le_trans (a b c : string) :
  String.compare a b <> Gt -> String.compare b c <> Gt -> String.compare a c <> Gt.
Proof.
  intros H1 H2.
  destruct (String.compare a b) eqn:Eab; [| |congruence].
  - apply String.compare_eq_iff in Eab. now subst.
  - destruct (String.compare b c) eqn:Ebc; [| |congruence].
    + apply String.compare_eq_iff in Ebc. subst. now rewrite Eab.
    + now rewrite (string_compare_Lt_trans _ _ _ Eab Ebc).
Qed.

Lemma string_le_antisym (a b : string) :
  String.compare a b <> Gt -> String.compare b a <> Gt -> a = b.
Proof.
  intros H1 H2. rewrite String.compare_antisym in H2.
  destruct (String.compare a b) eqn:E; simpl in H2; try congruence.
  now apply String.compare_eq_iff.
Qed.

Lemma sorted_default (l : list string) :
  StronglySorted (fun a b => String.compare a b <> Gt) (jsSort Str.cmpDefault l).
Proof.
  apply StronglySorted_impl with (R := fun a b => Str.cmpDefault a b <= 0).
  - intros a b. apply cmpDefault_before.
  - apply jsSort_sorted.
    + intros a b c. rewrite !cmpDefault_before. apply string_le_trans.
    + intros a b H. apply cmpDefault_before.
      assert (N : ~ Str.cmpDefault a b <= 0) by lra.
      rewrite cmpDefault_before in N. rewrite String.compare_antisym.
      destruct (String.compare a b); simpl; try discriminate. now contradiction N.
Qed.

(** Two duplicate-free lists sorted by an antisymmetric order and holding
    the same elements are the same list. *)
Lemma sorted_unique {A : Type} (R : A -> A -> Prop) (l1 l2 : list A) :
  (forall a b, R a b -> R b a -> a = b) ->
  StronglySorted R l1 -> StronglySorted R l2 ->
  NoDup l1 -> NoDup l2 ->
  (forall x, In x l1 <-> In x l2) ->
  l1 = l2.
Proof.
  intros Hanti S1. revert l2. induction S1 as [|a l1 S1 IH Ha]; intros l2 S2 N1 N2 E.
  - destruct l2 as [|b l2]; [reflexivity|]. destruct (proj2 (E b) (or_introl eq_refl)).
  - destruct S2 as [|b l2 S2 Hb]; [destruct (proj1 (E a) (or_introl eq_refl))|].
    rewrite Forall_forall in Ha, Hb.
    inversion N1 as [|? ? Na N1']; inversion N2 as [|? ? Nb N2']; subst.
    assert (Eab : a = b).
    { destruct (proj1 (E a) (or_introl eq_refl)) as [-> | Ha2]; [reflexivity|].
      destruct (proj2 (E b) (or_introl eq_refl)) as [-> | Hb1]; [reflexivity|].
      apply Hanti; [now apply Ha | now apply Hb]. }
    subst b. f_equal. apply IH; try assumption.
    intro x. split; intro Hx.
    + destruct (proj1 (E x) (or_intror Hx)) as [<- | H]; [contradiction | exact H].
    + destruct (proj2 (E x) (or_intror Hx)) as [<- | H]; [contradiction | exact H].
Qed.

Lemma uniq_In (seen l : list string) (x : string) :
  In x (Str.uniq seen l) <-> In x l /\ ~ In x seen.
Proof.
  revert seen. induction l as [|y l IH]; intro seen; simpl; [tauto|].
  destruct (existsb (String.eqb y) seen) eqn:E.
  - assert (Hy : In y seen).
    { apply existsb_exists in E. destruct E as [z [Hz Ez]].
      apply String.eqb_eq in Ez. now subst. }
    rewrite IH. split; [tauto|]. intros [[<- | H] N]; [contradiction | tauto].
  - assert (Hy : ~ In y seen).
    { intro H. assert (F : existsb (String.eqb y) seen = true).
      { apply existsb_exists. exists y. split; [exact H | apply String.eqb_refl]. }
      congruence. }
    simpl. rewrite IH. simpl. split.
    + intros [<- | [H N]]; [tauto|]. split; [tauto|]. intro F. apply N. now right.
    + intros [[<- | H] N]; [now left|].
      destruct (string_dec y x) as [-> | D]; [now left|].
      right. split; [exact H|]. intros [F | F]; [contradiction | contradiction].
Qed.

Lemma uniq_NoDup (seen l : list string) : NoDup (Str.uniq seen l).
Proof.
  revert seen. induction l as [|y l IH]; intro seen; simpl; [constructor|].
  destruct (existsb (String.eqb y) seen); [apply IH|].
  constructor; [|apply IH].
  rewrite uniq_In. intros [_ N]. apply N. now left.
Qed.

(** [normalizeModifiers] in terms of the codes it reads. *)
Lemma normalizeModifiers_codes (m : string) :
  normalizeModifiers (Some m)
  = match jsSort Str.cmpDefault (Str.uniq [] (modifierCodes m)) with
    | [] => noModifiers
    | codes => Str.join "+" codes
    end.
Proof.
  unfold normalizeModifiers. destruct (String.eqb m EmptyString) eqn:E.
  - apply String.eqb_eq in E. now subst.
  - fold (modifierCodes m).
    now destruct (jsSort Str.cmpDefault (Str.uniq [] (modifierCodes m))).
Qed.

(** Property X3.  The normalised modifiers depend only on which codes the
    cell holds, whatever their order, their repetitions and the case of
    their letters; a cell without any code, like a missing cell, gives the
    "no modifiers" mark. *)
Theorem normalizeModifiers_set (m1 m2 : string) :
  (forall t, In t (modifierCodes m1) <-> In t (modifierCodes m2)) ->
  normalizeModifiers (Some m1) = normalizeModifiers (Some m2)
  /\ (modifierCodes m1 = [] -> normalizeModifiers (Some m1) = normalizeModifiers None).
Proof.
  intro E. rewrite !normalizeModifiers_codes. split.
  - assert (S : jsSort Str.cmpDefault (Str.uniq [] (modifierCodes m1))
                = jsSort Str.cmpDefault (Str.uniq [] (modifierCodes m2))).
    { apply sorted_unique with (R := fun a b => String.compare a b <> Gt).
      - apply string_le_antisym.
      - apply sorted_default.
      - apply sorted_default.
      - apply (Permutation_NoDup (Permutation_sym (jsSort_perm _ _))), uniq_NoDup.
      - apply (Permutation_NoDup (Permutation_sym (jsSort_perm _ _))), uniq_NoDup.
      - intro x. rewrite !jsSort_In, !uniq_In, E. tauto. }
    now rewrite S.
  - intros ->. reflexivity.
Qed.

(** "tc, 26" and "26 TC 26" hold the same codes. *)
Lemma normalizeModifiers_set_witness :
  (forall t, In t (modifierCodes "tc, 26") <-> In t (modifierCodes "26 TC 26"))
  /\ normalizeModifiers (Some "tc, 26"%string) = normalizeModifiers (Some "26 TC 26"%string).
Proof.
  assert (H : forall t, In t (modifierCodes "tc, 26") <-> In t (modifierCodes "26 TC 26")).
  { intro t. vm_compute. tauto. }
  split; [exact H|].
  exact (proj1 (normalizeModifiers_set "tc, 26" "26 TC 26" H)).
Defined.

Lemma isSep_upperChar (c : ascii) : Str.isSep (Str.upperChar c) = Str.isSep c.
Proof. by_cases_on_char c. Qed.

Lemma isSep_isSpace (c : ascii) : Str.isSep c = false -> Str.isSpace c = false.
Proof. unfold Str.isSep. now intros [_ H]%orb_false_iff. Qed.

Lemma sepFree_app (a b : string) :
  sepFree (a ++ b) = sepFree a && sepFree b.
Proof.
  unfold sepFree. induction a as [|c a IH]; simpl; [reflexivity|].
  now rewrite IH, andb_assoc.
Qed.

Lemma sepFree_upper (s : string) : sepFree (Str.toUpperCase s) = sepFree s.
Proof.
  unfold sepFree. induction s as [|c s IH]; simpl; [reflexivity|].
  now rewrite isSep_upperChar, IH.
Qed.

Lemma sepFree_trim (s : string) : sepFree s = true -> Str.trim s = s.
Proof.
  intro H. unfold Str.trim.
  assert (T1 : Str.trimStart s = s).
  { destruct s as [|c s]; [reflexivity|]. simpl in *.
    apply andb_true_iff in H. destruct H as [H _]. apply negb_true_iff in H.
    now rewrite (isSep_isSpace c H). }
  rewrite T1. clear T1. induction s as [|c s IH]; [reflexivity|].
  simpl in *. apply andb_true_iff in H. destruct H as [Hc Hs].
  apply negb_true_iff in Hc. rewrite (IH Hs), (isSep_isSpace c Hc). now destruct s.
Qed.

Lemma string_app_assoc (a b c : string) : ((a ++ b) ++ c = a ++ (b ++ c))%string.
Proof.
  induction a as [|x a IH]; simpl; [reflexivity | now rewrite IH].
Qed.

(** A string without separators is one piece. *)
Lemma piecesFrom_sepFree (cur s : string) :
  sepFree s = true -> Str.piecesFrom cur s = Str.flush (cur ++ s).
Proof.
  revert cur. induction s as [|c s IH]; intros cur H; cbn [Str.piecesFrom].
  - f_equal. induction cur as [|x cur IHc]; simpl; [reflexivity | now rewrite <- IHc].
  - unfold sepFree in H. cbn [allChars] in H. apply andb_true_iff in H.
    destruct H as [Hc Hs]. apply negb_true_iff in Hc.
    rewrite Hc, (IH _ Hs), string_app_assoc. reflexivity.
Qed.

(** Every piece is free of separators and not empty. *)
Lemma piecesFrom_pieces (cur s : string) :
  sepFree cur = true ->
  Forall (fun t => sepFree t = true /\ t <> EmptyString) (Str.piecesFrom cur s).
Proof.
  assert (F : forall cur, sepFree cur = true ->
                Forall (fun t => sepFree t = true /\ t <> EmptyString) (Str.flush cur)).
  { intros c Hc. unfold Str.flush. destruct (String.eqb c EmptyString) eqn:E.
    - constructor.
    - apply String.eqb_neq in E. repeat constructor; assumption. }
  revert cur. induction s as [|c s IH]; intros cur H; cbn [Str.piecesFrom].
  - now apply F.
  - destruct (Str.isSep c) eqn:E.
    + apply Forall_app. split; [now apply F | now apply IH].
    + apply IH. rewrite sepFree_app, H. unfold sepFree. cbn [allChars]. now rewrite E.
Qed.

Lemma toUpperCase_nonempty (s : string) :
  s <> EmptyString -> Str.toUpperCase s <> EmptyString.
Proof. destruct s; [congruence | discriminate]. Qed.

Lemma modifierCodes_shape (m : string) :
  Forall (fun t => sepFree t = true /\ t <> EmptyString /\ Str.toUpperCase t = t)
         (modifierCodes m).
Proof.
  unfold modifierCodes. apply Forall_forall. intros t Ht.
  apply filter_In in Ht. destruct Ht as [Ht _].
  apply in_map_iff in Ht. destruct Ht as [p [<- Hp]].
  pose proof (piecesFrom_pieces EmptyString m eq_refl) as P.
  rewrite Forall_forall in P. destruct (P p Hp) as [Hs Hn].
  rewrite (sepFree_trim p Hs). split; [|split].
  - now rewrite sepFree_upper.
  - now apply toUpperCase_nonempty.
  - apply toUpperCase_idem.
Qed.

Lemma toUpperCase_app (a b : string) :
  Str.toUpperCase (a ++ b) = (Str.toUpperCase a ++ Str.toUpperCase b)%string.
Proof.
  induction a as [|c a IH]; simpl; [reflexivity | now rewrite IH].
Qed.

Lemma join_cons (sep x y : string) (l : list string) :
  Str.join sep (x :: y :: l) = (x ++ sep ++ Str.join sep (y :: l))%string.
Proof. reflexivity. Qed.

Lemma join_shape (l : list string) :
  l <> [] ->
  Forall (fun t => sepFree t = true /\ t <> EmptyString /\ Str.toUpperCase t = t) l ->
  sepFree (Str.join "+" l) = true
  /\ Str.join "+" l <> EmptyString
  /\ Str.toUpperCase (Str.join "+" l) = Str.join "+" l.
Proof.
  intros Hne H. induction H as [|t l [Hs [Hn Hu]] Hl IH]; [congruence|].
  destruct l as [|t' l]; [simpl; auto|].
  destruct IH as [Is [In' Iu]]; [discriminate|].
  rewrite join_cons. split; [|split].
  - rewrite !sepFree_app, Hs, Is. reflexivity.
  - destruct t; [congruence | discriminate].
  - rewrite !toUpperCase_app, Hu, Iu. reflexivity.
Qed.

(** Property X4.  Normalising modifiers that are already normalised gives
    them back: the text shown for a group can be typed into the override or
    filter form as it is. *)
Theorem normalizeModifiers_idempotent (mod_ : option string) :
  normalizeModifiers (Some (normalizeModifiers mod_)) = normalizeModifiers mod_.
Proof.
  assert (Mark : normalizeModifiers (Some noModifiers) = noModifiers)
    by (vm_compute; reflexivity).
  destruct mod_ as [m|]; [|exact Mark].
  rewrite (normalizeModifiers_codes m).
  destruct (jsSort Str.cmpDefault (Str.uniq [] (modifierCodes m))) as [|t l] eqn:E;
    [exact Mark|].
  assert (Shape : Forall (fun t => sepFree t = true /\ t <> EmptyString
                                   /\ Str.toUpperCase t = t) (t :: l)).
  { rewrite <- E. apply Forall_forall. intros x Hx.
    apply jsSort_In, uniq_In in Hx. destruct Hx as [Hx _].
    pose proof (modifierCodes_shape m) as S. rewrite Forall_forall in S. now apply S. }
  destruct (join_shape (t :: l) ltac:(discriminate) Shape) as [Js [Jn Ju]].
  set (r := Str.join "+" (t :: l)) in *.
  rewrite normalizeModifiers_codes. unfold modifierCodes.
  rewrite (piecesFrom_sepFree EmptyString r Js). simpl String.append.
  unfold Str.flush. apply String.eqb_neq in Jn. rewrite Jn.
  simpl map. rewrite (sepFree_trim r Js), Ju. simpl filter. rewrite Jn. simpl.
  reflexivity.
Qed.

(** ** Rounding and the canonical lines *)

Lemma Qmake_cents (n : Z) : n # 100 == inject_Z n * (1 # 100).
Proof. unfold Qeq. simpl. lia. Qed.

(** Rounding to cents moves an amount by half a cent at most. *)
Lemma round2_error (v : Q) : Qabs (round2 v - v) <= 1 # 200.
Proof.
  unfold round2.
  pose proof (Qfloor_le (Qabs v * 100 + (1 # 2))) as H1.
  pose proof (Qlt_floor (Qabs v * 100 + (1 # 2))) as H2.
  set (n := Qfloor (Qabs v * 100 + (1 # 2))) in *.
  rewrite inject_Z_plus in H2. change (inject_Z 1) with 1 in H2.
  clearbody n. apply Qabs_Qle_condition.
  destruct (Qle_bool 0 v) eqn:S.
  - apply Qle_bool_iff in S. rewrite (Qabs_pos v S) in H1, H2.
    rewrite Qmake_cents. revert H1 H2. generalize (inject_Z n).
    intros q H1 H2. split; lra.
  - assert (S' : v < 0).
    { apply Qnot_le_lt. intro H. apply Qle_bool_iff in H. congruence. }
    clear S. rewrite (Qabs_neg v) in H1, H2 by lra.
    rewrite Qmake_cents. revert H1 H2. generalize (inject_Z n).
    intros q H1 H2. split; lra.
Qed.

Lemma round2_nonneg (v : Q) : 0 <= v -> 0 <= round2 v.
Proof.
  intro H. unfold round2. apply Qle_bool_iff in H. rewrite H.
  apply Qle_bool_iff in H.
  assert (F : (0 <= Qfloor (Qabs v * 100 + (1 # 2)))%Z).
  { change 0%Z with (Qfloor 0). apply Qfloor_resp_le.
    pose proof (Qabs_nonneg v). lra. }
  rewrite Qmake_cents. rewrite Zle_Qle in F. change (inject_Z 0) with 0 in F. revert F.
  generalize (inject_Z (Qfloor (Qabs v * 100 + (1 # 2)))). intros q F. lra.
Qed.

Lemma round2_whole_cents (v : Q) : exists z, round2 v == z # 100.
Proof.
  unfold round2. destruct (Qle_bool 0 v).
  - eexists. reflexivity.
  - exists (- Qfloor (Qabs v * 100 + (1 # 2)))%Z. reflexivity.
Qed.

Lemma mapi_rows (i : nat) (l : list Raw.Row) : map _row (mapi enrichRow i l) = l.
Proof.
  revert i. induction l as [|r l IH]; intro i; simpl; [reflexivity | now rewrite IH].
Qed.

Lemma mapi_idx (i : nat) (l : list Raw.Row) :
  map idx (mapi enrichRow i l) = seq i (List.length l).
Proof.
  revert i. induction l as [|r l IH]; intro i; simpl; [reflexivity | now rewrite IH].
Qed.

Lemma enrichRows_CPT (rows : list Raw.Row) (d : Line) :
  In d (enrichRows rows) -> CPT (g d) <> EmptyString.
Proof.
  intro Hd. apply mapi_In_elim in Hd. destruct Hd as [j [r [Hr ->]]].
  apply filter_In in Hr. destruct Hr as [_ Hc]. simpl.
  unfold hasCPT in Hc. apply negb_true_iff in Hc. now apply String.eqb_neq.
Qed.

(** Property X5.  [enrichRows] keeps exactly the records whose procedure
    code is not blank, in their order, and numbers the lines 0, 1, 2, ...
    in that order. *)
Theorem enrichRows_retains (rows : list Raw.Row) :
  map _row (enrichRows rows) = filter hasCPT rows
  /\ map idx (enrichRows rows) = seq 0 (List.length (filter hasCPT rows))
  /\ List.length (enrichRows rows) = List.length (filter hasCPT rows)
  /\ (forall d, In d (enrichRows rows) -> CPT (g d) <> EmptyString).
Proof.
  unfold enrichRows. split; [apply mapi_rows|]. split; [apply mapi_idx|]. split.
  - rewrite <- (length_map _row), mapi_rows. reflexivity.
  - apply enrichRows_CPT.
Qed.

(** Property X6.  On every canonical line the charges, the insurer payment
    and the allowed amount are not negative; the allowed amount is a whole
    number of cents, within half a cent of insurer payment plus the
    non-negative parts of patient payment and balance, so never more than
    half a cent below the insurer payment; and the stored group key is the
    key with units. *)
Theorem enrichRows_amounts (rows : list Raw.Row) (d : Line) :
  In d (enrichRows rows) ->
  0 <= charges d
  /\ 0 <= insurancePaid d
  /\ 0 <= allowed d
  /\ (exists z, allowed d == z # 100)
  /\ Qabs (allowed d
           - (insurancePaid d + Qmax 0 (Raw.Patient_Payment (_row d)) + balanceOf d))
     <= 1 # 200
  /\ insurancePaid d - (1 # 200) <= allowed d
  /\ groupKey d = buildKey (g d).
Proof.
  intro Hd. apply enrichRows_elim in Hd. destruct Hd as [j [r [_ [_ ->]]]].
  unfold balanceOf, enrichRow, computeAllowed.
  cbn [charges insurancePaid allowed _row groupKey g].
  pose proof (Qabs_nonneg (Raw.Insurance_Payment r)) as Hi.
  pose proof (Q.le_max_l 0 (Raw.Patient_Payment r)) as Hp.
  pose proof (Q.le_max_l 0 (Raw.Balance r)) as Hb.
  pose proof (round2_error (Qabs (Raw.Insurance_Payment r)
                            + Qmax 0 (Raw.Patient_Payment r)
                            + Qmax 0 (Raw.Balance r))) as He.
  split; [apply Q.le_max_l|]. split; [exact Hi|].
  split; [apply round2_nonneg; lra|].
  split; [apply round2_whole_cents|].
  split; [exact He|]. split; [|reflexivity].
  apply Qabs_Qle_condition in He. lra.
Qed.

Lemma enrichRows_amounts_witness :
  In (enrichRow 0 barInPayer) (enrichRows [barInPayer; barInCode])
  /\ 0 <= allowed (enrichRow 0 barInPayer).
Proof.
  assert (H : In (enrichRow 0 barInPayer) (enrichRows [barInPayer; barInCode]))
    by (left; reflexivity).
  split; [exact H|].
  exact (proj1 (proj2 (proj2 (enrichRows_amounts _ _ H)))).
Defined.

(** ** Groups partition the lines *)

Lemma bucketPush_concat (k : string) (d : Line) (b : list (string * list Line)) :
  Permutation (List.concat (map snd (bucketPush k d b))) (d :: List.concat (map snd b)).
Proof.
  induction b as [|[k' ds] b IH]; simpl; [apply Permutation_refl|].
  destruct (String.eqb k' k); simpl.
  - rewrite <- app_assoc. simpl. apply Permutation_sym, Permutation_middle.
  - rewrite IH. apply Permutation_sym, Permutation_middle.
Qed.

Lemma groupBy_perm (key : Line -> string) (l : list Line) :
  Permutation (List.concat (map snd (groupBy key l))) l.
Proof.
  induction l as [|d l IH] using rev_ind; [apply Permutation_refl|].
  rewrite groupBy_snoc, bucketPush_concat, IH.
  apply Permutation_cons_append.
Qed.

Lemma buildGroups_lines (cfg : Config) (enriched : list Line) :
  flat_map (fun e => fst (snd e)) (buildGroups cfg enriched)
  = List.concat (map snd (groupBy (fun d => keyFor cfg (g d)) enriched)).
Proof.
  unfold buildGroups. rewrite flat_map_concat_map, map_map. reflexivity.
Qed.

Lemma length_concat_sum {A : Type} (ls : list (list A)) :
  List.length (List.concat ls) = list_sum (map (@List.length A) ls).
Proof.
  induction ls as [|l ls IH]; simpl; [reflexivity|]. now rewrite length_app, IH.
Qed.

Lemma buildGroups_perm (cfg : Config) (enriched : list Line) :
  Permutation (flat_map (fun e => fst (snd e)) (buildGroups cfg enriched)) enriched.
Proof.
  rewrite buildGroups_lines. apply groupBy_perm.
Qed.

(** Property X7.  The groups of [buildGroups] partition the lines: put
    together, their items are the lines, each once; no key has two groups;
    a group holds, in order of arrival, exactly the lines with its key and
    at least one; and the group sizes add up to the number of lines. *)
Theorem buildGroups_partition (cfg : Config) (enriched : list Line) :
  Permutation (flat_map (fun e => fst (snd e)) (buildGroups cfg enriched)) enriched
  /\ NoDup (map fst (buildGroups cfg enriched))
  /\ (forall e, In e (buildGroups cfg enriched) ->
        fst (snd e) <> []
        /\ fst (snd e)
           = filter (fun d => String.eqb (keyFor cfg (g d)) (fst e)) enriched
        /\ n (snd (snd e)) = List.length (fst (snd e)))
  /\ list_sum (map (fun e => n (snd (snd e))) (buildGroups cfg enriched))
     = List.length enriched.
Proof.
  pose proof (groupBy_perm (fun d => keyFor cfg (g d)) enriched) as P.
  split; [|split; [|split]].
  - rewrite buildGroups_lines. exact P.
  - unfold buildGroups. rewrite map_map. simpl.
    apply (bf_nodup _ _ _ (groupBy_ok _ enriched)).
  - intros e He. destruct (buildGroups_items _ _ _ He) as [H1 H2].
    apply buildGroups_In in He. destruct He as [_ ->]. auto.
  - rewrite <- (Permutation_length P), length_concat_sum.
    unfold buildGroups. rewrite !map_map. reflexivity.
Qed.

(** Property X8.  The issues hold one row per retained line: their
    identifying columns (patient, date, attributes, charges) are those of
    the lines, each line once, and each row is the classification of a line
    against the statistics of the group that holds it. *)
Theorem outIssues_one_per_line (cfg : Config) (rows : list Raw.Row) :
  Permutation
    (map (fun i => (iPatient i, iDOS i, iAttrs i, iCharges i)) (outIssues cfg rows))
    (map (fun d => (patient d, dos d, g d, charges d)) (enrichRows rows))
  /\ List.length (outIssues cfg rows) = List.length (enrichRows rows)
  /\ (forall i, In i (outIssues cfg rows) ->
        exists e d, In e (buildGroups cfg (enrichRows rows))
                    /\ In d (fst (snd e))
                    /\ keyFor cfg (g d) = fst e
                    /\ i = classify cfg (snd (snd e)) d).
Proof.
  assert (P : Permutation
                (map (fun i => (iPatient i, iDOS i, iAttrs i, iCharges i))
                     (outIssues cfg rows))
                (map (fun d => (patient d, dos d, g d, charges d)) (enrichRows rows))).
  { rewrite <- (buildGroups_perm cfg (enrichRows rows)). unfold outIssues, issuesOfGroup.
    generalize (buildGroups cfg (enrichRows rows)). intro groups.
    induction groups as [|e groups IH]; simpl; [apply perm_nil|].
    rewrite !map_app, map_map. simpl. now apply Permutation_app_head. }
  split; [exact P|]. split.
  - apply Permutation_length in P. now rewrite !length_map in P.
  - intros i Hi. apply outIssues_In in Hi. destruct Hi as [e [d [He [Hd ->]]]].
    exists e, d. repeat split; try assumption.
    destruct (buildGroups_items _ _ _ He) as [_ E]. rewrite E in Hd.
    apply filter_In in Hd. destruct Hd as [_ Hk]. now apply String.eqb_eq.
Qed.

(** ** Classification in terms of amounts *)

Lemma percentDelta_value (v ref : Q) :
  ~ Dbl.fl ref == 0 ->
  percentDelta v ref
  = Dbl.mul (Dbl.div (Dbl.sub (Dbl.fl v) (Dbl.fl ref)) (Dbl.fl ref)) 100.
Proof.
  intro H. unfold percentDelta. cbv zeta.
  destruct (Qeq_bool (Dbl.fl ref) 0) eqn:E; [|reflexivity].
  apply Qeq_bool_iff in E. contradiction.
Qed.

Lemma percentDelta_flat (v ref : Q) : Dbl.fl ref == 0 -> percentDelta v ref = 0.
Proof.
  intro H. unfold percentDelta. cbv zeta. apply Qeq_bool_iff in H. now rewrite H.
Qed.

(** The deviation rises with the amount. *)
Lemma percentDelta_mono (v v' ref : Q) :
  0 <= ref -> v <= v' -> percentDelta v ref <= percentDelta v' ref.
Proof.
  intros Hr H.
  destruct (Qeq_dec (Dbl.fl ref) 0) as [Hz | N].
  - rewrite !(percentDelta_flat _ _ Hz). apply Qle_refl.
  - rewrite !(percentDelta_value _ _ N).
    pose proof (fl_nonneg ref Hr) as Pb.
    set (b := Dbl.fl ref) in *. assert (Hb : 0 < b) by lra.
    unfold Dbl.mul, Dbl.div, Dbl.sub.
    apply fl_mono. apply Qmult_le_compat_r; [|discriminate].
    apply fl_mono. apply Qmult_le_compat_r; [|apply Qlt_le_weak, Qinv_lt_0_compat, Hb].
    apply fl_mono. pose proof (fl_mono v v' H). lra.
Qed.

Lemma percentDelta_same (v ref : Q) : v == ref -> percentDelta v ref == 0.
Proof.
  intro H.
  destruct (Qeq_dec (Dbl.fl ref) 0) as [Hz | N].
  - rewrite (percentDelta_flat _ _ Hz). reflexivity.
  - rewrite (percentDelta_value _ _ N). rewrite H.
    unfold Dbl.mul, Dbl.div, Dbl.sub.
    assert (A : Dbl.fl ref - Dbl.fl ref == 0) by ring.
    rewrite (fl_zero _ A).
    assert (B : 0 / Dbl.fl ref == 0) by (unfold Qdiv; ring).
    rewrite (fl_zero _ B).
    assert (C : 0 * 100 == 0) by ring.
    rewrite (fl_zero _ C). reflexivity.
Qed.

Lemma percentDelta_sign (v ref : Q) :
  0 <= ref ->
  (ref <= v -> 0 <= percentDelta v ref) /\ (v <= ref -> percentDelta v ref <= 0).
Proof.
  intro Hr. pose proof (percentDelta_same ref ref (Qeq_refl ref)) as Z.
  split; intro H.
  - pose proof (percentDelta_mono ref v ref Hr H). lra.
  - pose proof (percentDelta_mono v ref ref Hr H). lra.
Qed.

(** Scaled by the proxy as the program holds it, the deviation is within
    about a thousand roundings of the exact one. *)
Lemma percentDelta_error (m p : Q) :
  0 <= m -> 1 # 100 <= p ->
  p * (1 - Dbl.u) <= Dbl.fl p
  /\ Dbl.fl p <= p * (1 + Dbl.u)
  /\ Qabs (percentDelta m p * Dbl.fl p - 100 * (m - p)) <= 1001 * Dbl.u * (m + p).
Proof.
  intros Hm Hp.
  assert (Hn : Dbl.pow2 (-1022) <= Qabs p).
  { rewrite (Qabs_pos p) by lra. apply Qle_trans with (1 # 100); [|exact Hp].
    apply Qle_bool_iff. vm_compute. reflexivity. }
  pose proof (fl_error_rel p Hn) as E2. rewrite (Qabs_pos p) in E2 by lra.
  pose proof (fl_error_gen m) as E1. rewrite (Qabs_pos m) in E1 by lra.
  rewrite u_value in *.
  apply Qabs_Qle_condition in E1, E2.
  set (a := Dbl.fl m) in *. set (b := Dbl.fl p) in *.
  assert (Hb : 0 < b) by lra.
  assert (N : ~ b == 0) by lra.
  split; [lra|]. split; [lra|].
  unfold b at 1. rewrite (percentDelta_value m p N). fold a b.
  unfold Dbl.mul, Dbl.div, Dbl.sub.
  set (d := a - b). set (s := Dbl.fl d). set (r := s / b). set (q := Dbl.fl r).
  set (y := q * 100). set (dl := Dbl.fl y).
  pose proof (fl_error_gen d) as E3. fold s in E3.
  pose proof (fl_error_gen r) as E4. fold q in E4.
  pose proof (fl_error_gen y) as E5. fold dl in E5.
  rewrite u_value in *.
  assert (Rb : r * b == s) by (unfold r; field; exact N).
  assert (F4 : Qabs (q * b - s) <= (1 # 9007199254740992) * Qabs s
                                   + (1 # 9007199254740992) * (1 # 1000000) * b).
  { assert (A : q * b - s == (q - r) * b) by (rewrite <- Rb; ring).
    assert (B : Qabs s == Qabs r * b) by (rewrite <- Rb, Qabs_Qmult, (Qabs_pos b); [reflexivity | lra]).
    rewrite A, B, Qabs_Qmult, (Qabs_pos b) by lra.
    assert (C : Qabs (q - r) * b
                <= ((1 # 9007199254740992) * Qabs r
                    + (1 # 9007199254740992) * (1 # 1000000)) * b)
      by (apply Qmult_le_compat_r; [exact E4 | lra]).
    lra. }
  assert (F5 : Qabs (dl * b - 100 * (q * b))
               <= (100 # 9007199254740992) * Qabs (q * b)
                  + (1 # 9007199254740992) * (1 # 1000000) * b).
  { assert (A : dl * b - 100 * (q * b) == (dl - y) * b) by (unfold y; ring).
    assert (B : Qabs y * b == 100 * Qabs (q * b)).
    { unfold y. rewrite !Qabs_Qmult, (Qabs_pos b), (Qabs_pos 100) by (try lra; discriminate).
      ring. }
    rewrite A, Qabs_Qmult, (Qabs_pos b) by lra.
    assert (C : Qabs (dl - y) * b
                <= ((1 # 9007199254740992) * Qabs y
                    + (1 # 9007199254740992) * (1 # 1000000)) * b)
      by (apply Qmult_le_compat_r; [exact E5 | lra]).
    lra. }
  clearbody dl q. clear E4 E5 Rb r y.
  set (qb := q * b) in *. set (db := dl * b) in *. clearbody qb db.
  unfold d in *. clear d. clearbody s a b.
  apply Qabs_Qle_condition in F4, F5, E3.
  apply Qabs_Qle_condition.
  destruct (Qlt_le_dec (a - b) 0) as [S1 | S1];
    [rewrite (Qabs_neg (a - b)) in E3 by lra | rewrite (Qabs_pos (a - b)) in E3 by lra];
    (destruct (Qlt_le_dec s 0) as [S2 | S2];
     [rewrite (Qabs_neg s) in F4 by lra | rewrite (Qabs_pos s) in F4 by lra]);
    (destruct (Qlt_le_dec qb 0) as [S3 | S3];
     [rewrite (Qabs_neg qb) in F5 by lra | rewrite (Qabs_pos qb) in F5 by lra]);
    split; lra.
Qed.

Lemma classify_status (cfg : Config) (stat : GroupStat) (d : Line) :
  Status (classify cfg stat d)
  = let delta := percentDelta (metricOf cfg d) (proxy stat) in
    if Qltb (threshold cfg) (Qabs delta)
    then (if Qltb delta 0 then underLabel cfg else overLabel cfg)
    else withinRange.
Proof.
  unfold classify, underLabel, overLabel. simpl.
  destruct (Qltb (threshold cfg) _); [|reflexivity].
  destruct (Qltb _ 0); now destruct (benchmark cfg).
Qed.

Lemma labels_distinct (cfg : Config) :
  underLabel cfg <> overLabel cfg
  /\ underLabel cfg <> withinRange
  /\ overLabel cfg <> withinRange.
Proof.
  unfold underLabel, overLabel, withinRange.
  destruct (benchmark cfg); repeat split; discriminate.
Qed.

(** The label in terms of the computed deviation. *)
Lemma status_cases (cfg : Config) (stat : GroupStat) (d : Line) :
  0 <= threshold cfg ->
  let delta := percentDelta (metricOf cfg d) (proxy stat) in
  (Status (classify cfg stat d) = overLabel cfg <-> threshold cfg < delta)
  /\ (Status (classify cfg stat d) = underLabel cfg <-> delta < - threshold cfg)
  /\ (Status (classify cfg stat d) = withinRange <-> Qabs delta <= threshold cfg).
Proof.
  intros Ht delta. rewrite classify_status. fold delta. cbv zeta.
  destruct (labels_distinct cfg) as [D1 [D2 D3]].
  destruct (Qltb (threshold cfg) (Qabs delta)) eqn:A;
    [destruct (Qltb delta 0) eqn:B|]; qprop.
  - assert (EA : Qabs delta == - delta) by (apply Qabs_neg; lra).
    split; [|split]; split; intro H;
      solve [reflexivity | lra | exfalso; congruence | exfalso; lra].
  - assert (EA : Qabs delta == delta) by (apply Qabs_pos; lra).
    split; [|split]; split; intro H;
      solve [reflexivity | lra | exfalso; congruence | exfalso; lra].
  - pose proof (Qle_Qabs delta) as L1. pose proof (Qle_Qabs (- delta)) as L2.
    rewrite Qabs_opp in L2.
    split; [|split]; split; intro H;
      solve [reflexivity | lra | exfalso; congruence | exfalso; lra].
Qed.

(** Property X9.  Against a proxy [p] of at least one cent and a threshold
    [t] from 0 to 100, a line with metric [m] is labelled under when [m] is
    below [p (1 - t/100)], over when it is above [p (1 + t/100)] and within
    range when it lies between the two, provided [m] is not within a
    sliver, [2^-40] of [m + p], of an edge: there the rounding of the three
    operations decides (at proxy 100 and threshold 7 a metric of 107, on
    the edge, is labelled over).  Everywhere, a line labelled under has a
    metric below the proxy and a line labelled over one above it, and the
    label follows the amount: above a line labelled over every line is
    labelled over, below a line labelled under every line is labelled
    under. *)
Theorem classify_bands (cfg : Config) (stat : GroupStat) (d d' : Line) :
  0 <= threshold cfg -> threshold cfg <= 100 ->
  1 # 100 <= proxy stat ->
  0 <= metricOf cfg d ->
  let m := metricOf cfg d in
  let p := proxy stat in
  let t := threshold cfg in
  (m <= p * (1 - t / 100) - sliver m p -> Status (classify cfg stat d) = underLabel cfg)
  /\ (p * (1 + t / 100) + sliver m p <= m -> Status (classify cfg stat d) = overLabel cfg)
  /\ (p * (1 - t / 100) + sliver m p <= m /\ m <= p * (1 + t / 100) - sliver m p ->
      Status (classify cfg stat d) = withinRange)
  /\ (Status (classify cfg stat d) = underLabel cfg -> m < p)
  /\ (Status (classify cfg stat d) = overLabel cfg -> p < m)
  /\ (m <= metricOf cfg d' ->
      (Status (classify cfg stat d) = overLabel cfg ->
       Status (classify cfg stat d') = overLabel cfg)
      /\ (Status (classify cfg stat d') = underLabel cfg ->
          Status (classify cfg stat d) = underLabel cfg))
  /\ (let edge := groupStat paidAtSeven "k" [enrichRow 0 (lineOf "Ann" 100 0 0 200 0)] in
      let line := enrichRow 1 (lineOf "Bob" 107 0 0 200 0) in
      metricOf paidAtSeven line == proxy edge * (1 + threshold paidAtSeven / 100)
      /\ Status (classify paidAtSeven edge line) = overLabel paidAtSeven).
Proof.
  intros Ht Ht' Hp Hm m p t.
  destruct (status_cases cfg stat d Ht) as [SO [SU SW]].
  destruct (status_cases cfg stat d' Ht) as [SO' [SU' _]].
  cbv zeta in SO, SU, SW, SO', SU'.
  fold m p t in SO, SU, SW, SO', SU', Ht, Ht', Hp, Hm.
  set (m' := metricOf cfg d') in *.
  generalize (Status (classify cfg stat d)) (Status (classify cfg stat d'))
             SO SU SW SO' SU'.
  clear SO SU SW SO' SU'. intros st st' SO SU SW SO' SU'.
  clearbody m p t m'.
  destruct (percentDelta_error m p Hm Hp) as [B1 [B2 E]].
  destruct (percentDelta_sign m p) as [G1 G2]; [lra|].
  assert (Ediv : t / 100 == t * (1 # 100)) by field.
  assert (P40 : Dbl.pow2 (-40) == 1 # 1099511627776) by reflexivity.
  unfold sliver. rewrite Ediv, P40.
  rewrite u_value in B1, B2, E. apply Qabs_Qle_condition in E.
  set (dl := percentDelta m p) in *. set (b := Dbl.fl p) in *.
  assert (T1 : b * t <= p * (1 + (1 # 9007199254740992)) * t)
    by (apply Qmult_le_compat_r; lra).
  assert (T2 : p * (1 - (1 # 9007199254740992)) * t <= b * t)
    by (apply Qmult_le_compat_r; lra).
  assert (T3 : t * p <= 100 * p) by (apply Qmult_le_compat_r; lra).
  assert (T4 : 0 <= t * p) by (apply Qmult_le_0_compat; lra).
  assert (Hb : 0 < b) by lra.
  split; [|split; [|split; [|split; [|split; [|split]]]]].
  - intro H. apply SU. apply Qnot_le_lt. intro C.
    assert (C1 : - t * b <= dl * b) by (apply Qmult_le_compat_r; lra).
    lra.
  - intro H. apply SO. apply Qnot_le_lt. intro C.
    assert (C1 : dl * b <= t * b) by (apply Qmult_le_compat_r; lra).
    lra.
  - intros [H1 H2]. apply SW. apply Qabs_Qle_condition. split.
    + apply Qnot_lt_le. intro C.
      assert (C1 : dl * b < - t * b) by (apply Qmult_lt_compat_r; lra).
      lra.
    + apply Qnot_lt_le. intro C.
      assert (C1 : t * b < dl * b) by (apply Qmult_lt_compat_r; lra).
      lra.
  - intro H. apply SU in H. apply Qnot_le_lt. intro C. apply G1 in C. lra.
  - intro H. apply SO in H. apply Qnot_le_lt. intro C. apply G2 in C. lra.
  - intro Hd'.
    assert (M : dl <= percentDelta m' p)
      by (apply percentDelta_mono; [lra | exact Hd']).
    split; intro H.
    + apply SO'. apply SO in H. lra.
    + apply SU. apply SU' in H. lra.
  - split; vm_compute; reflexivity.
Qed.

(** Scenario 1: paid 130 against a proxy of 100 at 10%. *)
Lemma classify_bands_witness :
  0 <= threshold paidDefault
  /\ threshold paidDefault <= 100
  /\ 1 # 100 <= proxy (groupStat paidDefault "k" [enrichRow 0 (lineOf "Ann" 100 0 0 200 0)])
  /\ 0 <= metricOf paidDefault (enrichRow 1 (lineOf "Bob" 130 0 0 200 0))
  /\ Status (classify paidDefault
               (groupStat paidDefault "k" [enrichRow 0 (lineOf "Ann" 100 0 0 200 0)])
               (enrichRow 1 (lineOf "Bob" 130 0 0 200 0)))
     = overLabel paidDefault.
Proof.
  assert (Ht : 0 <= threshold paidDefault) by discriminate.
  assert (Ht' : threshold paidDefault <= 100) by discriminate.
  assert (Hp : 1 # 100 <= proxy (groupStat paidDefault "k"
                                   [enrichRow 0 (lineOf "Ann" 100 0 0 200 0)]))
    by (apply Qle_bool_iff; vm_compute; reflexivity).
  assert (Hm : 0 <= metricOf paidDefault (enrichRow 1 (lineOf "Bob" 130 0 0 200 0)))
    by discriminate.
  split; [exact Ht|]. split; [exact Ht'|]. split; [exact Hp|]. split; [exact Hm|].
  destruct (classify_bands paidDefault _ _ (enrichRow 1 (lineOf "Bob" 130 0 0 200 0))
              Ht Ht' Hp Hm) as [_ [Hover _]].
  apply Hover. apply Qle_bool_iff. vm_compute. reflexivity.
Defined.

(** ** Statistics of a group *)

Lemma d3_min_from (l : list Q) (x : Q) :
  exists m,
    fold_left (fun m v => match m with
                          | None => Some v
                          | Some x => if Qltb v x then Some v else m
                          end) l (Some x) = Some m
    /\ (m = x \/ In m l) /\ m <= x /\ forall v, In v l -> m <= v.
Proof.
  revert x. induction l as [|y l IH]; intro x; simpl.
  - exists x. repeat split; [now left | lra | intros _ []].
  - destruct (Qltb y x) eqn:E; qprop.
    + destruct (IH y) as [m [H1 [H2 [H3 H4]]]]. exists m. repeat split.
      * exact H1.
      * right. destruct H2 as [-> | H2]; [now left | now right].
      * lra.
      * intros v [<- | Hv]; [exact H3 | now apply H4].
    + destruct (IH x) as [m [H1 [H2 [H3 H4]]]]. exists m. repeat split.
      * exact H1.
      * destruct H2 as [-> | H2]; [now left | right; now right].
      * exact H3.
      * intros v [<- | Hv]; [lra | now apply H4].
Qed.

Lemma d3_min_spec (l : list Q) :
  l <> [] ->
  exists m, d3_min l = Some m /\ In m l /\ forall v, In v l -> m <= v.
Proof.
  destruct l as [|x l]; [congruence|]. intros _.
  unfold d3_min. simpl.
  destruct (d3_min_from l x) as [m [H1 [H2 [H3 H4]]]].
  exists m. repeat split.
  - exact H1.
  - destruct H2 as [-> | H2]; [now left | now right].
  - intros v [<- | Hv]; [exact H3 | now apply H4].
Qed.

Lemma mean_sum_nonneg (l : list Q) (s : Q) :
  (forall v, In v l -> 0 <= v) -> 0 <= s ->
  0 <= fold_left (fun sum value => Dbl.add sum (Dbl.fl value)) l s.
Proof.
  revert s. induction l as [|x l IH]; intros s H Hs; simpl; [exact Hs|].
  apply IH; [intros v Hv; apply H; now right|].
  unfold Dbl.add. apply fl_nonneg.
  pose proof (fl_nonneg x (H x (or_introl eq_refl))). lra.
Qed.

Lemma mean_nonneg (l : list Q) (m : Q) :
  (forall v, In v l -> 0 <= v) -> d3_mean l = Some m -> 0 <= m.
Proof.
  intros H E. destruct l as [|x l]; [discriminate|].
  unfold d3_mean in E. injection E as <-.
  unfold Dbl.div. apply fl_nonneg.
  assert (Hn : 0 < inject_Z (Z.of_nat (List.length (x :: l)))).
  { change 0 with (inject_Z 0). rewrite <- Zlt_Qlt. simpl. lia. }
  apply Qle_shift_div_l; [exact Hn|].
  pose proof (mean_sum_nonneg (x :: l) 0 H (Qle_refl 0)) as S.
  rewrite Qmult_0_l. exact S.
Qed.

Lemma median_bounds (l : list Q) (a b m : Q) :
  (forall v, In v l -> a <= v /\ v <= b) ->
  d3_median l = Some m -> a <= m /\ m <= b.
Proof.
  intros H E. unfold d3_median in E.
  destruct (nth_error _ ((List.length l - 1) / 2)) as [lo|] eqn:Elo; [|discriminate].
  destruct (nth_error _ (List.length l / 2)) as [hi|] eqn:Ehi; [|discriminate].
  injection E as <-.
  apply nth_error_In, jsSort_In, H in Elo.
  apply nth_error_In, jsSort_In, H in Ehi.
  destruct (Nat.even (List.length l)); lra.
Qed.

Lemma d3_median_some (l : list Q) : l <> [] -> exists m, d3_median l = Some m.
Proof.
  intro H. unfold d3_median.
  assert (Hlen : List.length (jsSort (fun a b => a - b) l) = List.length l)
    by apply Permutation_length, jsSort_perm.
  assert (Hpos : (0 < List.length l)%nat) by (destruct l; [congruence | simpl; lia]).
  destruct (nth_error _ ((List.length l - 1) / 2)) as [lo|] eqn:Elo.
  - destruct (nth_error _ (List.length l / 2)) as [hi|] eqn:Ehi; [eauto|].
    apply nth_error_None in Ehi. rewrite Hlen in Ehi.
    pose proof (Nat.div_lt (List.length l) 2 Hpos). lia.
  - apply nth_error_None in Elo. rewrite Hlen in Elo.
    pose proof (Nat.Div0.div_le_upper_bound (List.length l - 1) 2 (List.length l - 1)).
    lia.
Qed.

Lemma list_eq_dec_nil {A : Type} (l : list A) : {l = []} + {l <> []}.
Proof. destruct l; [now left | right; discriminate]. Qed.

Lemma freq_bump_total (v : Q) (t : list (Q * nat)) :
  list_sum (map snd (freq_bump v t)) = S (list_sum (map snd t)).
Proof.
  induction t as [|[k c] t IH]; simpl; [reflexivity|].
  destruct (Qeq_bool k v); simpl; [reflexivity | rewrite IH; lia].
Qed.

Lemma freqTable_total (l : list Q) : list_sum (map snd (freqTable l)) = List.length l.
Proof.
  induction l as [|v l IH] using rev_ind; [reflexivity|].
  rewrite freqTable_snoc, freq_bump_total, IH, length_app. simpl. lia.
Qed.

Lemma list_sum_perm (l1 l2 : list nat) : Permutation l1 l2 -> list_sum l1 = list_sum l2.
Proof.
  induction 1; simpl; lia.
Qed.

Lemma orZero_bounds (o : option Q) (a b : Q) :
  a <= b -> (forall m, o = Some m -> a <= m /\ m <= b) ->
  (o = None -> a <= 0 /\ 0 <= b) -> a <= orZero o /\ orZero o <= b.
Proof.
  intros Hab H1 H2. destruct o as [m|]; simpl; [now apply H1 | now apply H2].
Qed.

(** Property X10.  In the statistics of a group, [min] and [max] bound the
    metric of every line and the median lies between them; [n] counts the
    lines, of which at most [n] have allowed equal to charges; and the
    counts of the stored frequency table add up to [n].  The mean, a
    quotient of a running binary64 sum, is not negative when no metric is,
    but it need not lie between [min] and [max]: for three lines paid 45.67
    it is 45.669999999999995, below all of them. *)
Theorem groupStat_bounds (cfg : Config) (key : string) (items : list Line) :
  let s := groupStat cfg key items in
  (forall d, In d items -> min s <= metricOf cfg d /\ metricOf cfg d <= max s)
  /\ (min s <= median s /\ median s <= max s)
  /\ ((forall d, In d items -> 0 <= metricOf cfg d) -> 0 <= mean s)
  /\ n s = List.length items
  /\ (nEqCharges s <= n s)%nat
  /\ list_sum (map snd (topValues s)) = n s
  /\ (let thrice := groupStat paidDefault "k" (enrichRows thriceRows) in
      min thrice == 4567 # 100
      /\ max thrice == 4567 # 100
      /\ mean thrice < min thrice
      /\ (4567 # 100) - mean thrice < 1 # 100000000000000).
Proof.
  cbn [groupStat min max mean median n nEqCharges topValues].
  destruct (list_eq_dec_nil items) as [-> | Hitems].
  { split; [intros d []|]. simpl.
    repeat split; try lra; try lia; try reflexivity; vm_compute; reflexivity. }
  assert (Hne : metricAll cfg items <> []).
  { unfold metricAll. destruct items; [congruence | discriminate]. }
  destruct (d3_min_spec _ Hne) as [lo [Elo [_ Hlo]]].
  destruct (d3_max_spec _ Hne) as [hi [Ehi [_ Hhi]]].
  rewrite Elo, Ehi. simpl orZero.
  assert (B : forall v, In v (metricAll cfg items) -> lo <= v /\ v <= hi)
    by (intros v Hv; split; [now apply Hlo | now apply Hhi]).
  assert (Hlh : lo <= hi).
  { destruct (metricAll cfg items) as [|v l]; [congruence|].
    destruct (B v (or_introl eq_refl)). lra. }
  split; [|split; [|split; [|split; [|split; [|split]]]]].
  - intros d Hd. apply B. unfold metricAll. now apply in_map.
  - destruct (d3_median (metricAll cfg items)) as [m|] eqn:Em.
    + apply (median_bounds _ _ _ _ B Em).
    + destruct (d3_median_some _ Hne) as [m Hm]. congruence.
  - intro Hpos. destruct (d3_mean (metricAll cfg items)) as [m|] eqn:Em.
    + simpl. apply (mean_nonneg (metricAll cfg items)); [|exact Em].
      intros v Hv. unfold metricAll in Hv. apply in_map_iff in Hv.
      destruct Hv as [d [<- Hd]]. now apply Hpos.
    + apply Qle_refl.
  - reflexivity.
  - apply filter_length_le.
  - rewrite (list_sum_perm _ _ (Permutation_map snd (jsSort_perm cmpFreq _))).
    rewrite freqTable_total. unfold metricAll. now rewrite !length_map.
  - repeat split; vm_compute; reflexivity.
Qed.

(** ** Tie warnings *)

Lemma StronglySorted_map {A B : Type} (R : A -> A -> Prop) (R' : B -> B -> Prop)
      (f : A -> B) (l : list A) :
  (forall a b, R a b -> R' (f a) (f b)) ->
  StronglySorted R l -> StronglySorted R' (map f l).
Proof.
  intros HR. induction 1 as [|a l Hs IH Ha]; simpl; constructor; [exact IH|].
  apply Forall_map. eapply Forall_impl; [|exact Ha]. intros b. apply HR.
Qed.

(** A multiset of numbers has one descending arrangement. *)
Lemma descending_unique (l1 l2 : list nat) :
  StronglySorted ge l1 -> StronglySorted ge l2 -> Permutation l1 l2 -> l1 = l2.
Proof.
  intros S1. revert l2. induction S1 as [|a l1 S1 IH Ha]; intros l2 S2 P.
  - now apply Permutation_nil in P.
  - destruct S2 as [|b l2 S2 Hb].
    + apply Permutation_sym, Permutation_nil in P. discriminate P.
    + rewrite Forall_forall in Ha, Hb.
      assert (Eab : a = b).
      { assert (Hb1 : In b (a :: l1))
          by (apply (Permutation_in _ (Permutation_sym P)); now left).
        assert (Ha2 : In a (b :: l2)) by (apply (Permutation_in _ P); now left).
        destruct Hb1 as [-> | Hb1]; [reflexivity|].
        destruct Ha2 as [-> | Ha2]; [reflexivity|].
        pose proof (Ha b Hb1). pose proof (Hb a Ha2). lia. }
      subst b. f_equal. apply IH; [exact S2|].
      now apply Permutation_cons_inv in P.
Qed.

(** Both rankings list the same frequencies in the same places. *)
Lemma rankings_same_counts (t : list (Q * nat)) :
  map snd (jsSort cmpFreqThenValue t) = map snd (jsSort cmpFreq t).
Proof.
  apply descending_unique.
  - apply StronglySorted_map with (R := rankBefore); [|apply ranked_sorted].
    intros a b [H | [H _]]; lia.
  - apply StronglySorted_map with (R := freqBefore); [|apply byFreq_sorted].
    intros a b H. unfold freqBefore in H. lia.
  - apply Permutation_map.
    rewrite (jsSort_perm cmpFreqThenValue t). apply Permutation_sym, jsSort_perm.
Qed.

Lemma freqAt_counts (i : nat) (t : list (Q * nat)) : freqAt i t = nth i (map snd t) 0%nat.
Proof.
  unfold freqAt, countOf. revert i. induction t as [|e t IH]; intros [|i]; simpl; auto.
Qed.

Lemma freqTable_counts_pos (l : list Q) (e : Q * nat) :
  In e (freqTable l) -> (1 <= snd e)%nat.
Proof.
  intro H. destruct (tf_sound _ _ (freqTable_ok l) e H) as [Hin ->].
  now apply occurrences_pos.
Qed.

(** Property X11.  The "near tie" flag means that there are at least two
    distinct amounts and that the second frequency is at least six tenths of
    the first; a multi-modal group is always a near tie. *)
Theorem nearTie_meaning (cfg : Config) (key : string) (items : list Line) :
  let s := groupStat cfg key items in
  (nearTie s = true <->
   (1 < List.length (topValues s))%nat
   /\ (6 * freqAt 0 (topValues s) <= 10 * freqAt 1 (topValues s))%nat)
  /\ (multiModal s = true <->
      (1 < List.length (topValues s))%nat
      /\ freqAt 0 (topValues s) = freqAt 1 (topValues s))
  /\ (multiModal s = true -> nearTie s = true).
Proof.
  cbn [groupStat nearTie multiModal topValues].
  set (top := jsSort cmpFreq (freqTable (map round2 (metricAll cfg items)))).
  fold (freqAt 0 top) (freqAt 1 top).
  assert (Hpos : (1 < List.length top)%nat -> (1 <= freqAt 0 top)%nat).
  { intro H. unfold freqAt, countOf. destruct top as [|e top'] eqn:E; [simpl in H; lia|].
    simpl. apply (freqTable_counts_pos (map round2 (metricAll cfg items))).
    apply (jsSort_In cmpFreq). fold top. rewrite E. now left. }
  assert (Near : Qle_bool (6 # 10)
                   (inject_Z (Z.of_nat (freqAt 1 top)) / inject_Z (Z.of_nat (freqAt 0 top)))
                 = true
                 <-> (1 <= freqAt 0 top -> 6 * freqAt 0 top <= 10 * freqAt 1 top)%nat
                     /\ (freqAt 0 top = 0 -> False)%nat).
  { rewrite Qle_bool_iff. destruct (freqAt 0 top) as [|c0] eqn:E0.
    - split.
      + intro H. exfalso. revert H. apply Qlt_not_le.
        unfold Qdiv. simpl. rewrite Qmult_0_r. reflexivity.
      + intros [_ F]. now contradiction F.
    - assert (Hc : 0 < inject_Z (Z.of_nat (S c0))).
      { change 0 with (inject_Z 0). rewrite <- Zlt_Qlt. lia. }
      split.
      + intro H. split; [intros _|discriminate].
        assert (M : (6 # 10) * inject_Z (Z.of_nat (S c0)) <= inject_Z (Z.of_nat (freqAt 1 top))).
        { apply (Qmult_le_r _ _ _ Hc) in H.
          assert (E : inject_Z (Z.of_nat (freqAt 1 top)) / inject_Z (Z.of_nat (S c0))
                      * inject_Z (Z.of_nat (S c0))
                      == inject_Z (Z.of_nat (freqAt 1 top))) by (field; lra).
          now rewrite E in H. }
        unfold Qle in M. simpl in M. lia.
      + intros [H _]. specialize (H ltac:(lia)).
        apply Qle_shift_div_l; [exact Hc|].
        unfold Qle. simpl. lia. }
  split; [|split].
  - rewrite andb_true_iff, Nat.ltb_lt, Near. split.
    + intros [H1 [H2 _]]. split; [exact H1 | apply H2, Hpos, H1].
    + intros [H1 H2]. split; [exact H1|]. split; [intros _; exact H2|].
      intro F. pose proof (Hpos H1). lia.
  - rewrite andb_true_iff, Nat.ltb_lt, Nat.eqb_eq. reflexivity.
  - rewrite !andb_true_iff, Nat.ltb_lt, Nat.eqb_eq, Near.
    intros [H1 H2]. split; [exact H1|]. pose proof (Hpos H1). split; [lia | lia].
Qed.

(** Property X12.  In a group of more than two lines whose candidate list
    is the whole metric list (as it always is under the paid benchmark) and
    that has no override, the method is "mode (tie→max)" exactly when the
    group is flagged multi-modal. *)
Theorem tie_method_is_multiModal (cfg : Config) (key : string) (items : list Line) :
  (2 < List.length items)%nat ->
  metricForProxy cfg items = metricAll cfg items ->
  lookupOverride key (overrides cfg) = None ->
  (method (groupStat cfg key items) = "mode (tie→max)"%string
   <-> multiModal (groupStat cfg key items) = true).
Proof.
  intros Hn Hcand Hov.
  cbn [groupStat method multiModal]. unfold applyOverride. rewrite Hov, Hcand.
  unfold selectProxy.
  assert (Hlen : (List.length (metricAll cfg items) <=? 2)%nat = false).
  { apply Nat.leb_gt. unfold metricAll. now rewrite length_map. }
  rewrite Hlen. cbn [snd].
  set (T := freqTable (map round2 (metricAll cfg items))).
  fold (countOf (nth_error (jsSort cmpFreq T) 0)).
  pose proof (rankings_same_counts T) as Same.
  change (match nth_error (jsSort cmpFreqThenValue T) 0 with
          | Some e => snd e | None => 0%nat end)
    with (freqAt 0 (jsSort cmpFreqThenValue T)).
  change (match nth_error (jsSort cmpFreqThenValue T) 1 with
          | Some e => snd e | None => 0%nat end)
    with (freqAt 1 (jsSort cmpFreqThenValue T)).
  fold (freqAt 0 (jsSort cmpFreq T)) (freqAt 1 (jsSort cmpFreq T)).
  rewrite !freqAt_counts, Same.
  assert (Hlen2 : List.length (jsSort cmpFreq T) = List.length (map snd (jsSort cmpFreq T)))
    by now rewrite length_map.
  rewrite Hlen2.
  assert (Hpos : forall c, In c (map snd (jsSort cmpFreq T)) -> (1 <= c)%nat).
  { intros c Hc. apply in_map_iff in Hc. destruct Hc as [e [<- He]].
    apply jsSort_In in He. now apply (freqTable_counts_pos _ e He). }
  assert (Hne : map snd (jsSort cmpFreq T) <> []).
  { assert (L : List.length (map snd (jsSort cmpFreq T))
                = List.length T).
    { rewrite length_map. apply Permutation_length, jsSort_perm. }
    intro F. rewrite F in L. simpl in L.
    assert (Z : list_sum (map snd T) = List.length items).
    { unfold T. rewrite freqTable_total. unfold metricAll. now rewrite !length_map. }
    destruct T; [simpl in Z; lia | discriminate L]. }
  destruct (map snd (jsSort cmpFreq T)) as [|c0 [|c1 cs]]; [congruence| |].
  - simpl. pose proof (Hpos c0 (or_introl eq_refl)).
    destruct (c0 =? 0)%nat eqn:E; [apply Nat.eqb_eq in E; lia|].
    split; discriminate.
  - simpl. destruct (c0 =? c1)%nat; split; try reflexivity; discriminate.
Qed.

(** Scenario: paid 50, 80, 50, 80 and 7. *)
Lemma tie_method_is_multiModal_witness :
  let items := enrichRows [lineOf "A" 50 0 0 100 0; lineOf "B" 80 0 0 100 0;
                           lineOf "C" 50 0 0 100 0; lineOf "D" 80 0 0 100 0;
                           lineOf "E" 7 0 0 100 0] in
  (2 < List.length items)%nat
  /\ metricForProxy paidDefault items = metricAll paidDefault items
  /\ lookupOverride "k" (overrides paidDefault) = None
  /\ multiModal (groupStat paidDefault "k" items) = true
  /\ method (groupStat paidDefault "k" items) = "mode (tie→max)"%string.
Proof.
  cbv zeta.
  set (items := enrichRows [lineOf "A" 50 0 0 100 0; lineOf "B" 80 0 0 100 0;
                           lineOf "C" 50 0 0 100 0; lineOf "D" 80 0 0 100 0;
                           lineOf "E" 7 0 0 100 0]).
  assert (H1 : (2 < List.length items)%nat) by (vm_compute; lia).
  assert (H2 : metricForProxy paidDefault items = metricAll paidDefault items)
    by reflexivity.
  assert (H3 : lookupOverride "k" (overrides paidDefault) = None) by reflexivity.
  assert (H4 : multiModal (groupStat paidDefault "k" items) = true)
    by (vm_compute; reflexivity).
  split; [exact H1|]. split; [exact H2|]. split; [exact H3|]. split; [exact H4|].
  apply (proj2 (tie_method_is_multiModal paidDefault "k" items H1 H2 H3)). exact H4.
Defined.

(** ** The override store *)

Lemma lookup_setEntry_same (k : string) (v : Stored) (m : list (string * Stored)) :
  lookupOverride k (Form.setEntry k v m) = Some v.
Proof.
  induction m as [|[k' v'] m IH]; simpl.
  - now rewrite String.eqb_refl.
  - destruct (String.eqb k' k) eqn:E; simpl; rewrite E; [reflexivity | exact IH].
Qed.

Lemma lookup_setEntry_other (k k' : string) (v : Stored) (m : list (string * Stored)) :
  k' <> k -> lookupOverride k' (Form.setEntry k v m) = lookupOverride k' m.
Proof.
  intro N. induction m as [|[k0 v0] m IH]; simpl.
  - apply String.eqb_neq in N. rewrite String.eqb_sym. now rewrite N.
  - destruct (String.eqb k0 k) eqn:E; simpl.
    + apply String.eqb_eq in E. subst k0.
      assert (E' : String.eqb k k' = false) by (apply String.eqb_neq; congruence).
      now rewrite E'.
    + now rewrite IH.
Qed.

Lemma lookup_removeEntry_same (k : string) (m : list (string * Stored)) :
  lookupOverride k (Form.removeEntry k m) = None.
Proof.
  induction m as [|[k' v'] m IH]; simpl; [reflexivity|].
  destruct (String.eqb k' k) eqn:E; simpl; [exact IH | now rewrite E].
Qed.

Lemma lookup_removeEntry_other (k k' : string) (m : list (string * Stored)) :
  k' <> k -> lookupOverride k' (Form.removeEntry k m) = lookupOverride k' m.
Proof.
  intro N. induction m as [|[k0 v0] m IH]; simpl; [reflexivity|].
  destruct (String.eqb k0 k) eqn:E; simpl.
  - apply String.eqb_eq in E. subst k0.
    assert (E' : String.eqb k k' = false) by (apply String.eqb_neq; congruence).
    now rewrite E'.
  - now rewrite IH.
Qed.

Lemma keyFor_nonempty (cfg : Config) (g : Attrs) : keyFor cfg g <> EmptyString.
Proof.
  unfold keyFor, buildKey, buildKeyNoUnits.
  destruct (includeUnitsInKey cfg); destruct (Insurance g); discriminate.
Qed.

(** Property X13.  The override actions on the store.  A key is formed
    only when payer, procedure code and place of service are all present.
    Applying with a key and a finite amount stores the amount rounded to
    cents under that key and leaves every other key as it was; without a
    key or without a finite amount nothing changes.  Clearing removes that
    key only, and clearing all leaves no key.  No action touches the other
    settings. *)
Theorem override_store (cfg : Config) (f : Form.OvrForm) :
  let k := Form.ovrKey cfg f in
  (k = EmptyString <->
   Insurance (Form.attrs f) = EmptyString
   \/ CPT (Form.attrs f) = EmptyString
   \/ POS (Form.attrs f) = EmptyString)
  /\ (forall a, k <> EmptyString -> Form.amount f = Some a ->
        lookupOverride k (overrides (Form.applyOverride cfg f)) = Some (StNum (round2 a)))
  /\ (forall k', k' <> k ->
        lookupOverride k' (overrides (Form.applyOverride cfg f))
        = lookupOverride k' (overrides cfg))
  /\ (k = EmptyString \/ Form.amount f = None -> Form.applyOverride cfg f = cfg)
  /\ (k <> EmptyString ->
      lookupOverride k (overrides (Form.clearOverride cfg f)) = None)
  /\ (forall k', k' <> k ->
        lookupOverride k' (overrides (Form.clearOverride cfg f))
        = lookupOverride k' (overrides cfg))
  /\ (forall k', lookupOverride k' (overrides (Form.resetOverridesAll cfg)) = None)
  /\ (forall c, c = Form.applyOverride cfg f \/ c = Form.clearOverride cfg f
                \/ c = Form.resetOverridesAll cfg ->
        threshold c = threshold cfg
        /\ benchmark c = benchmark cfg
        /\ decontaminateChargesProxy c = decontaminateChargesProxy cfg
        /\ includeUnitsInKey c = includeUnitsInKey cfg).
Proof.
  intro k. unfold Form.applyOverride, Form.clearOverride, Form.resetOverridesAll.
  fold k.
  split; [|split; [|split; [|split; [|split; [|split; [|split]]]]]].
  - subst k. unfold Form.ovrKey.
    destruct (String.eqb (Insurance (Form.attrs f)) EmptyString) eqn:E1;
      [apply String.eqb_eq in E1; tauto|].
    destruct (String.eqb (CPT (Form.attrs f)) EmptyString) eqn:E2;
      [apply String.eqb_eq in E2; tauto|].
    destruct (String.eqb (POS (Form.attrs f)) EmptyString) eqn:E3;
      [apply String.eqb_eq in E3; tauto|].
    apply String.eqb_neq in E1, E2, E3. simpl.
    split; [intro H; now apply keyFor_nonempty in H | tauto].
  - intros a Hk Ha. apply String.eqb_neq in Hk. rewrite Hk, Ha. simpl.
    apply lookup_setEntry_same.
  - intros k' N. destruct (String.eqb k EmptyString); [reflexivity|].
    destruct (Form.amount f); [|reflexivity]. simpl.
    now apply lookup_setEntry_other.
  - intros [-> | H]; [reflexivity|].
    destruct (String.eqb k EmptyString); [reflexivity | now rewrite H].
  - intro Hk. apply String.eqb_neq in Hk. rewrite Hk. simpl.
    apply lookup_removeEntry_same.
  - intros k' N. destruct (String.eqb k EmptyString); [reflexivity|]. simpl.
    now apply lookup_removeEntry_other.
  - reflexivity.
  - intros c [-> | [-> | ->]].
    + destruct (String.eqb k EmptyString); [auto|]. destruct (Form.amount f); simpl; auto.
    + destruct (String.eqb k EmptyString); simpl; auto.
    + simpl. auto.
Qed.

(** ** An override set through the form reaches its group *)

Lemma keyFor_withOverrides (cfg : Config) (o : list (string * Stored)) (g : Attrs) :
  keyFor (Form.withOverrides cfg o) g = keyFor cfg g.
Proof. reflexivity. Qed.

Lemma round2_idempotent (v : Q) : round2 (round2 v) == round2 v.
Proof.
  destruct (round2_whole_cents v) as [z Hz]. now apply (round2_cents z).
Qed.

(** Property X14.  Take a retained line whose payer, procedure code, place
    of service and modifiers (and units, when units are part of the key)
    are those the form normalises to, payer and place of service being
    present, and a finite amount in the form.  After applying the override
    the group of that line has the amount rounded to cents as proxy and
    "override" as method. *)
Theorem override_via_form (cfg : Config) (f : Form.OvrForm) (a : Q)
        (rows : list Raw.Row) (d : Line) :
  Form.amount f = Some a ->
  In d (enrichRows rows) ->
  Insurance (g d) = Insurance (Form.attrs f) ->
  CPT (g d) = CPT (Form.attrs f) ->
  POS (g d) = POS (Form.attrs f) ->
  Modifiers (g d) = Modifiers (Form.attrs f) ->
  (includeUnitsInKey cfg = true -> Units (g d) = Units (Form.attrs f)) ->
  Insurance (Form.attrs f) <> EmptyString ->
  POS (Form.attrs f) <> EmptyString ->
  exists e,
    In e (buildGroups (Form.applyOverride cfg f) (enrichRows rows))
    /\ fst e = Form.ovrKey cfg f
    /\ In d (fst (snd e))
    /\ proxy (snd (snd e)) == round2 a
    /\ method (snd (snd e)) = "override"%string.
Proof.
  intros Ha Hd Ei Ec Ep Em Eu Ni Np.
  assert (Ncpt : CPT (Form.attrs f) <> EmptyString).
  { rewrite <- Ec. now apply (enrichRows_CPT rows). }
  assert (Hkey : Form.ovrKey cfg f = keyFor cfg (g d)).
  { unfold Form.ovrKey.
    apply String.eqb_neq in Ni, Ncpt, Np. rewrite Ni, Ncpt, Np. simpl.
    unfold keyFor, buildKey, buildKeyNoUnits. rewrite Ei, Ec, Ep, Em.
    destruct (includeUnitsInKey cfg) eqn:U; [|reflexivity].
    now rewrite (Eu eq_refl). }
  assert (Hk : Form.ovrKey cfg f <> EmptyString) by (rewrite Hkey; apply keyFor_nonempty).
  set (cfg' := Form.applyOverride cfg f).
  assert (Hcfg' : cfg' = Form.withOverrides cfg
                           (Form.setEntry (Form.ovrKey cfg f) (StNum (round2 a)) (overrides cfg))).
  { unfold cfg', Form.applyOverride. apply String.eqb_neq in Hk. now rewrite Hk, Ha. }
  destruct (group_of_line cfg' (enrichRows rows) d Hd) as [e [He [Hfst Hin]]].
  assert (Hfst' : fst e = Form.ovrKey cfg f).
  { rewrite Hfst, Hcfg', keyFor_withOverrides. now symmetry. }
  exists e. split; [exact He|].
  split; [exact Hfst'|]. split; [exact Hin|].
  apply buildGroups_In in He. destruct He as [_ Hstat].
  destruct (groupStat_override cfg' (fst e) (fst (snd e)) (round2 a)) as [Hp Hm].
  { rewrite Hfst', Hcfg'. simpl. apply lookup_setEntry_same. }
  rewrite Hstat, Hp, Hm. split; [apply round2_idempotent | reflexivity].
Qed.

(** Scenario 4 through the form: 45 for the group of [chargesOnlyRows]. *)
Lemma override_via_form_witness :
  exists e,
    In e (buildGroups (Form.applyOverride allowedCleaning aetnaForm)
                      (enrichRows chargesOnlyRows))
    /\ fst e = Form.ovrKey allowedCleaning aetnaForm
    /\ In (enrichRow 0 (lineOf "Ann" 80 20 0 100 0)) (fst (snd e))
    /\ proxy (snd (snd e)) == round2 45
    /\ method (snd (snd e)) = "override"%string.
Proof.
  apply (override_via_form allowedCleaning aetnaForm 45 chargesOnlyRows
                           (enrichRow 0 (lineOf "Ann" 80 20 0 100 0)));
    try reflexivity; try discriminate.
  left. reflexivity.
Defined.

(** ** Ad hoc lookup *)

Lemma mapGet_Some (key : string) (gm : list (string * (list Line * GroupStat)))
      (pack : list Line * GroupStat) :
  mapGet key gm = Some pack -> In (key, pack) gm.
Proof.
  induction gm as [|[k p] gm IH]; simpl; [discriminate|].
  destruct (String.eqb k key) eqn:E.
  - apply String.eqb_eq in E. intros [= <-]. left. now subst.
  - intro H. right. now apply IH.
Qed.

Lemma mapGet_None (key : string) (gm : list (string * (list Line * GroupStat))) :
  mapGet key gm = None <-> ~ In key (map fst gm).
Proof.
  induction gm as [|[k p] gm IH]; simpl; [tauto|].
  destruct (String.eqb k key) eqn:E.
  - apply String.eqb_eq in E. split; [discriminate | intro H; exfalso; apply H; now left].
  - apply String.eqb_neq in E. rewrite IH. tauto.
Qed.

Lemma buildGroups_keys (cfg : Config) (enriched : list Line) (key : string) :
  In key (map fst (buildGroups cfg enriched))
  <-> exists d, In d enriched /\ keyFor cfg (g d) = key.
Proof.
  unfold buildGroups. rewrite map_map. simpl.
  pose proof (groupBy_ok (fun d => keyFor cfg (g d)) enriched) as [Hi Hc _].
  split.
  - intro H. apply in_map_iff in H. destruct H as [[k items] [<- Hin]]. simpl.
    destruct (Hi _ _ Hin) as [Hne E].
    destruct items as [|d items]; [congruence|].
    assert (Hd : In d (filter (fun d => String.eqb (keyFor cfg (g d)) k) enriched))
      by (rewrite <- E; now left).
    apply filter_In in Hd. destruct Hd as [Hd Hk]. apply String.eqb_eq in Hk.
    exists d. auto.
  - intros [d [Hd <-]]. now apply Hc.
Qed.

(** Property X15.  When the analysis has lines (so that its groups are
    the ones consulted), the ad hoc lookup answers "not found" exactly when
    no retained line has the descriptor's key under the active variant.
    Otherwise it reports the group of the lines with that key: their
    number, the group's proxy, and as top values the first five entries of
    the group's stored frequency table. *)
Theorem exampleResult_lookup (cfg : Config) (rows : list Raw.Row) (r : Descriptor) :
  enrichRows rows <> [] ->
  let gm := buildGroups cfg (enrichRows rows) in
  let key := keyFor cfg (descriptorAttrs r) in
  ((exists a, exampleResult cfg gm r = NotFound a)
   <-> forall d, In d (enrichRows rows) -> keyFor cfg (g d) <> key)
  /\ (forall a p m k ne rg top msg,
        exampleResult cfg gm r = Found a p m k ne rg top msg ->
        exists items stat,
          In (key, (items, stat)) gm
          /\ items = filter (fun d => String.eqb (keyFor cfg (g d)) key) (enrichRows rows)
          /\ items <> []
          /\ a = descriptorAttrs r
          /\ k = List.length items
          /\ p = proxy stat
          /\ top = firstn 5 (topValues stat)).
Proof.
  intros _ gm key. unfold exampleResult. fold key.
  destruct (mapGet key gm) as [[items stat]|] eqn:E.
  - split.
    + split; [intros [a H]; discriminate H|].
      intro H. exfalso.
      assert (K : In key (map fst gm)).
      { apply mapGet_Some in E. change key with (fst (key, (items, stat))).
        now apply in_map. }
      apply buildGroups_keys in K. destruct K as [d [Hd Hk]]. now apply (H d).
    + intros a p m k ne rg top msg [= <- <- <- <- <- <- <- <-].
      apply mapGet_Some in E. exists items, stat.
      destruct (buildGroups_items _ _ _ E) as [Hne Hitems]. simpl in Hne, Hitems.
      apply buildGroups_In in E. simpl in E. destruct E as [E ->].
      split; [apply buildGroups_In; simpl; auto|].
      repeat split; auto.
  - split.
    + split; [|intros _; eauto].
      intros _ d Hd Hk. apply mapGet_None in E. apply E.
      apply buildGroups_keys. eauto.
    + intros a p m k ne rg top msg H. discriminate H.
Qed.

(** A descriptor naming the group of [chargesOnlyRows] is found. *)
Lemma exampleResult_lookup_witness :
  enrichRows chargesOnlyRows <> []
  /\ ~ (forall d, In d (enrichRows chargesOnlyRows) ->
                  keyFor allowedCleaning (g d)
                  <> keyFor allowedCleaning (descriptorAttrs aetnaDescriptor)).
Proof.
  assert (H : enrichRows chargesOnlyRows <> []) by discriminate.
  split; [exact H|].
  intro N.
  apply (proj1 (exampleResult_lookup allowedCleaning chargesOnlyRows aetnaDescriptor H)) in N.
  destruct N as [a N]. vm_compute in N. discriminate N.
Defined.

(** ** The order of the issues *)

Lemma cmpIssues_before (a b : Issue) : cmpIssues a b <= 0 <-> issueBefore a b.
Proof.
  unfold cmpIssues, issueBefore, shownDeviation.
  destruct (isBad a), (isBad b); simpl; split; intro H.
  - right. split; [reflexivity | lra].
  - destruct H as [[_ F] | [_ H]]; [discriminate | lra].
  - left. auto.
  - lra.
  - exfalso. lra.
  - destruct H as [[F _] | [F _]]; discriminate.
  - right. split; [reflexivity | lra].
  - destruct H as [[F _] | [_ H]]; [discriminate | lra].
Qed.

Lemma issueBefore_trans (a b c : Issue) :
  issueBefore a b -> issueBefore b c -> issueBefore a c.
Proof.
  unfold issueBefore.
  intros [[A1 A2] | [A1 A2]] [[B1 B2] | [B1 B2]].
  - congruence.
  - left. split; congruence.
  - left. split; congruence.
  - right. split; [congruence | lra].
Qed.

Lemma issueBefore_total (a b : Issue) : ~ issueBefore a b -> issueBefore b a.
Proof.
  unfold issueBefore. intro N.
  destruct (isBad a) eqn:Ea, (isBad b) eqn:Eb.
  - right. split; [reflexivity|].
    destruct (Qlt_le_dec (shownDeviation b) (shownDeviation a)) as [L | L]; [|exact L].
    exfalso. apply N. right. split; [reflexivity | lra].
  - exfalso. apply N. now left.
  - now left.
  - right. split; [reflexivity|].
    destruct (Qlt_le_dec (shownDeviation b) (shownDeviation a)) as [L | L]; [|exact L].
    exfalso. apply N. right. split; [reflexivity | lra].
Qed.

(** Property X16.  Whatever the order in which the rows were pushed, the
    sorted issues are the same rows, with every flagged row before every
    row within range and, among the rows of one kind, in descending order
    of the absolute deviation as printed to one decimal. *)
Theorem sortIssues_order (pushed : list Issue) :
  Permutation (sortIssues pushed) pushed
  /\ StronglySorted issueBefore (sortIssues pushed)
  /\ (forall before a after,
        sortIssues pushed = before ++ a :: after ->
        isBad a = false -> forall b, In b after -> isBad b = false).
Proof.
  assert (S : StronglySorted issueBefore (sortIssues pushed)).
  { apply StronglySorted_impl with (R := fun a b => cmpIssues a b <= 0).
    - intros a b. apply cmpIssues_before.
    - apply jsSort_sorted.
      + intros a b c. rewrite !cmpIssues_before. apply issueBefore_trans.
      + intros a b H. apply cmpIssues_before, issueBefore_total.
        rewrite <- cmpIssues_before. lra. }
  split; [apply jsSort_perm|]. split; [exact S|].
  intros before a after E Ha b Hb. rewrite E in S. clear E.
  induction before as [|x before IH]; simpl in S.
  - inversion S as [|? ? _ F]; subst. rewrite Forall_forall in F.
    destruct (F b Hb) as [[F1 _] | [F1 _]]; congruence.
  - inversion S; subst. now apply IH.
Qed.

(** ** The proxy audit *)

Lemma classify_labels (cfg : Config) (stat : GroupStat) (d : Line) :
  isOverLabel (Status (classify cfg stat d)) = true
  <-> Status (classify cfg stat d) = overLabel cfg.
Proof.
  rewrite classify_status. cbv zeta. unfold underLabel, overLabel, withinRange.
  destruct (Qltb (threshold cfg) _); [destruct (Qltb _ 0)|];
    destruct (benchmark cfg); vm_compute; split; intro H; congruence.
Qed.

Lemma audited_iff (cfg : Config) (items : list Line) (stat : GroupStat) (d : Line) :
  audited cfg items stat d = true
  <-> Status (classify cfg stat d) = overLabel cfg
      /\ ((Qabs (Dbl.sub (Dbl.fl (allowed d)) (Dbl.fl (charges d))) < Dbl.cent
           /\ 0 < charges d)
          \/ (List.length items <= 2)%nat
          \/ proxy stat < 1).
Proof.
  unfold audited, usingChargesAsAllowed, suspiciousProxy, thinGroup.
  rewrite andb_true_iff, classify_labels, !orb_true_iff, andb_true_iff,
    !Qltb_lt, Nat.leb_le.
  tauto.
Qed.

(** Property X17.  A row is pushed on the proxy audit exactly for a line
    labelled over whose allowed amount is within 0.01 of its positive
    charges, or whose group has at most two lines, or whose group's proxy
    is below 1; the row carries the line's metric and its group's proxy and
    size.  "Within 0.01" is the test [Math.abs(allowed - charges) < 0.01]
    in binary64: on amounts up to a billion it holds for decimals at most
    0.0099 apart and fails for decimals 0.0101 or more apart, and a line
    paid 49.99 on charges of 50.00 passes it, so that among three lines
    paid 40.00 it is the one line audited.  Sorted, the rows are in
    descending order of the gap between metric and proxy. *)
Theorem proxyAud_rows (cfg : Config) (rows : list Raw.Row) :
  let near := fun d : Line =>
    Qabs (Dbl.sub (Dbl.fl (allowed d)) (Dbl.fl (charges d))) < Dbl.cent in
  (forall x,
      In x (proxyAud cfg rows)
      <-> exists e d,
            In e (buildGroups cfg (enrichRows rows))
            /\ In d (fst (snd e))
            /\ x = proxyAuditRow cfg (fst (snd e)) (snd (snd e)) d
            /\ Status (classify cfg (snd (snd e)) d) = overLabel cfg
            /\ ((near d /\ 0 < charges d)
                \/ (List.length (fst (snd e)) <= 2)%nat
                \/ proxy (snd (snd e)) < 1))
  /\ (forall d,
        Qabs (allowed d) <= billion -> Qabs (charges d) <= billion ->
        (Qabs (allowed d - charges d) <= 99 # 10000 -> near d)
        /\ (101 # 10000 <= Qabs (allowed d - charges d) -> ~ near d))
  /\ map aPatient (proxyAud paidDefault auditRows) = ["Dee"%string]
  /\ Permutation (sortAudits (proxyAud cfg rows)) (proxyAud cfg rows)
  /\ StronglySorted (fun a b => auditGap b <= auditGap a)
                    (sortAudits (proxyAud cfg rows)).
Proof.
  intro near. split; [|split; [|split; [|split]]].
  - intro x. unfold proxyAud, auditsOfGroup. rewrite in_flat_map. split.
    + intros [e [He Hx]]. apply in_map_iff in Hx. destruct Hx as [d [<- Hd]].
      apply filter_In in Hd. destruct Hd as [Hd Ha]. apply audited_iff in Ha.
      exists e, d. tauto.
    + intros [e [d [He [Hd [-> [Hs Hc]]]]]]. exists e. split; [exact He|].
      apply in_map. apply filter_In. split; [exact Hd|].
      apply audited_iff. auto.
  - intros d Ha Hc. destruct (cent_test_sub _ _ Ha Hc) as [T F]. split; intro H.
    + apply Qltb_lt. now apply T.
    + intro N. apply Qltb_lt in N. rewrite (F H) in N. discriminate.
  - vm_compute. reflexivity.
  - apply jsSort_perm.
  - apply StronglySorted_impl with (R := fun a b => cmpAudit a b <= 0).
    + intros a b. unfold cmpAudit, auditGap. lra.
    + apply jsSort_sorted; unfold cmpAudit; intros; lra.
Qed.

(** ** Sums *)

Lemma d3_sum_from {A : Type} (f : A -> Q) (l : list A) (s : Q) :
  fold_left (fun s d => s + f d) l s == s + d3_sum f l.
Proof.
  unfold d3_sum. revert s. induction l as [|x l IH]; intro s; simpl; [lra|].
  rewrite (IH (s + f x)), (IH (0 + f x)). lra.
Qed.

Lemma d3_sum_cons {A : Type} (f : A -> Q) (x : A) (l : list A) :
  d3_sum f (x :: l) == f x + d3_sum f l.
Proof.
  unfold d3_sum at 1. simpl. rewrite d3_sum_from. lra.
Qed.

Lemma d3_sum_app {A : Type} (f : A -> Q) (l1 l2 : list A) :
  d3_sum f (l1 ++ l2) == d3_sum f l1 + d3_sum f l2.
Proof.
  induction l1 as [|x l1 IH]; simpl.
  - unfold d3_sum at 2. simpl. lra.
  - rewrite !d3_sum_cons, IH. lra.
Qed.

Lemma d3_sum_perm {A : Type} (f : A -> Q) (l1 l2 : list A) :
  Permutation l1 l2 -> d3_sum f l1 == d3_sum f l2.
Proof.
  induction 1 as [|x l1 l2 _ IH|x y l|l1 l2 l3 _ IH1 _ IH2].
  - reflexivity.
  - rewrite !d3_sum_cons, IH. reflexivity.
  - rewrite !d3_sum_cons. lra.
  - now rewrite IH1.
Qed.

Lemma d3_sum_nonneg {A : Type} (f : A -> Q) (l : list A) :
  (forall x, In x l -> 0 <= f x) -> 0 <= d3_sum f l.
Proof.
  induction l as [|x l IH]; intro H.
  - unfold d3_sum. simpl. lra.
  - rewrite d3_sum_cons.
    pose proof (H x (or_introl eq_refl)).
    assert (0 <= d3_sum f l) by (apply IH; intros y Hy; apply H; now right).
    lra.
Qed.

(** A sum of amounts that are not negative is 0 only when each is 0. *)
Lemma d3_sum_zero {A : Type} (f : A -> Q) (l : list A) :
  (forall x, In x l -> 0 <= f x) -> d3_sum f l == 0 ->
  forall x, In x l -> f x == 0.
Proof.
  induction l as [|y l IH]; intros H Z x Hx; [destruct Hx|].
  rewrite d3_sum_cons in Z.
  pose proof (H y (or_introl eq_refl)) as Hy.
  assert (Hl : 0 <= d3_sum f l) by (apply d3_sum_nonneg; intros z Hz; apply H; now right).
  destruct Hx as [<- | Hx]; [lra|].
  apply IH; [intros z Hz; apply H; now right | lra | exact Hx].
Qed.

Lemma enrichRows_nonneg (rows : list Raw.Row) (d : Line) :
  In d (enrichRows rows) -> 0 <= insurancePaid d /\ 0 <= allowed d.
Proof.
  intro Hd. apply enrichRows_elim in Hd. destruct Hd as [j [r [_ [_ ->]]]].
  unfold enrichRow, computeAllowed. cbn [insurancePaid allowed].
  pose proof (Qabs_nonneg (Raw.Insurance_Payment r)) as Hi.
  pose proof (Q.le_max_l 0 (Raw.Patient_Payment r)) as Hp.
  pose proof (Q.le_max_l 0 (Raw.Balance r)) as Hb.
  split; [exact Hi | apply round2_nonneg; lra].
Qed.

(** ** Unpaid patients and denials under either benchmark *)

(** Property X18.  A reported patient has no line with an insurer payment.
    Under the paid benchmark the unpaid gap of every reported patient is 0;
    under the allowed benchmark it is the patient's total allowed amount. *)
Theorem unpaid_gap_by_benchmark (cfg : Config) (rows : list Raw.Row)
        (a : PatientAggregate) :
  In a (unpaidPatients cfg rows) ->
  (forall d, In d (enrichRows rows) -> patient d = Patient a -> insurancePaid d == 0)
  /\ (benchmark cfg = Paid -> UnpaidGap a == 0)
  /\ (benchmark cfg = Allowed -> UnpaidGap a == TotalAllowed a)
  /\ 0 <= UnpaidGap a.
Proof.
  intro Ha. apply unpaidPatients_In in Ha. destruct Ha as [p [-> [_ Hz]]].
  set (lines := filter (fun d => String.eqb (patient d) p) (enrichRows rows)) in *.
  cbn [aggregate AllZeroPaid UnpaidGap TotalAllowed Patient fst snd] in *.
  apply andb_true_iff in Hz. destruct Hz as [Hz _]. apply Qeq_bool_iff in Hz.
  assert (Hin : forall d, In d lines -> In d (enrichRows rows))
    by (intros d Hd; now apply filter_In in Hd).
  assert (Hall : 0 <= d3_sum allowed lines).
  { apply d3_sum_nonneg. intros d Hd. now apply (enrichRows_nonneg rows), Hin. }
  split; [|split; [|split]].
  - intros d Hd Hp. apply (d3_sum_zero insurancePaid lines).
    + intros x Hx. now apply (enrichRows_nonneg rows), Hin.
    + exact Hz.
    + apply filter_In. split; [exact Hd | now apply String.eqb_eq].
  - intros ->. rewrite Hz. apply Q.max_l. lra.
  - intros ->. rewrite Hz. rewrite Q.max_r; lra.
  - apply Q.le_max_l.
Qed.

Lemma unpaid_gap_by_benchmark_witness :
  exists a, In a (unpaidPatients allowedCleaning unpaidRows)
            /\ UnpaidGap a == TotalAllowed a.
Proof.
  eexists. split; [left; vm_compute; reflexivity|].
  match goal with
  | |- UnpaidGap ?a == _ =>
      assert (H : In a (unpaidPatients allowedCleaning unpaidRows))
        by (left; vm_compute; reflexivity);
      exact (proj1 (proj2 (proj2 (unpaid_gap_by_benchmark _ _ a H))) eq_refl)
  end.
Defined.

(** Property X19.  Under the paid benchmark the write-off clause of the
    denial test adds nothing: a line is a denial exactly when the insurer
    paid nothing on positive charges. *)
Theorem denials_paid (cfg : Config) (rows : list Raw.Row) :
  benchmark cfg = Paid ->
  (forall d, isDenial cfg d = true <-> insurancePaid d == 0 /\ 0 < charges d)
  /\ (forall e,
        In e (denials cfg rows)
        <-> exists d, In d (enrichRows rows) /\ e = denialEntry d
                      /\ insurancePaid d == 0 /\ 0 < charges d).
Proof.
  intro B.
  assert (H : forall d, isDenial cfg d = true <-> insurancePaid d == 0 /\ 0 < charges d).
  { intro d. rewrite isDenial_iff. unfold metricOf. rewrite B. tauto. }
  split; [exact H|].
  intro e. unfold denials. rewrite in_map_iff. split.
  - intros [d [<- Hd]]. apply filter_In in Hd. destruct Hd as [Hd Hden].
    apply H in Hden. exists d. tauto.
  - intros [d [Hd [-> Hden]]]. exists d. split; [reflexivity|].
    apply filter_In. split; [exact Hd | now apply H].
Qed.

Lemma denials_paid_witness :
  benchmark paidDefault = Paid
  /\ (forall d, isDenial paidDefault d = true <-> insurancePaid d == 0 /\ 0 < charges d).
Proof.
  split; [reflexivity|].
  exact (proj1 (denials_paid paidDefault unpaidRows eq_refl)).
Defined.

(** ** Totals *)

Lemma d3_sum_flat_map {A B : Type} (f : B -> Q) (h : A -> list B) (l : list A) :
  d3_sum f (flat_map h l) == d3_sum (fun x => d3_sum f (h x)) l.
Proof.
  induction l as [|x l IH]; simpl; [reflexivity|].
  rewrite d3_sum_app, d3_sum_cons, IH. reflexivity.
Qed.

Lemma d3_sum_map {A B : Type} (f : B -> Q) (h : A -> B) (l : list A) :
  d3_sum f (map h l) == d3_sum (fun x => f (h x)) l.
Proof.
  induction l as [|x l IH]; simpl; [reflexivity|].
  rewrite !d3_sum_cons, IH. reflexivity.
Qed.

Lemma d3_sum_ext {A : Type} (f f' : A -> Q) (l : list A) :
  (forall x, In x l -> f x == f' x) -> d3_sum f l == d3_sum f' l.
Proof.
  induction l as [|x l IH]; intro H; [reflexivity|].
  rewrite !d3_sum_cons, (H x (or_introl eq_refl)), IH; [reflexivity|].
  intros y Hy. apply H. now right.
Qed.

Lemma d3_sum_const {A : Type} (c : Q) (l : list A) :
  d3_sum (fun _ => c) l == c * inject_Z (Z.of_nat (List.length l)).
Proof.
  induction l as [|x l IH].
  - unfold d3_sum. simpl. change (inject_Z 0) with 0. lra.
  - rewrite d3_sum_cons, IH. cbn [List.length].
    rewrite Nat2Z.inj_succ, <- Z.add_1_r, inject_Z_plus. change (inject_Z 1) with 1. lra.
Qed.

Lemma d3_sum_minus {A : Type} (f h : A -> Q) (l : list A) :
  d3_sum (fun x => f x - h x) l == d3_sum f l - d3_sum h l.
Proof.
  induction l as [|x l IH].
  - unfold d3_sum. simpl. lra.
  - rewrite !d3_sum_cons, IH. lra.
Qed.

(** Property X20.  The totals, which exist when there are records, agree
    with the tables: "expected minus actual" is the sum, over the rows of
    the issues, of proxy minus metric;
    the actual total is the insurer-paid total under the paid benchmark;
    and the expected total is the sum of every line's group proxy. *)
Theorem totals_agree (cfg : Config) (rows : list Raw.Row) (t : Totals) :
  totals cfg rows = Some t ->
  deltaExpectedMinusActual t
  == d3_sum (fun i => iProxy i - iMetric i) (outIssues cfg rows)
  /\ totalExpected t == d3_sum iProxy (outIssues cfg rows)
  /\ totalActual t == d3_sum iMetric (outIssues cfg rows)
  /\ (benchmark cfg = Paid -> totalActual t = totalInsurancePaid t).
Proof.
  intro Ht.
  assert (Et : t = totalsOf cfg rows).
  { unfold totals in Ht. destruct rows; [discriminate | now injection Ht]. }
  subst t. clear Ht.
  cbn [totalsOf deltaExpectedMinusActual totalExpected totalActual totalInsurancePaid].
  set (enr := enrichRows rows). set (groups := buildGroups cfg enr).
  assert (Hn : forall e, In e groups -> n (snd (snd e)) = List.length (fst (snd e))).
  { intros e He. apply buildGroups_In in He. destruct He as [_ ->]. reflexivity. }
  assert (Actual : d3_sum (metricOf cfg) enr
                   == d3_sum (fun e => d3_sum (metricOf cfg) (fst (snd e))) groups).
  { rewrite <- (d3_sum_perm _ _ _ (buildGroups_perm cfg enr)).
    apply d3_sum_flat_map. }
  assert (Issues : forall (col : Issue -> Q) (perLine : Q -> Line -> Q),
             (forall stat d, col (classify cfg stat d) = perLine (proxy stat) d) ->
             d3_sum col (outIssues cfg rows)
             == d3_sum (fun e => d3_sum (perLine (proxy (snd (snd e)))) (fst (snd e))) groups).
  { intros col perLine H. unfold outIssues, issuesOfGroup. fold enr. fold groups.
    rewrite d3_sum_flat_map. apply d3_sum_ext. intros e _.
    rewrite d3_sum_map. apply d3_sum_ext. intros d _. now rewrite H. }
  assert (Expected : d3_sum expectedOf groups == d3_sum iProxy (outIssues cfg rows)).
  { rewrite (Issues iProxy (fun p _ => p)) by reflexivity.
    apply d3_sum_ext. intros e He. unfold expectedOf. rewrite (Hn e He).
    symmetry. apply d3_sum_const. }
  assert (ActualI : d3_sum (metricOf cfg) enr == d3_sum iMetric (outIssues cfg rows)).
  { rewrite (Issues iMetric (fun _ d => metricOf cfg d)) by reflexivity. exact Actual. }
  split; [|split; [exact Expected | split; [exact ActualI|]]].
  - rewrite Expected, ActualI, d3_sum_minus. reflexivity.
  - intro B. unfold d3_sum, metricOf. now rewrite B.
Qed.

(** The totals of [twoAmountRows]: paid 130 in all, 160 expected. *)
Lemma totals_agree_witness :
  totals paidDefault twoAmountRows = Some (totalsOf paidDefault twoAmountRows)
  /\ deltaExpectedMinusActual (totalsOf paidDefault twoAmountRows)
     == d3_sum (fun i => iProxy i - iMetric i) (outIssues paidDefault twoAmountRows).
Proof.
  split; [reflexivity|].
  exact (proj1 (totals_agree paidDefault twoAmountRows _ eq_refl)).
Defined.

(** ** Keys without the separator *)

Lemma bar_split (a a' r r' : string) :
  barFree a = true -> barFree a' = true ->
  (a ++ "|" ++ r)%string = (a' ++ "|" ++ r')%string -> a = a' /\ r = r'.
Proof.
  revert a'. induction a as [|c a IH]; intros [|c' a'] Ha Ha' E; simpl in *.
  - injection E as E. auto.
  - injection E as Ec E. subst c'. unfold barFree in Ha'. simpl in Ha'. discriminate.
  - injection E as Ec E. subst c. unfold barFree in Ha. simpl in Ha. discriminate.
  - injection E as Ec E. subst c'.
    unfold barFree in Ha, Ha'. simpl in Ha, Ha'.
    apply andb_true_iff in Ha, Ha'. destruct Ha as [_ Ha]. destruct Ha' as [_ Ha'].
    destruct (IH a' Ha Ha' E) as [-> ->]. auto.
Qed.

(** Property X21.  When payer, procedure code and place of service hold no
    ['|'], lines with the same key without units have the same payer, code,
    place and modifiers; when the modifiers hold none either, lines with
    the same key with units have the same five attributes. *)
Theorem keys_injective_without_bar (g1 g2 : Attrs) :
  barFree (Insurance g1) = true -> barFree (Insurance g2) = true ->
  barFree (CPT g1) = true -> barFree (CPT g2) = true ->
  barFree (POS g1) = true -> barFree (POS g2) = true ->
  (buildKeyNoUnits g1 = buildKeyNoUnits g2 ->
   Insurance g1 = Insurance g2 /\ CPT g1 = CPT g2 /\ POS g1 = POS g2
   /\ Modifiers g1 = Modifiers g2)
  /\ (barFree (Modifiers g1) = true -> barFree (Modifiers g2) = true ->
      buildKey g1 = buildKey g2 -> g1 = g2).
Proof.
  intros I1 I2 C1 C2 P1 P2. unfold buildKeyNoUnits, buildKey. split.
  - intro E.
    apply bar_split in E; [|assumption|assumption]. destruct E as [Ei E].
    apply bar_split in E; [|assumption|assumption]. destruct E as [Ec E].
    apply bar_split in E; [|assumption|assumption]. destruct E as [Ep Em].
    auto.
  - intros M1 M2 E.
    apply bar_split in E; [|assumption|assumption]. destruct E as [Ei E].
    apply bar_split in E; [|assumption|assumption]. destruct E as [Ec E].
    apply bar_split in E; [|assumption|assumption]. destruct E as [Ep E].
    apply bar_split in E; [|assumption|assumption]. destruct E as [Em Eu].
    destruct g1, g2. simpl in *. now subst.
Qed.

Lemma keys_injective_without_bar_witness :
  buildKeyNoUnits (g (enrichRow 0 (lineOf "Ann" 50 0 0 100 0)))
  = buildKeyNoUnits (g (enrichRow 1 (lineOf "Bob" 80 0 0 100 0)))
  /\ Insurance (g (enrichRow 0 (lineOf "Ann" 50 0 0 100 0)))
     = Insurance (g (enrichRow 1 (lineOf "Bob" 80 0 0 100 0))).
Proof.
  split; [reflexivity|].
  apply (keys_injective_without_bar (g (enrichRow 0 (lineOf "Ann" 50 0 0 100 0)))
                                    (g (enrichRow 1 (lineOf "Bob" 80 0 0 100 0))));
    reflexivity.
Defined.

(** ** Where the proxy comes from *)

(** Property X22.  Without a numeric override for its key, the proxy of a
    non-empty group is the metric of one of its lines, rounded to cents:
    the insurer payment or the allowed amount, never the charges; and when
    decontamination narrowed the candidates, that line is one whose allowed
    amount differs from its charges. *)
Theorem proxy_from_a_line (cfg : Config) (key : string) (items : list Line) :
  items <> [] ->
  (forall v, lookupOverride key (overrides cfg) <> Some (StNum v)) ->
  exists d,
    In d items
    /\ proxy (groupStat cfg key items) = round2 (metricOf cfg d)
    /\ (metricForProxy cfg items <> metricAll cfg items -> equalsCharges d = false).
Proof.
  intros Hne Hov.
  assert (Hp : proxy (groupStat cfg key items)
               = fst (selectProxy (metricForProxy cfg items))).
  { cbn [groupStat proxy]. unfold applyOverride.
    destruct (lookupOverride key (overrides cfg)) as [[| |v]|] eqn:E; try reflexivity.
    exfalso. now apply (Hov v). }
  pose proof (selectProxy_In _ (metricForProxy_nonempty cfg items Hne)) as Hin.
  rewrite <- Hp in Hin. apply in_map_iff in Hin. destruct Hin as [v [Ev Hv]].
  rewrite <- Ev. clear Hp Ev.
  assert (All : forall v, In v (metricAll cfg items) ->
                exists d, In d items /\ round2 v = round2 (metricOf cfg d)
                          /\ (metricAll cfg items <> metricAll cfg items ->
                              equalsCharges d = false)).
  { intros w Hw. unfold metricAll in Hw. apply in_map_iff in Hw.
    destruct Hw as [d [<- Hd]]. exists d. split; [exact Hd|].
    split; [reflexivity | congruence]. }
  rewrite metricForProxy_cases in *.
  destruct (benchmark cfg) eqn:B.
  - rewrite <- (metricAll_paid cfg items B) in *. now apply All.
  - destruct (decontaminateChargesProxy cfg
              && negb (List.length (filter equalsCharges items) =? 0)%nat
              && negb (List.length (filter (fun d => negb (equalsCharges d)) items) =? 0)%nat).
    + apply in_map_iff in Hv. destruct Hv as [d [<- Hd]].
      apply filter_In in Hd. destruct Hd as [Hd Hneq].
      exists d. split; [exact Hd|]. split.
      * unfold metricOf. now rewrite B.
      * intros _. now apply negb_true_iff.
    + rewrite <- (metricAll_allowed cfg items B) in *. now apply All.
Qed.

Lemma proxy_from_a_line_witness :
  exists d,
    In d (enrichRows twoAmountRows)
    /\ proxy (groupStat paidDefault "k" (enrichRows twoAmountRows))
       = round2 (metricOf paidDefault d).
Proof.
  destruct (proxy_from_a_line paidDefault "k" (enrichRows twoAmountRows))
    as [d [H1 [H2 _]]].
  - discriminate.
  - intros v. discriminate.
  - exists d. auto.
Defined.
